(** * KAZU: entity/document data model, cleanup step and mapping cache

    A shallow embedding of

    - [kazu/data/data.py]         (module [data] below),
    - [kazu/steps/other/cleanup.py] (module [cleanup]),
    - [azner/steps/linking/sapbert.py] (module [sapbert]),
    - [kazu/steps/ner/opsin.py]   (module [opsin]),

    together with the properties of these programs that the specification
    states, and further properties of the code.  Python integers are [Z], strings are [string], a [frozenset] of
    hashable values is a [gset], a [dict] is an insertion-ordered association
    list, an object with identity semantics carries its [id]. *)

From Stdlib Require Import ZArith String Ascii Bool Lia.
From Stdlib Require Import Floats.SpecFloat.
From stdpp Require Import base decidable option list strings gmap.

Open Scope Z_scope.

(** ** Exceptions and the error monad

    Python code that may raise is a function into [result]; the exceptions
    are those the three modules raise or let escape. *)

Inductive exn : Type :=
| ValueError (msg : string)
| RuntimeError (msg : string)
| KeyError (key : string)
| TypeError (msg : string)
| AttributeError (msg : string)
| AssertionError (msg : string).

Inductive result (A : Type) : Type :=
| Ok (a : A)
| Raise (e : exn).
Arguments Ok {A} a.
Arguments Raise {A} e.

#[global] Instance result_bind : MBind result :=
  λ A B k m, match m with
             | Ok a => k a
             | Raise e => Raise e
             end.

#[global] Instance result_ret : MRet result := λ A a, Ok a.

(** [for x in xs: ...] over a body that may raise, collecting the results. *)
Fixpoint rmap {A B : Type} (f : A → result B) (xs : list A) : result (list B) :=
  match xs with
  | [] => Ok []
  | x :: xs' => y ← f x; ys ← rmap f xs'; Ok (y :: ys)
  end.

(** ** Python dictionaries

    A [dict] keeps its items in insertion order and finds a key by [__eq__]
    (among keys of equal hash; every [__eq__] below implies equal hashes).
    Assigning to a key that is already present replaces the value and keeps
    the key object first stored, at its position. *)

Section pydict.
Context {K V : Type} (keq : K → K → bool).

(** [d.get(k)] *)
Fixpoint dict_get (d : list (K * V)) (k : K) : option V :=
  match d with
  | [] => None
  | (k', v) :: d' => if keq k' k then Some v else dict_get d' k
  end.

(** [k in d] *)
Definition dict_contains (d : list (K * V)) (k : K) : bool :=
  match dict_get d k with
  | Some _ => true
  | None => false
  end.

(** [d[k] = v] *)
Fixpoint dict_set (d : list (K * V)) (k : K) (v : V) : list (K * V) :=
  match d with
  | [] => [(k, v)]
  | (k', v') :: d' =>
      if keq k' k then (k', v) :: d' else (k', v') :: dict_set d' k v
  end.

(** [del d[k]] (a missing key is left to the caller to rule out) *)
Fixpoint dict_del (d : list (K * V)) (k : K) : list (K * V) :=
  match d with
  | [] => []
  | (k', v') :: d' => if keq k' k then d' else (k', v') :: dict_del d' k
  end.

(** [d.values()] *)
Definition dict_values (d : list (K * V)) : list V := d.*2.

(** No two stored keys compare equal: what every [dict] satisfies. *)
Fixpoint dict_wf (d : list (K * V)) : Prop :=
  match d with
  | [] => True
  | (k, _) :: d' => dict_get d' k = None ∧ dict_wf d'
  end.

End pydict.

Module data.

(** ** Enumerations *)

(** [class MentionConfidence(IntEnum)] *)
Inductive MentionConfidence : Type :=
| HIGHLY_LIKELY
| PROBABLE
| POSSIBLE
| IGNORE.

(** The integer value of a member; [IntEnum] members compare by it. *)
Definition MentionConfidence_value (c : MentionConfidence) : Z :=
  match c with
  | HIGHLY_LIKELY => 100
  | PROBABLE => 50
  | POSSIBLE => 10
  | IGNORE => 0
  end.

(** [class StringMatchConfidence(AutoNameEnum)] *)
Inductive StringMatchConfidence : Type :=
| SMC_HIGHLY_LIKELY
| SMC_PROBABLE
| SMC_POSSIBLE.

(** [class DisambiguationConfidence(AutoNameEnum)] *)
Inductive DisambiguationConfidence : Type :=
| DC_HIGHLY_LIKELY
| DC_PROBABLE
| DC_POSSIBLE
| DC_AMBIGUOUS.

(** [class EquivalentIdAggregationStrategy(AutoNameEnum)] *)
Inductive EquivalentIdAggregationStrategy : Type :=
| NO_STRATEGY
| RESOLVED_BY_SIMILARITY
| SYNONYM_IS_AMBIGUOUS
| CUSTOM
| UNAMBIGUOUS
| MERGED_AS_NON_SYMBOLIC
| MODIFIED_BY_CURATION
| RESOLVED_BY_XREF.

(** [class CuratedTermBehaviour(AutoNameEnum)] *)
Inductive CuratedTermBehaviour : Type :=
| ADD_FOR_NER_AND_LINKING
| ADD_FOR_LINKING_ONLY
| DROP_SYNONYM_TERM_FOR_LINKING.

#[global] Instance MentionConfidence_eq_dec : EqDecision MentionConfidence.
Proof. solve_decision. Defined.
#[global] Instance StringMatchConfidence_eq_dec : EqDecision StringMatchConfidence.
Proof. solve_decision. Defined.
#[global] Instance DisambiguationConfidence_eq_dec : EqDecision DisambiguationConfidence.
Proof. solve_decision. Defined.
#[global] Instance EquivalentIdAggregationStrategy_eq_dec :
  EqDecision EquivalentIdAggregationStrategy.
Proof. solve_decision. Defined.
#[global] Instance CuratedTermBehaviour_eq_dec : EqDecision CuratedTermBehaviour.
Proof. solve_decision. Defined.

(** ** CharSpan *)

(** [@dataclass(frozen=True) class CharSpan] *)
Record CharSpan : Type := mkCharSpan {
  cs_start : Z;
  cs_end : Z
}.

#[global] Instance CharSpan_eq_dec : EqDecision CharSpan.
Proof. solve_decision. Defined.

#[global] Instance CharSpan_countable : Countable CharSpan.
Proof.
  refine (inj_countable' (λ s, (cs_start s, cs_end s))
                         (λ p, mkCharSpan p.1 p.2) _).
  by intros [].
Defined.

(** [return self.start >= other.start and self.end <= other.end] *)
Definition CharSpan_is_completely_overlapped (self other : CharSpan) : bool :=
  (cs_start other <=? cs_start self) && (cs_end self <=? cs_end other).

(** [return (other.start <= self.start <= other.end)
            or (other.start <= self.end <= other.end)] *)
Definition CharSpan_is_partially_overlapped (self other : CharSpan) : bool :=
  ((cs_start other <=? cs_start self) && (cs_start self <=? cs_end other))
  || ((cs_start other <=? cs_end self) && (cs_end self <=? cs_end other)).

(** [__lt__] and [__gt__] *)
Definition CharSpan_lt (self other : CharSpan) : bool :=
  cs_start self <? cs_start other.
Definition CharSpan_gt (self other : CharSpan) : bool :=
  cs_end other <? cs_end self.

(** ** JSON-encodable values ([JsonEncodable])

    The free-form [metadata] dictionaries hold such values, and the
    converter writes and reads them.  A Python [float] is an IEEE value
    ([spec_float]); it is only stored and copied here. *)

Abbreviation float := spec_float.

#[global] Instance spec_float_eq_dec : EqDecision spec_float.
Proof. solve_decision. Defined.

#[warnings="-register-all"]
Inductive json : Type :=
| JNull
| JBool (b : bool)
| JInt (n : Z)
| JFloat (x : float)
| JStr (s : string)
| JList (xs : list json)
| JDict (kvs : list (string * json)).

#[global] Instance json_eq_dec : EqDecision json.
Proof.
  refine (fix go (a b : json) {struct a} : Decision (a = b) :=
    match a, b with
    | JNull, JNull => left _
    | JBool x, JBool y => cast_if (decide (x = y))
    | JInt x, JInt y => cast_if (decide (x = y))
    | JFloat x, JFloat y => cast_if (decide (x = y))
    | JStr x, JStr y => cast_if (decide (x = y))
    | JList xs, JList ys => cast_if (@list_eq_dec _ go xs ys)
    | JDict xs, JDict ys =>
        cast_if (@list_eq_dec _ (@prod_eq_dec _ _ _ go) xs ys)
    | _, _ => right _
    end); congruence.
Defined.

(** ** EquivalentIdSet, Mapping *)

(** [@dataclass(frozen=True, eq=True, order=True) class EquivalentIdSet] *)
Record EquivalentIdSet : Type := mkEquivalentIdSet {
  ids_and_source : gset (string * string)
}.

#[global] Instance EquivalentIdSet_eq_dec : EqDecision EquivalentIdSet.
Proof. solve_decision. Defined.

#[global] Instance EquivalentIdSet_countable : Countable EquivalentIdSet.
Proof.
  refine (inj_countable' ids_and_source mkEquivalentIdSet _).
  by intros [].
Defined.

(** [return set(x[1] for x in self.ids_and_source)] *)
Definition EquivalentIdSet_sources (self : EquivalentIdSet) : gset string :=
  set_map snd (ids_and_source self).

(** [return set(x[0] for x in self.ids_and_source)] *)
Definition EquivalentIdSet_ids (self : EquivalentIdSet) : gset string :=
  set_map fst (ids_and_source self).

(** [AssociatedIdSets = frozenset[EquivalentIdSet]] *)
Abbreviation AssociatedIdSets := (gset EquivalentIdSet).

(** [@dataclass(frozen=True) class Mapping].  [metadata] is declared
    [hash=False] only, so it takes part in [__eq__]. *)
Record Mapping : Type := mkMapping {
  default_label : string;
  source : string;
  mp_parser_name : string;
  mp_idx : string;
  string_match_strategy : string;
  string_match_confidence : StringMatchConfidence;
  disambiguation_confidence : option DisambiguationConfidence;
  disambiguation_strategy : option string;
  xref_source_parser_name : option string;
  mp_metadata : list (string * json)
}.

#[global] Instance Mapping_eq_dec : EqDecision Mapping.
Proof. solve_decision. Defined.

(** ** SynonymTerm and SynonymTermWithMetrics

    [SynonymTermWithMetrics] extends [SynonymTerm] (the first seven fields)
    by the four metric fields. *)

Record SynonymTermWithMetrics : Type := mkSynonymTermWithMetrics {
  terms : gset string;
  term_norm : string;
  parser_name : string;
  is_symbolic : bool;
  associated_id_sets : AssociatedIdSets;
  (* field(hash=False, compare=False) *)
  aggregated_by : EquivalentIdAggregationStrategy;
  (* field(hash=False, default_factory=frozenset) *)
  mapping_types : gset string;
  (* field(compare=False, default=None), four times *)
  search_score : option float;
  embed_score : option float;
  bool_score : option float;
  exact_match : option bool
}.

#[global] Instance SynonymTermWithMetrics_eq_dec : EqDecision SynonymTermWithMetrics.
Proof. solve_decision. Defined.

(** The fields the generated [__eq__] compares: those whose [compare] is
    left at its default [True]. *)
Definition compare_fields (t : SynonymTermWithMetrics) :
    gset string * string * string * bool * AssociatedIdSets * gset string :=
  (terms t, term_norm t, parser_name t, is_symbolic t, associated_id_sets t,
   mapping_types t).

(** The fields the generated [__hash__] hashes: those with [hash] unset and
    [compare] true. *)
Definition hash_fields (t : SynonymTermWithMetrics) :
    gset string * string * string * bool * AssociatedIdSets :=
  (terms t, term_norm t, parser_name t, is_symbolic t, associated_id_sets t).

(** [SynonymTermWithMetrics.__eq__] *)
Definition SynonymTermWithMetrics_eq (a b : SynonymTermWithMetrics) : bool :=
  bool_decide (compare_fields a = compare_fields b).

(** [return len(self.associated_id_sets) > 1] *)
Definition is_ambiguous (self : SynonymTermWithMetrics) : bool :=
  bool_decide (1 < size (associated_id_sets self))%nat.

(** One entry of [new_values]: the incoming value when it [is not None],
    else the field of [self] is left as it is by [dataclasses.replace]. *)
Definition replace_metric {A : Type} (incoming existing : option A) : option A :=
  match incoming with
  | Some v => Some v
  | None => existing
  end.

(** [SynonymTermWithMetrics.merge_metrics] *)
Definition merge_metrics (self term : SynonymTermWithMetrics) :
    SynonymTermWithMetrics :=
  {| terms := terms self;
     term_norm := term_norm self;
     parser_name := parser_name self;
     is_symbolic := is_symbolic self;
     associated_id_sets := associated_id_sets self;
     aggregated_by := aggregated_by self;
     mapping_types := mapping_types self;
     search_score := replace_metric (search_score term) (search_score self);
     embed_score := replace_metric (embed_score term) (embed_score self);
     bool_score := replace_metric (bool_score term) (bool_score self);
     exact_match := replace_metric (exact_match term) (exact_match self) |}.

(** ** Entity *)

(** [@dataclass class Entity].  [__eq__] and [__hash__] are by [id(self)],
    so an [Entity] value carries the identity of its object in [obj_id];
    the other fields are the object's attributes. *)
Record Entity : Type := mkEntity {
  obj_id : positive;
  e_match : string;
  entity_class : string;
  spans : gset CharSpan;
  namespace : string;
  mention_confidence : MentionConfidence;
  mappings : list Mapping;
  e_metadata : list (string * json);
  e_start : Z;
  e_end : Z;
  match_norm : string;
  syn_term_to_synonym_terms :
    list (SynonymTermWithMetrics * SynonymTermWithMetrics)
}.

(** [def __hash__(self): return id(self)] *)
Definition Entity_hash (self : Entity) : Z := Z.pos (obj_id self).

(** [def __eq__(self, other): return id(self) == id(other)] *)
Definition Entity_eq (self other : Entity) : bool :=
  bool_decide (obj_id self = obj_id other).

(** A [set] of entities: one object per identity. *)
Definition Entity_set (ents : list Entity) : gmap positive Entity :=
  list_to_map ((λ e, (obj_id e, e)) <$> ents).

(** [earliest_start] starts as [math.inf] and then holds an [int]. *)
Inductive earliest : Type :=
| inf
| at_ (start : Z).

(** The body of the loop of [calc_starts_and_ends]. *)
Definition calc_step (acc : earliest * Z) (span : CharSpan) : earliest * Z :=
  let '(earliest_start, latest_end) := acc in
  let earliest_start :=
    match earliest_start with
    | inf => at_ (cs_start span)
    | at_ s => if cs_start span <? s then at_ (cs_start span) else at_ s
    end in
  let latest_end :=
    if latest_end <? cs_end span then cs_end span else latest_end in
  (earliest_start, latest_end).

(** [Entity.calc_starts_and_ends]; the spans are visited in the order the
    set yields them. *)
Definition calc_starts_and_ends (spans : gset CharSpan) : result (Z * Z) :=
  match foldl calc_step (inf, 0) (elements spans) with
  | (inf, _) => Raise (ValueError "spans are not valid")
  | (at_ earliest_start, latest_end) => Ok (earliest_start, latest_end)
  end.

(** [Entity.update_terms]: one iteration of the loop, on the store. *)
Definition update_term
    (store : list (SynonymTermWithMetrics * SynonymTermWithMetrics))
    (term : SynonymTermWithMetrics) :
    list (SynonymTermWithMetrics * SynonymTermWithMetrics) :=
  match dict_get SynonymTermWithMetrics_eq store term with
  | Some existing_term =>
      let new_term := merge_metrics existing_term term in
      dict_set SynonymTermWithMetrics_eq store new_term new_term
  | None => dict_set SynonymTermWithMetrics_eq store term term
  end.

(** [Entity.update_terms] *)
Definition update_terms (self : Entity) (new_terms : list SynonymTermWithMetrics) :
    Entity :=
  {| obj_id := obj_id self;
     e_match := e_match self;
     entity_class := entity_class self;
     spans := spans self;
     namespace := namespace self;
     mention_confidence := mention_confidence self;
     mappings := mappings self;
     e_metadata := e_metadata self;
     e_start := e_start self;
     e_end := e_end self;
     match_norm := match_norm self;
     syn_term_to_synonym_terms :=
       foldl update_term (syn_term_to_synonym_terms self) new_terms |}.

(** [Entity.is_completely_overlapped]: every span of [self] lies in some
    span of [other]. *)
Definition Entity_is_completely_overlapped (self other : Entity) : bool :=
  forallb (λ charspan,
             existsb (CharSpan_is_completely_overlapped charspan)
                     (elements (spans other)))
          (elements (spans self)).

(** [Entity.is_partially_overlapped] *)
Definition Entity_is_partially_overlapped (self other : Entity) : bool :=
  match elements (spans self), elements (spans other) with
  | [charspan], [other_charspan] =>
      CharSpan_is_partially_overlapped charspan other_charspan
  | _, _ => false
  end.

(** [Entity.__len__] *)
Definition Entity_len (self : Entity) : Z := e_end self - e_start self.

(** ** Section and Document *)

(** [@dataclass(unsafe_hash=True) class Section] *)
Record Section_ : Type := mkSection {
  text : string;
  name : string;
  s_metadata : list (string * json);
  entities : list Entity;
  _sentence_spans : option (list CharSpan)
}.

(** The [sentence_spans] property. *)
Definition sentence_spans (self : Section_) : list CharSpan :=
  match _sentence_spans self with
  | Some sent_spans => sent_spans
  | None => []
  end.

(** The [sentence_spans] setter. *)
Definition set_sentence_spans (self : Section_) (sent_spans : list CharSpan) :
    result Section_ :=
  match _sentence_spans self with
  | None =>
      if bool_decide (NoDup sent_spans)
      then Ok {| text := text self; name := name self;
                 s_metadata := s_metadata self; entities := entities self;
                 _sentence_spans := Some sent_spans |}
      else Raise (AssertionError "There are duplicate sentence spans")
  | Some _ => Raise (AttributeError "Immutable sentence_spans is already set")
  end.

(** [@dataclass(unsafe_hash=True) class Document] *)
Record Document : Type := mkDocument {
  idx : string;
  sections : list Section_;
  d_metadata : list (string * json)
}.

(** [Document.get_entities] *)
Definition get_entities (self : Document) : list Entity :=
  concat (entities <$> sections self).

(** ** The JSON converter: writing

    [_json_converter = cattrs.preconf.json.make_converter(omit_if_default=True)]
    with the hooks registered in the module.  A dataclass is written as a
    dictionary: first the fields without a default, in declaration order,
    then each field with a default that differs from it.  Sets and tuples
    are written as arrays, an [Enum] by its value, [MentionConfidence] by
    its name (the registered hook). *)

Definition MentionConfidence_name (c : MentionConfidence) : string :=
  match c with
  | HIGHLY_LIKELY => "HIGHLY_LIKELY"
  | PROBABLE => "PROBABLE"
  | POSSIBLE => "POSSIBLE"
  | IGNORE => "IGNORE"
  end.

Definition StringMatchConfidence_value (c : StringMatchConfidence) : string :=
  match c with
  | SMC_HIGHLY_LIKELY => "HIGHLY_LIKELY"
  | SMC_PROBABLE => "PROBABLE"
  | SMC_POSSIBLE => "POSSIBLE"
  end.

Definition DisambiguationConfidence_value (c : DisambiguationConfidence) : string :=
  match c with
  | DC_HIGHLY_LIKELY => "HIGHLY_LIKELY"
  | DC_PROBABLE => "PROBABLE"
  | DC_POSSIBLE => "POSSIBLE"
  | DC_AMBIGUOUS => "AMBIGUOUS"
  end.

Definition EquivalentIdAggregationStrategy_value
    (a : EquivalentIdAggregationStrategy) : string :=
  match a with
  | NO_STRATEGY => "NO_STRATEGY"
  | RESOLVED_BY_SIMILARITY => "RESOLVED_BY_SIMILARITY"
  | SYNONYM_IS_AMBIGUOUS => "SYNONYM_IS_AMBIGUOUS"
  | CUSTOM => "CUSTOM"
  | UNAMBIGUOUS => "UNAMBIGUOUS"
  | MERGED_AS_NON_SYMBOLIC => "MERGED_AS_NON_SYMBOLIC"
  | MODIFIED_BY_CURATION => "MODIFIED_BY_CURATION"
  | RESOLVED_BY_XREF => "RESOLVED_BY_XREF"
  end.

(** [if instance.attr != default: res[key] = value] *)
Definition omit_if_default (is_default : bool) (key : string) (value : json) :
    list (string * json) :=
  if is_default then [] else [(key, value)].

Definition is_nil {A : Type} (l : list A) : bool :=
  match l with
  | [] => true
  | _ :: _ => false
  end.

Definition is_None {A : Type} (o : option A) : bool :=
  match o with
  | None => true
  | Some _ => false
  end.

Definition unstructure_str_set (X : gset string) : json :=
  JList (JStr <$> elements X).

Definition unstructure_CharSpan (v : CharSpan) : json :=
  JDict [("start", JInt (cs_start v)); ("end", JInt (cs_end v))].

Definition unstructure_EquivalentIdSet (v : EquivalentIdSet) : json :=
  JDict (omit_if_default (is_nil (elements (ids_and_source v))) "ids_and_source"
           (JList ((λ p, JList [JStr p.1; JStr p.2])
                     <$> elements (ids_and_source v)))).

Definition unstructure_Mapping (v : Mapping) : json :=
  JDict ([("default_label", JStr (default_label v));
          ("source", JStr (source v));
          ("parser_name", JStr (mp_parser_name v));
          ("idx", JStr (mp_idx v));
          ("string_match_strategy", JStr (string_match_strategy v));
          ("string_match_confidence",
           JStr (StringMatchConfidence_value (string_match_confidence v)))]
         ++ omit_if_default (is_None (disambiguation_confidence v))
              "disambiguation_confidence"
              (from_option (λ c, JStr (DisambiguationConfidence_value c)) JNull
                 (disambiguation_confidence v))
         ++ omit_if_default (is_None (disambiguation_strategy v))
              "disambiguation_strategy"
              (from_option JStr JNull (disambiguation_strategy v))
         ++ omit_if_default (is_None (xref_source_parser_name v))
              "xref_source_parser_name"
              (from_option JStr JNull (xref_source_parser_name v))
         ++ omit_if_default (is_nil (mp_metadata v))
              "metadata" (JDict (mp_metadata v))).

Definition unstructure_SynonymTermWithMetrics (v : SynonymTermWithMetrics) : json :=
  JDict ([("terms", unstructure_str_set (terms v));
          ("term_norm", JStr (term_norm v));
          ("parser_name", JStr (parser_name v));
          ("is_symbolic", JBool (is_symbolic v));
          ("associated_id_sets",
           JList (unstructure_EquivalentIdSet <$> elements (associated_id_sets v)));
          ("aggregated_by",
           JStr (EquivalentIdAggregationStrategy_value (aggregated_by v)))]
         ++ omit_if_default (is_nil (elements (mapping_types v)))
              "mapping_types" (unstructure_str_set (mapping_types v))
         ++ omit_if_default (is_None (search_score v))
              "search_score" (from_option JFloat JNull (search_score v))
         ++ omit_if_default (is_None (embed_score v))
              "embed_score" (from_option JFloat JNull (embed_score v))
         ++ omit_if_default (is_None (bool_score v))
              "bool_score" (from_option JFloat JNull (bool_score v))
         ++ omit_if_default (is_None (exact_match v))
              "exact_match" (from_option JBool JNull (exact_match v))).

(** The hook registered for [Entity]: [syn_term_to_synonym_terms] is written
    as [synonym_terms], the list of the store's values; the [init=False]
    fields [start], [end] and [match_norm] are written too. *)
Definition unstructure_Entity (v : Entity) : json :=
  JDict ([("match", JStr (e_match v));
          ("entity_class", JStr (entity_class v));
          ("spans", JList (unstructure_CharSpan <$> elements (spans v)));
          ("namespace", JStr (namespace v));
          ("start", JInt (e_start v));
          ("end", JInt (e_end v));
          ("match_norm", JStr (match_norm v))]
         ++ omit_if_default
              (bool_decide (mention_confidence v = HIGHLY_LIKELY))
              "mention_confidence"
              (JStr (MentionConfidence_name (mention_confidence v)))
         ++ omit_if_default (is_nil (mappings v))
              "mappings" (JList (unstructure_Mapping <$> mappings v))
         ++ omit_if_default (is_nil (e_metadata v))
              "metadata" (JDict (e_metadata v))
         ++ omit_if_default (is_nil (syn_term_to_synonym_terms v))
              "synonym_terms"
              (JList (unstructure_SynonymTermWithMetrics
                        <$> dict_values (syn_term_to_synonym_terms v)))).

(** The hook registered for [Section]: [_sentence_spans] is written as
    [sentence_spans], unless it is [None]. *)
Definition unstructure_Section (v : Section_) : json :=
  JDict ([("text", JStr (text v));
          ("name", JStr (name v))]
         ++ omit_if_default (is_nil (s_metadata v))
              "metadata" (JDict (s_metadata v))
         ++ omit_if_default (is_nil (entities v))
              "entities" (JList (unstructure_Entity <$> entities v))
         ++ omit_if_default (is_None (_sentence_spans v))
              "sentence_spans"
              (JList (unstructure_CharSpan <$> sentence_spans v))).

(** [Document]: the default of [idx] is a fresh [uuid4], which the stored
    identifier differs from, so [idx] is always written. *)
Definition unstructure_Document (v : Document) : json :=
  JDict ([("idx", JStr (idx v))]
         ++ omit_if_default (is_nil (sections v))
              "sections" (JList (unstructure_Section <$> sections v))
         ++ omit_if_default (is_nil (d_metadata v))
              "metadata" (JDict (d_metadata v))).

(** ** Operations of a JSON dictionary that the module uses *)

(** [j[key]] with a string key *)
Definition subscript (j : json) (key : string) : result json :=
  match j with
  | JDict kvs =>
      match dict_get String.eqb kvs key with
      | Some v => Ok v
      | None => Raise (KeyError key)
      end
  | _ => Raise (TypeError "indices must be integers, not str")
  end.

(** [j[key] = value] *)
Definition set_item (j : json) (key : string) (value : json) : result json :=
  match j with
  | JDict kvs => Ok (JDict (dict_set String.eqb kvs key value))
  | _ => Raise (TypeError "object does not support item assignment")
  end.

(** [for x in j] *)
Definition iterate (j : json) : result (list json) :=
  match j with
  | JList xs => Ok xs
  | JDict kvs => Ok (JStr <$> kvs.*1)
  | JStr s => Ok ((λ c, JStr (String c EmptyString)) <$> list_ascii_of_string s)
  | _ => Raise (TypeError "object is not iterable")
  end.

(** Truth value of a JSON value. *)
Definition truthy (j : json) : bool :=
  match j with
  | JNull => false
  | JBool b => b
  | JInt n => negb (n =? 0)
  | JFloat (S754_zero _) => false
  | JFloat _ => true
  | JStr s => negb (String.eqb s "")
  | JList xs => negb (is_nil xs)
  | JDict kvs => negb (is_nil kvs)
  end.

(** [j.clear()] *)
Definition clear (j : json) : result json :=
  match j with
  | JList _ => Ok (JList [])
  | JDict _ => Ok (JDict [])
  | _ => Raise (AttributeError "object has no attribute clear")
  end.

(** [filter(f, xs)] for an [f] that may raise *)
Fixpoint rfilter {A : Type} (f : A → result bool) (xs : list A) : result (list A) :=
  match xs with
  | [] => Ok []
  | x :: xs' =>
      b ← f x; ys ← rfilter f xs'; Ok (if b : bool then x :: ys else ys)
  end.

(** ** DocumentJsonUtils.minify_json_dict *)

(** [ent["synonym_terms"].clear()] *)
Definition clear_synonym_terms (ent : json) : result json :=
  synonym_terms ← subscript ent "synonym_terms";
  cleared ← clear synonym_terms;
  set_item ent "synonym_terms" cleared.

(** The body of the loop over [doc_json_dict["sections"]]. *)
Definition minify_section (drop_unmapped_ents drop_terms : bool)
    (section_dict : json) : result json :=
  section_entities ← subscript section_dict "entities";
  all_ents ← iterate section_entities;
  ents_to_keep ←
    (if drop_unmapped_ents
     then rfilter (λ _ent, m ← subscript _ent "mappings"; Ok (truthy m)) all_ents
     else Ok all_ents);
  ents_to_keep ←
    (if drop_terms then rmap clear_synonym_terms ents_to_keep
     else Ok ents_to_keep);
  set_item section_dict "entities" (JList ents_to_keep).

(** [DocumentJsonUtils.minify_json_dict].  The dictionary is changed in
    place (or a deep copy of it is); the function returns it. *)
Definition minify_json_dict (doc_json_dict : json)
    (drop_unmapped_ents drop_terms : bool) : result json :=
  if drop_unmapped_ents || drop_terms then
    doc_sections ← subscript doc_json_dict "sections";
    match doc_sections with
    | JList section_dicts =>
        minified ← rmap (minify_section drop_unmapped_ents drop_terms) section_dicts;
        set_item doc_json_dict "sections" (JList minified)
    | _ =>
        section_dicts ← iterate doc_sections;
        _ ← rmap (minify_section drop_unmapped_ents drop_terms) section_dicts;
        Ok doc_json_dict
    end
  else Ok doc_json_dict.

(** [Document.as_minified_dict] *)
Definition as_minified_dict (self : Document)
    (drop_unmapped_ents drop_terms : bool) : result json :=
  minify_json_dict (unstructure_Document self) drop_unmapped_ents drop_terms.

(** JSON text is represented by the value it denotes: [json.dumps] and
    [json.loads] are the two directions of that reading. *)
Definition json_dumps (j : json) : json := j.
Definition json_loads (text : json) : json := text.

(** [Document.to_json] *)
Definition to_json (self : Document) (drop_unmapped_ents drop_terms : bool) :
    result json :=
  as_dict ← as_minified_dict self drop_unmapped_ents drop_terms;
  Ok (json_dumps as_dict).

(** ** The JSON converter: reading

    A dataclass is read from a dictionary: a field without a default must
    be present ([KeyError] otherwise), a field with a default is read when
    its key is present, other keys are ignored.  The converter's hooks for
    [str], [int], [float] and [bool] coerce their argument; on a value of
    the JSON kind that was written they are the identity, and that is the
    case modelled: another kind raises here. *)

Definition as_obj (j : json) : result (list (string * json)) :=
  match j with
  | JDict kvs => Ok kvs
  | _ => Raise (TypeError "expected an object")
  end.

Definition as_list (j : json) : result (list json) :=
  match j with
  | JList xs => Ok xs
  | _ => Raise (TypeError "expected an array")
  end.

Definition as_str (j : json) : result string :=
  match j with
  | JStr s => Ok s
  | _ => Raise (TypeError "expected a string")
  end.

Definition as_int (j : json) : result Z :=
  match j with
  | JInt n => Ok n
  | _ => Raise (TypeError "expected an integer")
  end.

Definition as_bool (j : json) : result bool :=
  match j with
  | JBool b => Ok b
  | _ => Raise (TypeError "expected a boolean")
  end.

Definition as_float (j : json) : result float :=
  match j with
  | JFloat x => Ok x
  | _ => Raise (TypeError "expected a number")
  end.

(** [Optional[T]]: [None] is read as [None]. *)
Definition as_optional {A : Type} (parse : json → result A) (j : json) :
    result (option A) :=
  match j with
  | JNull => Ok None
  | _ => a ← parse j; Ok (Some a)
  end.

(** [o[key]] for a field without a default *)
Definition required {A : Type} (o : list (string * json)) (key : string)
    (parse : json → result A) : result A :=
  match dict_get String.eqb o key with
  | Some v => parse v
  | None => Raise (KeyError key)
  end.

(** [if key in o: ...] for a field with a default *)
Definition defaulted {A : Type} (o : list (string * json)) (key : string)
    (parse : json → result A) (default : A) : result A :=
  match dict_get String.eqb o key with
  | Some v => parse v
  | None => Ok default
  end.

(** [MentionConfidence[v]], the registered hook *)
Definition structure_MentionConfidence (j : json) : result MentionConfidence :=
  v ← as_str j;
  if String.eqb v "HIGHLY_LIKELY" then Ok HIGHLY_LIKELY
  else if String.eqb v "PROBABLE" then Ok PROBABLE
  else if String.eqb v "POSSIBLE" then Ok POSSIBLE
  else if String.eqb v "IGNORE" then Ok IGNORE
  else Raise (KeyError v).

(** [StringMatchConfidence(v)] *)
Definition structure_StringMatchConfidence (j : json) :
    result StringMatchConfidence :=
  v ← as_str j;
  if String.eqb v "HIGHLY_LIKELY" then Ok SMC_HIGHLY_LIKELY
  else if String.eqb v "PROBABLE" then Ok SMC_PROBABLE
  else if String.eqb v "POSSIBLE" then Ok SMC_POSSIBLE
  else Raise (ValueError "not a valid StringMatchConfidence").

(** [DisambiguationConfidence(v)] *)
Definition structure_DisambiguationConfidence (j : json) :
    result DisambiguationConfidence :=
  v ← as_str j;
  if String.eqb v "HIGHLY_LIKELY" then Ok DC_HIGHLY_LIKELY
  else if String.eqb v "PROBABLE" then Ok DC_PROBABLE
  else if String.eqb v "POSSIBLE" then Ok DC_POSSIBLE
  else if String.eqb v "AMBIGUOUS" then Ok DC_AMBIGUOUS
  else Raise (ValueError "not a valid DisambiguationConfidence").

(** [EquivalentIdAggregationStrategy(v)] *)
Definition structure_EquivalentIdAggregationStrategy (j : json) :
    result EquivalentIdAggregationStrategy :=
  v ← as_str j;
  if String.eqb v "NO_STRATEGY" then Ok NO_STRATEGY
  else if String.eqb v "RESOLVED_BY_SIMILARITY" then Ok RESOLVED_BY_SIMILARITY
  else if String.eqb v "SYNONYM_IS_AMBIGUOUS" then Ok SYNONYM_IS_AMBIGUOUS
  else if String.eqb v "CUSTOM" then Ok CUSTOM
  else if String.eqb v "UNAMBIGUOUS" then Ok UNAMBIGUOUS
  else if String.eqb v "MERGED_AS_NON_SYMBOLIC" then Ok MERGED_AS_NON_SYMBOLIC
  else if String.eqb v "MODIFIED_BY_CURATION" then Ok MODIFIED_BY_CURATION
  else if String.eqb v "RESOLVED_BY_XREF" then Ok RESOLVED_BY_XREF
  else Raise (ValueError "not a valid EquivalentIdAggregationStrategy").

Definition structure_str_set (j : json) : result (gset string) :=
  xs ← as_list j; ss ← rmap as_str xs; Ok (list_to_set ss).

Definition structure_CharSpan (j : json) : result CharSpan :=
  o ← as_obj j;
  start ← required o "start" as_int;
  end_ ← required o "end" as_int;
  Ok (mkCharSpan start end_).

Definition structure_CharSpan_set (j : json) : result (gset CharSpan) :=
  xs ← as_list j; cs ← rmap structure_CharSpan xs; Ok (list_to_set cs).

(** [tuple[str, str]] *)
Definition structure_str_pair (j : json) : result (string * string) :=
  match j with
  | JList [a; b] => x ← as_str a; y ← as_str b; Ok (x, y)
  | _ => Raise (ValueError "not enough values to unpack")
  end.

Definition structure_EquivalentIdSet (j : json) : result EquivalentIdSet :=
  o ← as_obj j;
  ids ← defaulted o "ids_and_source"
          (λ v, xs ← as_list v; ps ← rmap structure_str_pair xs;
                Ok (list_to_set ps))
          ∅;
  Ok (mkEquivalentIdSet ids).

Definition structure_AssociatedIdSets (j : json) : result AssociatedIdSets :=
  xs ← as_list j; ss ← rmap structure_EquivalentIdSet xs; Ok (list_to_set ss).

Definition structure_Mapping (j : json) : result Mapping :=
  o ← as_obj j;
  default_label ← required o "default_label" as_str;
  source ← required o "source" as_str;
  parser_name ← required o "parser_name" as_str;
  idx ← required o "idx" as_str;
  string_match_strategy ← required o "string_match_strategy" as_str;
  string_match_confidence ←
    required o "string_match_confidence" structure_StringMatchConfidence;
  disambiguation_confidence ←
    defaulted o "disambiguation_confidence"
      (as_optional structure_DisambiguationConfidence) None;
  disambiguation_strategy ←
    defaulted o "disambiguation_strategy" (as_optional as_str) None;
  xref_source_parser_name ←
    defaulted o "xref_source_parser_name" (as_optional as_str) None;
  metadata ← defaulted o "metadata" as_obj [];
  Ok (mkMapping default_label source parser_name idx string_match_strategy
        string_match_confidence disambiguation_confidence
        disambiguation_strategy xref_source_parser_name metadata).

(** [set[Mapping]] *)
Definition structure_Mapping_set (j : json) : result (list Mapping) :=
  xs ← as_list j; ms ← rmap structure_Mapping xs; Ok (remove_dups ms).

Definition structure_SynonymTermWithMetrics (j : json) :
    result SynonymTermWithMetrics :=
  o ← as_obj j;
  terms ← required o "terms" structure_str_set;
  term_norm ← required o "term_norm" as_str;
  parser_name ← required o "parser_name" as_str;
  is_symbolic ← required o "is_symbolic" as_bool;
  associated_id_sets ← required o "associated_id_sets" structure_AssociatedIdSets;
  aggregated_by ←
    required o "aggregated_by" structure_EquivalentIdAggregationStrategy;
  mapping_types ← defaulted o "mapping_types" structure_str_set ∅;
  search_score ← defaulted o "search_score" (as_optional as_float) None;
  embed_score ← defaulted o "embed_score" (as_optional as_float) None;
  bool_score ← defaulted o "bool_score" (as_optional as_float) None;
  exact_match ← defaulted o "exact_match" (as_optional as_bool) None;
  Ok (mkSynonymTermWithMetrics terms term_norm parser_name is_symbolic
        associated_id_sets aggregated_by mapping_types search_score
        embed_score bool_score exact_match).

(** [_syn_term_to_synonym_terms_struct_hook]:
    [return {st: st for st in syn_terms}] *)
Definition _syn_term_to_synonym_terms_struct_hook (j : json) :
    result (list (SynonymTermWithMetrics * SynonymTermWithMetrics)) :=
  synonym_terms ← as_list j;
  syn_terms ← rmap structure_SynonymTermWithMetrics synonym_terms;
  Ok (foldl (λ d st, dict_set SynonymTermWithMetrics_eq d st st) [] syn_terms).

(** ** Object creation

    Creating an [Entity] makes a new object, whose [id] is unlike that of
    every object made before: object creation threads the next free
    identity. *)

Definition alloc (A : Type) : Type := positive → result (A * positive).

#[global] Instance alloc_bind : MBind alloc :=
  λ A B k m next, match m next with
                  | Ok (a, next') => k a next'
                  | Raise e => Raise e
                  end.

#[global] Instance alloc_ret : MRet alloc := λ A a next, Ok (a, next).

(** A computation that creates no object. *)
Definition pure_step {A : Type} (r : result A) : alloc A :=
  λ next, match r with
          | Ok a => Ok (a, next)
          | Raise e => Raise e
          end.

(** The identity of a new object. *)
Definition new_id : alloc positive := λ next, Ok (next, Pos.succ next).

Fixpoint amap {A B : Type} (f : A → alloc B) (xs : list A) : alloc (list B) :=
  match xs with
  | [] => mret []
  | x :: xs' => y ← f x; ys ← amap f xs'; mret (y :: ys)
  end.

Section with_environment.

(** [StringNormalizer.normalize(match, entity_class)], of
    [kazu.utils.string_normalizer]: a pure function of its two arguments. *)
Variable normalize : string → string → string.

(** [uuid.uuid4().hex], by the identity counter at the time of the call. *)
Variable uuid4_hex : positive → string.

(** [Entity(...)]: the generated [__init__] stores its arguments and calls
    [__post_init__], which sets [start], [end] and [match_norm]. *)
Definition Entity_init (id : positive) (match_ entity_class : string)
    (spans : gset CharSpan) (namespace : string)
    (mention_confidence : MentionConfidence) (mappings : list Mapping)
    (metadata : list (string * json))
    (syn_term_to_synonym_terms :
       list (SynonymTermWithMetrics * SynonymTermWithMetrics)) :
    result Entity :=
  '(start, end_) ← calc_starts_and_ends spans;
  Ok (mkEntity id match_ entity_class spans namespace mention_confidence
        mappings metadata start end_ (normalize match_ entity_class)
        syn_term_to_synonym_terms).

(** [Entity.load_contiguous_entity] *)
Definition load_contiguous_entity (id : positive) (start end_ : Z)
    (match_ entity_class namespace : string) : result Entity :=
  Entity_init id match_ entity_class {[ mkCharSpan start end_ ]} namespace
    HIGHLY_LIKELY [] [] [].

(** The structure hook registered for [Entity]; [start], [end] and
    [match_norm] are not read ([init=False]). *)
Definition structure_Entity (j : json) : alloc Entity :=
  o ← pure_step (as_obj j);
  match_ ← pure_step (required o "match" as_str);
  entity_class ← pure_step (required o "entity_class" as_str);
  spans ← pure_step (required o "spans" structure_CharSpan_set);
  namespace ← pure_step (required o "namespace" as_str);
  mention_confidence ←
    pure_step (defaulted o "mention_confidence" structure_MentionConfidence
                 HIGHLY_LIKELY);
  mappings ← pure_step (defaulted o "mappings" structure_Mapping_set []);
  metadata ← pure_step (defaulted o "metadata" as_obj []);
  syn_terms ←
    pure_step (defaulted o "synonym_terms"
                 _syn_term_to_synonym_terms_struct_hook []);
  id ← new_id;
  pure_step (Entity_init id match_ entity_class spans namespace
               mention_confidence mappings metadata syn_terms).

(** The hook of [sentence_spans]:
    [None if len(v) == 0 else tuple(structure(x, CharSpan) for x in v)] *)
Definition structure_sentence_spans (j : json) : result (option (list CharSpan)) :=
  v ← as_list j;
  if is_nil v then Ok None
  else cs ← rmap structure_CharSpan v; Ok (Some cs).

(** The structure hook registered for [Section]. *)
Definition structure_Section (j : json) : alloc Section_ :=
  o ← pure_step (as_obj j);
  text ← pure_step (required o "text" as_str);
  name ← pure_step (required o "name" as_str);
  metadata ← pure_step (defaulted o "metadata" as_obj []);
  entities ←
    match dict_get String.eqb o "entities" with
    | Some v => xs ← pure_step (as_list v); amap structure_Entity xs
    | None => mret []
    end;
  _sentence_spans ←
    pure_step (defaulted o "sentence_spans" structure_sentence_spans None);
  mret (mkSection text name metadata entities _sentence_spans).

(** [_json_converter.structure(document_dict, Document)] *)
Definition structure_Document (j : json) : alloc Document :=
  o ← pure_step (as_obj j);
  idx ←
    match dict_get String.eqb o "idx" with
    | Some v => pure_step (as_str v)
    | None => id ← new_id; mret (uuid4_hex id)
    end;
  sections ←
    match dict_get String.eqb o "sections" with
    | Some v => xs ← pure_step (as_list v); amap structure_Section xs
    | None => mret []
    end;
  metadata ← pure_step (defaulted o "metadata" as_obj []);
  mret (mkDocument idx sections metadata).

(** [Document.from_dict] *)
Definition from_dict (document_dict : json) : alloc Document :=
  structure_Document document_dict.

(** [Document.from_json] *)
Definition from_json (json_str : json) : alloc Document :=
  from_dict (json_loads json_str).

End with_environment.

(** ** CuratedTerm *)

#[global] Instance MentionConfidence_countable : Countable MentionConfidence.
Proof.
  refine (inj_countable'
            (λ c, match c with
                  | HIGHLY_LIKELY => 0%nat
                  | PROBABLE => 1%nat
                  | POSSIBLE => 2%nat
                  | IGNORE => 3%nat
                  end)
            (λ n, match n with
                  | 0%nat => HIGHLY_LIKELY
                  | 1%nat => PROBABLE
                  | 2%nat => POSSIBLE
                  | _ => IGNORE
                  end) _).
  by intros [].
Defined.

(** [@dataclass(frozen=True) class MentionForm] *)
Record MentionForm : Type := mkMentionForm {
  mf_string : string;
  case_sensitive : bool;
  mf_mention_confidence : MentionConfidence
}.

#[global] Instance MentionForm_eq_dec : EqDecision MentionForm.
Proof. solve_decision. Defined.

#[global] Instance MentionForm_countable : Countable MentionForm.
Proof.
  refine (inj_countable'
            (λ f, (mf_string f, case_sensitive f, mf_mention_confidence f))
            (λ t, mkMentionForm t.1.1 t.1.2 t.2) _).
  by intros [].
Defined.

(** [@dataclass(frozen=True) class CuratedTerm] *)
Record CuratedTerm : Type := mkCuratedTerm {
  original_forms : gset MentionForm;
  behaviour : CuratedTermBehaviour;
  alternative_forms : gset MentionForm;
  ct_associated_id_sets : option AssociatedIdSets;
  _id : Z;
  autocuration_results : option (list (string * string));
  comment : option string
}.

(** [str.lower], on the letters [A] to [Z]. *)
Definition ascii_lower (c : ascii) : ascii :=
  let n := nat_of_ascii c in
  if ((65 <=? n) && (n <=? 90))%nat then ascii_of_nat (n + 32) else c.

Fixpoint lower (s : string) : string :=
  match s with
  | EmptyString => EmptyString
  | String c s' => String (ascii_lower c) (lower s')
  end.

(** [CuratedTerm.all_forms] *)
Definition all_forms (self : CuratedTerm) : list MentionForm :=
  elements (original_forms self ∪ alternative_forms self).

(** [CuratedTerm.all_strings] *)
Definition all_strings (self : CuratedTerm) : list string :=
  mf_string <$> all_forms self.

(** [CuratedTerm.active_ner_forms] *)
Definition active_ner_forms (self : CuratedTerm) : list MentionForm :=
  if decide (behaviour self = ADD_FOR_NER_AND_LINKING)
  then filter (λ form, mf_mention_confidence form ≠ IGNORE)
              (elements (original_forms self ∪ alternative_forms self))
  else [].

(** [forms[key].add(confidence)] on a [defaultdict(set)] *)
Definition add_confidence (forms : gmap string (gset MentionConfidence))
    (key : string) (confidence : MentionConfidence) :
    gmap string (gset MentionConfidence) :=
  <[key := default ∅ (forms !! key) ∪ {[confidence]}]> forms.

(** The body of the first loop of [__post_init__], on
    [(cs_forms, ci_forms)]. *)
Definition collect_form
    (acc : gmap string (gset MentionConfidence)
           * gmap string (gset MentionConfidence))
    (form : MentionForm) :
    gmap string (gset MentionConfidence) * gmap string (gset MentionConfidence) :=
  let '(cs_forms, ci_forms) := acc in
  if case_sensitive form
  then (add_confidence cs_forms (mf_string form) (mf_mention_confidence form),
        ci_forms)
  else (cs_forms,
        add_confidence ci_forms (lower (mf_string form))
                       (mf_mention_confidence form)).

(** [min(confidences)], as the integer of the member found. *)
Definition min_confidence (confidences : gset MentionConfidence) : result Z :=
  match MentionConfidence_value <$> elements confidences with
  | [] => Raise (ValueError "min() arg is an empty sequence")
  | v :: vs => Ok (foldl Z.min v vs)
  end.

(** The body of the second loop of [__post_init__]; the names are the
    source's. *)
Definition check_form (ci_forms : gmap string (gset MentionConfidence))
    (item : string * gset MentionConfidence) : result () :=
  let '(cs_form, cs_confidences) := item in
  let ci_confidences := default {[POSSIBLE]} (ci_forms !! lower cs_form) in
  a ← min_confidence ci_confidences;
  b ← min_confidence cs_confidences;
  if a <? b then Raise (RuntimeError "case sensitive conflict") else Ok ().

(** [CuratedTerm.__post_init__] *)
Definition CuratedTerm_post_init (self : CuratedTerm) : result () :=
  if bool_decide (size (original_forms self) = 0%nat)
  then Raise (ValueError "no forms")
  else
    let '(cs_forms, ci_forms) :=
      foldl collect_form (∅, ∅) (active_ner_forms self) in
    _ ← rmap (check_form ci_forms) (map_to_list ci_forms);
    Ok ().

(** ** Strings

    A [str] is the list of its characters; the operations below are the
    ones the module applies to strings. *)

(** [len(s)] *)
Definition py_len (s : string) : Z := Z.of_nat (String.length s).

(** What a slice bound denotes in a sequence of length [len]: a negative
    bound counts from the end, and the result is clipped to [0, len]. *)
Definition slice_bound (len i : Z) : Z :=
  if i <? 0 then Z.max (i + len) 0 else Z.min i len.

(** [s[start:stop]] *)
Definition py_slice (s : string) (start stop : Z) : string :=
  let chars := list_ascii_of_string s in
  let lo := slice_bound (py_len s) start in
  let hi := slice_bound (py_len s) stop in
  string_of_list_ascii (take (Z.to_nat (hi - lo)) (drop (Z.to_nat lo) chars)).

(** [sep.join(pieces)] *)
Fixpoint str_join (sep : string) (pieces : list string) : string :=
  match pieces with
  | [] => ""
  | [piece] => piece
  | piece :: rest => piece +:+ sep +:+ str_join sep rest
  end.

(** ** Further constructors and methods of Entity, Section and Document *)

(** [Entity.add_mapping]: [self.mappings.add(mapping)] *)
Definition add_mapping (self : Entity) (mapping : Mapping) : Entity :=
  mkEntity (obj_id self) (e_match self) (entity_class self) (spans self)
           (namespace self) (mention_confidence self)
           (if decide (mapping ∈ mappings self) then mappings self
            else mappings self ++ [mapping])
           (e_metadata self) (e_start self) (e_end self) (match_norm self)
           (syn_term_to_synonym_terms self).

(** [Document.__len__] *)
Definition Document_len (self : Document) : Z :=
  foldr Z.add 0 ((λ section, py_len (text section)) <$> sections self).

(** The body of the loop of [simple_document_from_sents], on
    [(sent_spans, curr_start)]. *)
Definition sent_spans_step (acc : list CharSpan * Z) (sent : string) :
    list CharSpan * Z :=
  let '(sent_spans, curr_start) := acc in
  (sent_spans ++ [mkCharSpan curr_start (curr_start + py_len sent)],
   curr_start + py_len sent + 1).

Section constructors.

Variable normalize : string → string → string.
Variable uuid4_hex : positive → string.

(** [Entity.from_spans], with the keyword arguments [entity_class] and
    [namespace]. *)
Definition from_spans (id : positive) (span_list : list (Z * Z))
    (text_ join_str entity_class namespace : string) : result Entity :=
  let text_pieces := (λ p, py_slice text_ p.1 p.2) <$> span_list in
  let char_spans := (λ p, mkCharSpan p.1 p.2) <$> span_list in
  Entity_init normalize id (str_join join_str text_pieces) entity_class
    (list_to_set char_spans) namespace HIGHLY_LIKELY [] [] [].

(** [Document.create_simple_document] *)
Definition create_simple_document (text_ : string) : alloc Document :=
  id ← new_id;
  mret (mkDocument (uuid4_hex id) [mkSection text_ "na" [] [] None] []).

(** [Document.simple_document_from_sents] *)
Definition simple_document_from_sents (sents : list string) : alloc Document :=
  let section := mkSection (str_join " " sents) "na" [] [] None in
  let sent_spans := (foldl sent_spans_step ([], 0) sents).1 in
  section ← pure_step (set_sentence_spans section sent_spans);
  id ← new_id;
  mret (mkDocument (uuid4_hex id) [section] []).

(** [Document.from_named_section_texts], the dictionary given by its items
    in order. *)
Definition from_named_section_texts (named_sections : list (string * string)) :
    alloc Document :=
  id ← new_id;
  mret (mkDocument (uuid4_hex id)
          ((λ item, mkSection item.2 item.1 [] [] None) <$> named_sections) []).

(** [Mapping.from_dict], [SynonymTermWithMetrics.from_dict],
    [Entity.from_dict] and [Section.from_dict] *)
Definition Mapping_from_dict (mapping_dict : json) : result Mapping :=
  structure_Mapping mapping_dict.
Definition SynonymTermWithMetrics_from_dict (term_dict : json) :
    result SynonymTermWithMetrics :=
  structure_SynonymTermWithMetrics term_dict.
Definition Entity_from_dict (entity_dict : json) : alloc Entity :=
  structure_Entity normalize entity_dict.
Definition Section_from_dict (section_dict : json) : alloc Section_ :=
  structure_Section normalize section_dict.

(** [CuratedTerm.term_norm_for_linking] *)
Definition term_norm_for_linking (self : CuratedTerm) (entity_class : string) :
    result string :=
  let norms : gset string :=
    set_map (λ form, normalize (mf_string form) entity_class)
            (original_forms self) in
  match elements norms with
  | [term_norm] => Ok term_norm
  | _ => Raise (RuntimeError "multiple term norms produced")
  end.

End constructors.

(** [CuratedTerm.additional_to_source] *)
Definition additional_to_source (self : CuratedTerm) : bool :=
  negb (is_None (ct_associated_id_sets self))
  && (bool_decide (behaviour self = ADD_FOR_NER_AND_LINKING)
      || bool_decide (behaviour self = ADD_FOR_LINKING_ONLY)).

(** ** ParserAction and GlobalParserActions *)

(** [class ParserBehaviour(AutoNameEnum)] *)
Inductive ParserBehaviour : Type :=
| DROP_IDS_FROM_PARSER.

(** [@dataclass(frozen=True) class ParserAction] *)
Record ParserAction : Type := mkParserAction {
  pa_behaviour : ParserBehaviour;
  parser_to_target_id_mappings : gmap string (gset string)
}.

(** [ParserAction.__post_init__] *)
Definition ParserAction_post_init (self : ParserAction) : result () :=
  if bool_decide (size (parser_to_target_id_mappings self) = 0%nat)
  then Raise (ValueError "parser_to_target_id_mappings must be specified for global actions")
  else
    _ ← rmap (λ item : string * gset string,
                if bool_decide (size item.2 = 0%nat)
                then Raise (ValueError "at least one ID must be specified for key")
                else Ok ())
             (map_to_list (parser_to_target_id_mappings self));
    Ok ().

(** [self._parser_name_to_action[parser_name].append(action)] on a
    [defaultdict(list)] *)
Definition append_action (index : gmap string (list ParserAction))
    (action : ParserAction) (parser_name : string) :
    gmap string (list ParserAction) :=
  <[parser_name := default [] (index !! parser_name) ++ [action]]> index.

(** [@dataclass(frozen=True) class GlobalParserActions] *)
Record GlobalParserActions : Type := mkGlobalParserActions {
  actions : list ParserAction;
  _parser_name_to_action : gmap string (list ParserAction)
}.

(** [GlobalParserActions(actions)]: [__post_init__] fills the index. *)
Definition GlobalParserActions_init (actions : list ParserAction) :
    GlobalParserActions :=
  mkGlobalParserActions actions
    (foldl (λ index action,
              foldl (λ index parser_name, append_action index action parser_name)
                    index
                    (map_to_list (parser_to_target_id_mappings action)).*1)
           ∅ actions).

(** [GlobalParserActions.parser_behaviour], as the list it yields *)
Definition parser_behaviour (self : GlobalParserActions) (parser_name : string) :
    list ParserAction :=
  default [] (_parser_name_to_action self !! parser_name).

End data.

(** * kazu/steps/other/cleanup.py *)

Module cleanup.
Import data.

(** [EntityFilterFn = Callable[[Entity], bool]] *)
Definition EntityFilterFn : Type := Entity → bool.

(** [class EntityFilterCleanupAction] *)
Record EntityFilterCleanupAction : Type := mkEntityFilterCleanupAction {
  filter_fns : list EntityFilterFn
}.

(** [EntityFilterCleanupAction.from_filter_fn_providers], each provider
    given by the list its [filter_fns()] returns. *)
Definition from_filter_fn_providers (filter_providers : list (list EntityFilterFn)) :
    EntityFilterCleanupAction :=
  mkEntityFilterCleanupAction (concat filter_providers).

(** [lambda _filtered_ents, filter_fn: filter(filter_fn, _filtered_ents)] *)
Definition filter_combiner (_filtered_ents : gmap positive Entity)
    (filter_fn : EntityFilterFn) : gmap positive Entity :=
  filter (λ kv, filter_fn kv.2 = true) _filtered_ents.

(** The body of the loop of [cleanup], on one section.  [list(section_ents)]
    lists the set in the order it yields its members, which Python leaves
    open; here it is the order of the identities. *)
Definition cleanup_section (self : EntityFilterCleanupAction)
    (section : Section_) : Section_ :=
  let section_ents := Entity_set (entities section) in
  let filtered_ents := foldl filter_combiner section_ents (filter_fns self) in
  let section_ents := section_ents ∖ filtered_ents in
  mkSection (text section) (name section) (s_metadata section)
            (map_to_list section_ents).*2 (_sentence_spans section).

(** [EntityFilterCleanupAction.cleanup] *)
Definition cleanup (self : EntityFilterCleanupAction) (doc : Document) : Document :=
  mkDocument (idx doc) (cleanup_section self <$> sections doc) (d_metadata doc).

(** [class DropUnmappedEntsEntityFilters] *)
Record DropUnmappedEntsEntityFilters : Type := mkDropUnmappedEntsEntityFilters {
  from_ent_namespaces : gset string
}.

(** [DropUnmappedEntsEntityFilters.filter_fns].  The lambdas of the
    comprehension share its variable [ns], which holds the last namespace
    by the time any of them is called. *)
Definition DropUnmappedEntsEntityFilters_filter_fns
    (self : DropUnmappedEntsEntityFilters) : list EntityFilterFn :=
  let namespaces := elements (from_ent_namespaces self) in
  match last namespaces with
  | Some ns =>
      (λ _ ent, bool_decide (namespace ent = ns) && is_nil (mappings ent))
        <$> namespaces
  | None => []
  end.

(** [CleanupAction]: an object with a [cleanup(doc)] method, which changes
    the document in place and may raise; it is given by the document it
    leaves and the exception it raised, if any. *)
Definition CleanupAction : Type := Document → Document * option exn.

(** An [EntityFilterCleanupAction] as a [CleanupAction]. *)
Definition as_CleanupAction (action : EntityFilterCleanupAction) : CleanupAction :=
  λ doc, (cleanup action doc, None).

(** [for cleanup_action in self.cleanup_actions: cleanup_action.cleanup(doc)],
    up to the first exception. *)
Fixpoint run_cleanup_actions (cleanup_actions : list CleanupAction)
    (doc : Document) : Document * option exn :=
  match cleanup_actions with
  | [] => (doc, None)
  | cleanup_action :: rest =>
      match cleanup_action doc with
      | (doc', None) => run_cleanup_actions rest doc'
      | (doc', Some e) => (doc', Some e)
      end
  end.

(** [PROCESSING_EXCEPTION], the key of [kazu.data.data] *)
Definition PROCESSING_EXCEPTION : string := "PROCESSING_EXCEPTION".

Section cleanup_step.

(** [traceback.format_exc()], of the exception being handled *)
Variable format_exc : exn → string.

(** The body of the loop of [CleanupStep._run]: the document as the loop
    leaves it, and whether it was appended to [failed_docs]. *)
Definition run_document (cleanup_actions : list CleanupAction) (doc : Document) :
    Document * bool :=
  match run_cleanup_actions cleanup_actions doc with
  | (doc', None) => (doc', false)
  | (doc', Some e) =>
      (mkDocument (idx doc') (sections doc')
                  (dict_set String.eqb (d_metadata doc') PROCESSING_EXCEPTION
                            (JStr (format_exc e))),
       true)
  end.

(** [CleanupStep._run], on documents that are distinct objects: the
    documents and the failed documents it returns. *)
Definition CleanupStep_run (cleanup_actions : list CleanupAction)
    (docs : list Document) : list Document * list Document :=
  let results := run_document cleanup_actions <$> docs in
  (results.*1, (List.filter snd results).*1).

End cleanup_step.

End cleanup.

(** * azner/steps/linking/sapbert.py *)

Module sapbert.

Section lookup_cache.

(** [Entity] and [Mapping] of [azner.data.data], and the two helpers of
    [steps.utils.utils] that the step imports: the cache code only passes
    these values on. *)
Variables (Entity Mapping : Type).
Variable get_match_entity_class_hash : Entity → Z.
Variable update_mappings : Entity → Mapping → Entity.

(** ** cachetools.LFUCache, as the step uses it

    The items are kept in a dictionary; a [collections.Counter] holds, for
    each stored key, minus the number of times it was set or read.  Every
    item has size 1. *)
Record LFUCache : Type := mkLFUCache {
  maxsize : Z;
  cache_data : list (Z * Mapping);
  cache_counter : list (Z * Z)
}.

(** [LFUCache(lookup_cache_size)] *)
Definition LFUCache_new (lookup_cache_size : Z) : LFUCache :=
  mkLFUCache lookup_cache_size [] [].

(** [key in cache] *)
Definition cache_contains (cache : LFUCache) (key : Z) : bool :=
  dict_contains Z.eqb (cache_data cache) key.

(** [self.__counter[key] -= 1]; a key the counter lacks counts as 0. *)
Definition counter_decr (counter : list (Z * Z)) (key : Z) : list (Z * Z) :=
  dict_set Z.eqb counter key (default 0 (dict_get Z.eqb counter key) - 1).

(** [cache.get(key, None)]: a hit is counted. *)
Definition cache_get (cache : LFUCache) (key : Z) : option Mapping * LFUCache :=
  match dict_get Z.eqb (cache_data cache) key with
  | Some value =>
      (Some value,
       mkLFUCache (maxsize cache) (cache_data cache)
                  (counter_decr (cache_counter cache) key))
  | None => (None, cache)
  end.

(** [counter.most_common(1)]: the first item of the largest count. *)
Fixpoint most_common (items : list (Z * Z)) : option (Z * Z) :=
  match items with
  | [] => None
  | (key, n) :: rest =>
      match most_common rest with
      | Some (key', n') => if n <? n' then Some (key', n') else Some (key, n)
      | None => Some (key, n)
      end
  end.

(** [LFUCache.popitem]: drop the least frequently used item. *)
Definition popitem (cache : LFUCache) : result LFUCache :=
  match most_common (cache_counter cache) with
  | None => Raise (KeyError "LFUCache is empty")
  | Some (key, _) =>
      if cache_contains cache key
      then Ok (mkLFUCache (maxsize cache)
                          (dict_del Z.eqb (cache_data cache) key)
                          (dict_del Z.eqb (cache_counter cache) key))
      else Raise (KeyError "popitem")
  end.

Fixpoint popitems (n : nat) (cache : LFUCache) : result LFUCache :=
  match n with
  | O => Ok cache
  | S n' => cache' ← popitem cache; popitems n' cache'
  end.

(** [while self.currsize + size > maxsize: self.popitem()]: each [popitem]
    takes one item away, so the loop runs [currsize + 1 - maxsize] times. *)
Definition make_room (cache : LFUCache) : result LFUCache :=
  popitems (Z.to_nat (Z.of_nat (length (cache_data cache)) + 1 - maxsize cache))
           cache.

(** [cache[key] = value] *)
Definition cache_setitem (cache : LFUCache) (key : Z) (value : Mapping) :
    result LFUCache :=
  if maxsize cache <? 1 then Raise (ValueError "value too large")
  else
    cache ← (if cache_contains cache key then Ok cache else make_room cache);
    Ok (mkLFUCache (maxsize cache)
                   (dict_set Z.eqb (cache_data cache) key value)
                   (counter_decr (cache_counter cache) key)).

(** ** The step's two cache functions *)

(** [SapBertForEntityLinkingStep.update_lookup_cache] *)
Definition update_lookup_cache (lookup_cache : LFUCache) (entity : Entity)
    (mapping : Mapping) : result LFUCache :=
  let hash_val := get_match_entity_class_hash entity in
  if negb (cache_contains lookup_cache hash_val)
  then cache_setitem lookup_cache hash_val mapping
  else Ok lookup_cache.

(** The body of the loop of [check_lookup_cache], on the cache, the
    entities as the loop leaves them, and [cache_misses]. *)
Definition check_entity (acc : LFUCache * list Entity * list Entity)
    (ent : Entity) : LFUCache * list Entity * list Entity :=
  let '(lookup_cache, seen, cache_misses) := acc in
  let hash_val := get_match_entity_class_hash ent in
  match cache_get lookup_cache hash_val with
  | (None, lookup_cache) => (lookup_cache, seen ++ [ent], cache_misses ++ [ent])
  | (Some maybe_mapping, lookup_cache) =>
      (lookup_cache, seen ++ [update_mappings ent maybe_mapping], cache_misses)
  end.

(** [SapBertForEntityLinkingStep.check_lookup_cache]: the cache and the
    entities after the call, and the list it returns. *)
Definition check_lookup_cache (lookup_cache : LFUCache) (entities : list Entity) :
    LFUCache * list Entity * list Entity :=
  foldl check_entity (lookup_cache, [], []) entities.

(** What the cache holds for a key. *)
Definition stored (cache : LFUCache) (key : Z) : option Mapping :=
  dict_get Z.eqb (cache_data cache) key.

(** One use of the cache by the step. *)
Inductive cache_op : Type :=
| Update (entity : Entity) (mapping : Mapping)
| Check (entities : list Entity).

Definition run_op (cache : LFUCache) (op : cache_op) : result LFUCache :=
  match op with
  | Update entity mapping => update_lookup_cache cache entity mapping
  | Check entities => Ok (check_lookup_cache cache entities).1.1
  end.

(** The step's uses of the cache, one after the other. *)
Fixpoint run_ops (cache : LFUCache) (ops : list cache_op) : result LFUCache :=
  match ops with
  | [] => Ok cache
  | op :: rest => cache' ← run_op cache op; run_ops cache' rest
  end.

(** The cache holds an entry for [key] before and after each of [ops]. *)
Fixpoint present_throughout (key : Z) (cache : LFUCache) (ops : list cache_op) :
    Prop :=
  is_Some (stored cache key)
  ∧ match ops with
    | [] => True
    | op :: rest =>
        match run_op cache op with
        | Ok cache' => present_throughout key cache' rest
        | Raise _ => True
        end
    end.

End lookup_cache.

Arguments mkLFUCache {Mapping} maxsize cache_data cache_counter.
Arguments maxsize {Mapping} l.
Arguments cache_data {Mapping} l.
Arguments cache_counter {Mapping} l.
Arguments LFUCache_new {Mapping} lookup_cache_size.
Arguments cache_contains {Mapping} cache key.
Arguments cache_get {Mapping} cache key.
Arguments popitem {Mapping} cache.
Arguments popitems {Mapping} n cache.
Arguments make_room {Mapping} cache.
Arguments cache_setitem {Mapping} cache key value.
Arguments stored {Mapping} cache key.
Arguments update_lookup_cache {Entity Mapping} get_match_entity_class_hash
  lookup_cache entity mapping.
Arguments check_entity {Entity Mapping} get_match_entity_class_hash
  update_mappings acc ent.
Arguments check_lookup_cache {Entity Mapping} get_match_entity_class_hash
  update_mappings lookup_cache entities.
Arguments Update {Entity Mapping} entity mapping.
Arguments Check {Entity Mapping} entities.
Arguments run_op {Entity Mapping} get_match_entity_class_hash update_mappings
  cache op.
Arguments run_ops {Entity Mapping} get_match_entity_class_hash update_mappings
  cache ops.
Arguments present_throughout {Entity Mapping} get_match_entity_class_hash
  update_mappings key cache ops.

End sapbert.

(** * kazu/steps/ner/opsin.py *)

Module opsin.
Import data.

(** [BREAKS = " !@#&?|\t\n\r"] *)
Definition BREAKS : list ascii :=
  list_ascii_of_string " !@#&?|"
  ++ [ascii_of_nat 9; ascii_of_nat 10; ascii_of_nat 13].

(** [c in BREAKS], for a character [c] *)
Definition in_BREAKS (c : ascii) : bool := existsb (Ascii.eqb c) BREAKS.

(** The outcome of code that indexes a string. *)
Inductive indexed (A : Type) : Type :=
| Got (a : A)
| IndexError.
Arguments Got {A} a.
Arguments IndexError {A}.

(** [section[i]]: a negative index counts from the end. *)
Definition py_index (section : string) (i : Z) : indexed ascii :=
  let i' := if i <? 0 then i + py_len section else i in
  if (0 <=? i') && (i' <? py_len section) then
    match String.get (Z.to_nat i') section with
    | Some c => Got c
    | None => IndexError
    end
  else IndexError.

(** [while start > 0 and section[start - 1] not in BREAKS: start = start - 1],
    for a positive [start]. *)
Fixpoint extend_start (section : string) (start : nat) : indexed nat :=
  match start with
  | O => Got O
  | S before =>
      match py_index section (Z.of_nat before) with
      | IndexError => IndexError
      | Got c => if in_BREAKS c then Got start else extend_start section before
      end
  end.

(** [while end < len(section) and (section[end] not in BREAKS or spaces > 0)],
    with its body; [remaining] is [len(section) - end], which the body
    lowers by one. *)
Fixpoint extend_end (section : string) (remaining : nat) (end_ spaces : Z) :
    indexed Z :=
  match remaining with
  | O => Got end_
  | S remaining' =>
      match py_index section end_ with
      | IndexError => IndexError
      | Got c =>
          if negb (in_BREAKS c) || (0 <? spaces)
          then extend_end section remaining' (end_ + 1)
                          (if in_BREAKS c then spaces - 1 else spaces)
          else Got end_
      end
  end.

(** [OpsinStep.extendString] *)
Definition extendString (ent : Entity) (section : string) (spaces : Z) :
    indexed (string * Z * Z) :=
  match (if 0 <? e_start ent
         then match extend_start section (Z.to_nat (e_start ent)) with
              | Got start => Got (Z.of_nat start)
              | IndexError => IndexError
              end
         else Got (e_start ent)) with
  | IndexError => IndexError
  | Got start =>
      match extend_end section (Z.to_nat (py_len section - e_end ent))
                       (e_end ent) spaces with
      | IndexError => IndexError
      | Got end_ => Got (py_slice section start end_, start, end_)
      end
  end.

(** What [__call__] can do: return, raise the [IndexError] of
    [extendString], or raise another exception. *)
Inductive outcome (A : Type) : Type :=
| Returned (a : A)
| RaisedIndexError
| Raised (e : exn).
Arguments Returned {A} a.
Arguments RaisedIndexError {A}.
Arguments Raised {A} e.

(** [entities.remove(x)]: drop the first item equal to [x]; [None] stands
    for the [ValueError] of a list that has no such item. *)
Fixpoint entities_remove (x : Entity) (entities : list Entity) : option (list Entity) :=
  match entities with
  | [] => None
  | ent :: rest =>
      if Entity_eq ent x then Some rest
      else match entities_remove x rest with
           | Some rest' => Some (ent :: rest')
           | None => None
           end
  end.

Section opsin_step.

Variable normalize : string → string → string.

(** [Chem.CanonSmiles(self.opsin.nameToStructure(name))]: the answer of the
    JVM for a name; [None] when OPSIN gives no structure or fails. *)
Variable nameToStructure : string → option string.

(** [self.namespace()], [self.entity_class] and [self.condition] *)
Variable self_namespace : string.
Variable self_entity_class : string.
Variable condition : option (Document → bool).

(** [OpsinStep.parseString] *)
Definition parseString (name : string) : option Mapping :=
  match nameToStructure name with
  | Some smiles =>
      Some (mkMapping name "Opsin" "Opsin" smiles self_namespace
                      SMC_HIGHLY_LIKELY None None None [])
  | None => None
  end.

(** [for spaces in range(2, -1, -1)], up to the [break]: the extended match
    that parsed, with its bounds and mapping. *)
Fixpoint try_spaces (ent : Entity) (section_text : string) (spaces_range : list Z) :
    indexed (option (string * Z * Z * Mapping)) :=
  match spaces_range with
  | [] => Got None
  | spaces :: rest =>
      match extendString ent section_text spaces with
      | IndexError => IndexError
      | Got (match_, start, end_) =>
          match parseString match_ with
          | Some maybe_mapping => Got (Some (match_, start, end_, maybe_mapping))
          | None => try_spaces ent section_text rest
          end
      end
  end.

(** The body of [for ent in section.entities], on [updated_mappings] (a
    dictionary keyed by entities) and the next fresh identity. *)
Definition call_entity (section_text : string)
    (acc : list (Entity * Entity) * positive) (ent : Entity) :
    outcome (list (Entity * Entity) * positive) :=
  let '(updated_mappings, next) := acc in
  if String.eqb (entity_class ent) self_entity_class then
    if is_nil (mappings ent) then
      match try_spaces ent section_text [2; 1; 0] with
      | IndexError => RaisedIndexError
      | Got None => Returned (updated_mappings, next)
      | Got (Some (match_, start, end_, maybe_mapping)) =>
          match Entity_init normalize next match_ (entity_class ent)
                  {[ mkCharSpan start end_ ]} (namespace ent) HIGHLY_LIKELY
                  [maybe_mapping] [] [] with
          | Ok opsin_entity =>
              Returned (dict_set Entity_eq updated_mappings ent opsin_entity,
                        Pos.succ next)
          | Raise e => Raised e
          end
      end
    else Returned (updated_mappings, next)
  else Returned (updated_mappings, next).

Fixpoint call_entities (section_text : string)
    (acc : list (Entity * Entity) * positive) (entities : list Entity) :
    outcome (list (Entity * Entity) * positive) :=
  match entities with
  | [] => Returned acc
  | ent :: rest =>
      match call_entity section_text acc ent with
      | Returned acc' => call_entities section_text acc' rest
      | RaisedIndexError => RaisedIndexError
      | Raised e => Raised e
      end
  end.

(** [for original_entity, opsin_entity in updated_mappings.items()], with
    its body. *)
Fixpoint replace_entities (updated_mappings : list (Entity * Entity))
    (entities : list Entity) : outcome (list Entity) :=
  match updated_mappings with
  | [] => Returned entities
  | (original_entity, opsin_entity) :: rest =>
      match entities_remove original_entity entities with
      | Some entities' => replace_entities rest (entities' ++ [opsin_entity])
      | None => Raised (ValueError "list.remove(x): x not in list")
      end
  end.

(** The body of [for section in doc.sections], on the next fresh
    identity. *)
Definition call_section (section : Section_) (next : positive) :
    outcome (Section_ * positive) :=
  match call_entities (text section) ([], next) (entities section) with
  | Returned (updated_mappings, next') =>
      match replace_entities updated_mappings (entities section) with
      | Returned entities' =>
          Returned (mkSection (text section) (name section) (s_metadata section)
                              entities' (_sentence_spans section),
                    next')
      | RaisedIndexError => RaisedIndexError
      | Raised e => Raised e
      end
  | RaisedIndexError => RaisedIndexError
  | Raised e => Raised e
  end.

Fixpoint call_sections (sections : list Section_) (next : positive) :
    outcome (list Section_ * positive) :=
  match sections with
  | [] => Returned ([], next)
  | section :: rest =>
      match call_section section next with
      | Returned (section', next') =>
          match call_sections rest next' with
          | Returned (rest', next'') => Returned (section' :: rest', next'')
          | RaisedIndexError => RaisedIndexError
          | Raised e => Raised e
          end
      | RaisedIndexError => RaisedIndexError
      | Raised e => Raised e
      end
  end.

(** [OpsinStep.__call__], on one document: the document as the call leaves
    it when it returns. *)
Definition OpsinStep_call (doc : Document) (next : positive) :
    outcome (Document * positive) :=
  if match condition with
     | Some condition => negb (condition doc)
     | None => false
     end
  then Returned (doc, next)
  else
    match call_sections (sections doc) next with
    | Returned (sections', next') =>
        Returned (mkDocument (idx doc) sections' (d_metadata doc), next')
    | RaisedIndexError => RaisedIndexError
    | Raised e => Raised e
    end.

End opsin_step.

End opsin.

(** * Properties *)

Import data.

(** ** Span algebra *)

Lemma CharSpan_is_partially_overlapped_true (a b : CharSpan) :
  CharSpan_is_partially_overlapped a b = true ↔
  (cs_start b <= cs_start a <= cs_end b) ∨ (cs_start b <= cs_end a <= cs_end b).
Proof.
  unfold CharSpan_is_partially_overlapped.
  rewrite orb_true_iff, !andb_true_iff, !Z.leb_le. tauto.
Qed.

(** The span [0,10] and the span [3,5] inside it. *)
Definition span_outer : CharSpan := mkCharSpan 0 10.
Definition span_inner : CharSpan := mkCharSpan 3 5.

(** C7, as stated, fails: [span_inner] starts within [span_outer], yet
    [span_outer.is_partially_overlapped(span_inner)] is false, because only
    the endpoints of [self] are tested against [other]. *)
Lemma is_partially_overlapped_not_four_way :
  ¬ (CharSpan_is_partially_overlapped span_outer span_inner = true ↔
     (cs_start span_inner <= cs_start span_outer <= cs_end span_inner)
     ∨ (cs_start span_inner <= cs_end span_outer <= cs_end span_inner)
     ∨ (cs_start span_outer <= cs_start span_inner <= cs_end span_outer)
     ∨ (cs_start span_outer <= cs_end span_inner <= cs_end span_outer)).
Proof.
  intros [_ H].
  assert (Hfalse : CharSpan_is_partially_overlapped span_outer span_inner = false)
    by reflexivity.
  rewrite H in Hfalse; [discriminate|].
  right; right; left. cbn. lia.
Qed.

(** C7, amended: [a.is_partially_overlapped(b)] holds exactly when an
    endpoint of [a] lies in the inclusive range of [b]; it is the
    disjunction of the two directions that is the four-way condition, and
    the predicate itself is not symmetric. *)
Theorem is_partially_overlapped_endpoints_of_self :
  (∀ a b : CharSpan,
     CharSpan_is_partially_overlapped a b = true ↔
     (cs_start b <= cs_start a <= cs_end b)
     ∨ (cs_start b <= cs_end a <= cs_end b))
  ∧ (∀ a b : CharSpan,
       CharSpan_is_partially_overlapped a b
       || CharSpan_is_partially_overlapped b a = true ↔
       (cs_start b <= cs_start a <= cs_end b)
       ∨ (cs_start b <= cs_end a <= cs_end b)
       ∨ (cs_start a <= cs_start b <= cs_end a)
       ∨ (cs_start a <= cs_end b <= cs_end a))
  ∧ (CharSpan_is_partially_overlapped span_inner span_outer = true
     ∧ CharSpan_is_partially_overlapped span_outer span_inner = false).
Proof.
  split; [|split].
  - apply CharSpan_is_partially_overlapped_true.
  - intros a b. rewrite orb_true_iff.
    rewrite !CharSpan_is_partially_overlapped_true. tauto.
  - split; reflexivity.
Qed.

(** ** Entity: span-derived bounds *)

Section calc.

(** What the loop of [calc_starts_and_ends] has found after the spans [l],
    started from [(a, e)]. *)
Lemma calc_fold_spec (l : list CharSpan) :
  ∀ (a : earliest) (e : Z),
    let r := foldl calc_step (a, e) l in
    e <= r.2
    ∧ (∀ s, s ∈ l → cs_end s <= r.2)
    ∧ (r.2 = e ∨ ∃ s, s ∈ l ∧ cs_end s = r.2)
    ∧ match r.1 with
      | inf => a = inf ∧ l = []
      | at_ m =>
          (∀ s, s ∈ l → m <= cs_start s)
          ∧ (a = at_ m ∨ (∃ s, s ∈ l ∧ cs_start s = m))
          ∧ (∀ m0, a = at_ m0 → m <= m0)
      end.
Proof.
  induction l as [|x l IH]; intros a e; cbn.
  - split; [lia|]. split; [intros s Hs; inversion Hs|]. split; [by left|].
    destruct a as [|m]; [done|].
    split; [intros s Hs; inversion Hs|]. split; [by left|].
    intros m0 [= ->]. lia.
  - set (a' := match a with
               | inf => at_ (cs_start x)
               | at_ s => if cs_start x <? s then at_ (cs_start x) else at_ s
               end).
    set (e' := if e <? cs_end x then cs_end x else e).
    specialize (IH a' e'). cbn in IH.
    destruct IH as (He & Hub & Hhit & Hst).
    assert (He' : e <= e' ∧ cs_end x <= e' ∧ (e' = e ∨ e' = cs_end x)).
    { subst e'. destruct (Z.ltb_spec e (cs_end x)); lia. }
    split; [lia|]. split.
    { intros s Hs. apply elem_of_cons in Hs as [->|Hs]; [lia|by apply Hub]. }
    split.
    { destruct Hhit as [Hr|(s & Hs & Hr)].
      - destruct He' as (_ & _ & [Heq|Heq]).
        + left. congruence.
        + right. exists x. split; [left|congruence].
      - right. exists s. split; [by right|done]. }
    destruct (foldl calc_step (a', e') l).1 as [|m] eqn:Hm.
    + destruct Hst as [Ha' _]. subst a'. destruct a as [|s]; [done|].
      by destruct (cs_start x <? s).
    + destruct Hst as (Hlb & Hfrom & Hle).
      assert (Hx : m <= cs_start x ∧ (∀ m0, a = at_ m0 → m <= m0)).
      { subst a'. destruct a as [|s0].
        - split; [by apply Hle|]. intros m0 [=].
        - destruct (Z.ltb_spec (cs_start x) s0) as [Hlt|Hge].
          + specialize (Hle _ eq_refl). split; [lia|]. intros m0 [= <-]. lia.
          + specialize (Hle _ eq_refl). split; [lia|]. intros m0 [= <-]. lia. }
      destruct Hx as [Hx1 Hx2].
      split.
      { intros s Hs. apply elem_of_cons in Hs as [->|Hs]; [done|by apply Hlb]. }
      split; [|done].
      destruct Hfrom as [Ha'|(s & Hs & Heq)].
      * subst a'. destruct a as [|s0].
        -- right. exists x. split; [left|]. congruence.
        -- destruct (cs_start x <? s0).
           ++ right. exists x. split; [left|]. congruence.
           ++ by left.
      * right. exists s. split; [by right|done].
Qed.

Variable normalize : string → string → string.

(** [Entity_init] succeeds exactly on a non-empty set of spans. *)
Lemma calc_starts_and_ends_nonempty (spans : gset CharSpan) :
  spans ≠ ∅ → ∃ se, calc_starts_and_ends spans = Ok se.
Proof.
  intros Hne. unfold calc_starts_and_ends.
  pose proof (calc_fold_spec (elements spans) inf 0) as (_ & _ & _ & Hst).
  destruct (foldl calc_step (inf, 0) (elements spans)) as [[|m] en]; cbn in *.
  - destruct Hst as [_ Hnil]. apply elements_empty_inv in Hnil.
    apply leibniz_equiv in Hnil. done.
  - eauto.
Qed.

(** C6, amended: a successfully constructed entity has [start] equal to
    the least [span.start]; its [end] is an upper bound of every
    [span.end], and is the greatest [span.end] as soon as some span ends at
    a non-negative offset; construction from an empty span set raises
    [ValueError], and from a non-empty one succeeds. *)
Theorem entity_start_end_from_spans
    (id : positive) (match_ entity_class : string) (sp : gset CharSpan)
    (ns : string) (conf : MentionConfidence) (maps : list Mapping)
    (md : list (string * json))
    (syn : list (SynonymTermWithMetrics * SynonymTermWithMetrics)) :
  (∀ e, Entity_init normalize id match_ entity_class sp ns conf maps md syn = Ok e →
        spans e = sp
        ∧ (∀ s, s ∈ spans e → e_start e <= cs_start s)
        ∧ (∃ s, s ∈ spans e ∧ cs_start s = e_start e)
        ∧ (∀ s, s ∈ spans e → cs_end s <= e_end e)
        ∧ ((∃ s, s ∈ spans e ∧ 0 <= cs_end s) →
           ∃ s, s ∈ spans e ∧ cs_end s = e_end e))
  ∧ (sp ≠ ∅ →
     ∃ e, Entity_init normalize id match_ entity_class sp ns conf maps md syn = Ok e)
  ∧ (sp = ∅ →
     Entity_init normalize id match_ entity_class sp ns conf maps md syn
     = Raise (ValueError "spans are not valid")).
Proof.
  split; [|split].
  - intros e. unfold Entity_init, calc_starts_and_ends.
    pose proof (calc_fold_spec (elements sp) inf 0) as (H0 & Hub & Hhit & Hst).
    destruct (foldl calc_step (inf, 0) (elements sp)) as [[|m] en]; cbn in *;
      [discriminate|].
    intros [= <-]; cbn.
    destruct Hst as (Hlb & Hfrom & _).
    split; [done|].
    split; [intros s Hs; apply Hlb; by apply elem_of_elements|].
    split.
    { destruct Hfrom as [[=]|(s & Hs & Heq)].
      exists s. split; [by apply elem_of_elements|done]. }
    split; [intros s Hs; apply Hub; by apply elem_of_elements|].
    intros (s & Hs & Hpos).
    destruct Hhit as [->|(s' & Hs' & Heq)].
    + exists s. split; [done|].
      specialize (Hub s (proj2 (elem_of_elements _ _) Hs)). lia.
    + exists s'. split; [by apply elem_of_elements|done].
  - intros Hne. unfold Entity_init.
    destruct (calc_starts_and_ends_nonempty sp Hne) as [[st en] ->].
    cbn. eauto.
  - intros ->. reflexivity.
Qed.

End calc.

(** C6, as stated, fails: an entity whose only span ends at [-1] is
    constructed with [end = 0], since [latest_end] starts from [0]. *)
Lemma entity_end_not_max_of_negative_ends :
  ∃ e, Entity_init (λ s _, s) 1%positive "m" "c" {[ mkCharSpan (-3) (-1) ]} "ns"
         HIGHLY_LIKELY [] [] [] = Ok e
       ∧ e_end e = 0
       ∧ ¬ (∃ s, s ∈ spans e ∧ cs_end s = e_end e).
Proof.
  eexists. split; [reflexivity|]. split; [reflexivity|].
  intros (s & Hs & He). cbn in Hs, He.
  apply elem_of_singleton in Hs. subst s. discriminate.
Qed.

(** A two-span entity, as [Entity_init] builds it. *)
Definition lung_cancer : Entity :=
  mkEntity 7 "lung cancer" "disease" {[ mkCharSpan 0 4; mkCharSpan 15 21 ]}
           "ns" HIGHLY_LIKELY [] [] 0 21 "lung cancer" [].

Lemma entity_start_end_from_spans_witness :
  spans lung_cancer = {[ mkCharSpan 0 4; mkCharSpan 15 21 ]}
  ∧ (∀ s, s ∈ spans lung_cancer → e_start lung_cancer <= cs_start s)
  ∧ (∃ s, s ∈ spans lung_cancer ∧ cs_start s = e_start lung_cancer)
  ∧ (∀ s, s ∈ spans lung_cancer → cs_end s <= e_end lung_cancer)
  ∧ ((∃ s, s ∈ spans lung_cancer ∧ 0 <= cs_end s) →
     ∃ s, s ∈ spans lung_cancer ∧ cs_end s = e_end lung_cancer).
Proof.
  apply (proj1 (entity_start_end_from_spans (λ s _, s) 7%positive "lung cancer"
                  "disease" {[ mkCharSpan 0 4; mkCharSpan 15 21 ]} "ns"
                  HIGHLY_LIKELY [] [] [])).
  reflexivity.
Defined.

(** ** Entity: identity *)

Lemma Entity_set_cons (e : Entity) (l : list Entity) :
  Entity_set (e :: l) = <[obj_id e := e]> (Entity_set l).
Proof. reflexivity. Qed.

(** C5: [==] on entities holds exactly between an object and itself;
    two entities that are distinct objects are unequal and hash
    differently whatever their fields, and a set of the two has size 2.
    In particular two entities constructed from the same arguments agree
    on [match], [spans], [entity_class] and [namespace] and are unequal. *)
Theorem entity_equality_is_identity :
  (∀ a b : Entity, Entity_eq a b = true ↔ obj_id a = obj_id b)
  ∧ (∀ a b : Entity,
       obj_id a ≠ obj_id b →
       Entity_eq a b = false
       ∧ Entity_hash a ≠ Entity_hash b
       ∧ size (Entity_set [a; b]) = 2%nat)
  ∧ (∀ normalize id1 id2 match_ entity_class_ sp ns conf maps md syn e1 e2,
       id1 ≠ id2 →
       Entity_init normalize id1 match_ entity_class_ sp ns conf maps md syn
       = Ok e1 →
       Entity_init normalize id2 match_ entity_class_ sp ns conf maps md syn
       = Ok e2 →
       (e_match e1 = e_match e2 ∧ spans e1 = spans e2
        ∧ entity_class e1 = entity_class e2 ∧ namespace e1 = namespace e2)
       ∧ Entity_eq e1 e2 = false
       ∧ Entity_hash e1 ≠ Entity_hash e2
       ∧ size (Entity_set [e1; e2]) = 2%nat).
Proof.
  assert (Hdistinct : ∀ a b : Entity,
            obj_id a ≠ obj_id b →
            Entity_eq a b = false
            ∧ Entity_hash a ≠ Entity_hash b
            ∧ size (Entity_set [a; b]) = 2%nat).
  { intros a b Hne. split; [|split].
    - unfold Entity_eq. by apply bool_decide_eq_false.
    - unfold Entity_hash. congruence.
    - rewrite !Entity_set_cons.
      change (Entity_set []) with (∅ : gmap positive Entity).
      rewrite map_size_insert_None by (by rewrite lookup_insert_ne).
      rewrite map_size_insert_None by apply lookup_empty.
      by rewrite map_size_empty. }
  split; [|split].
  - intros a b. unfold Entity_eq. apply bool_decide_eq_true.
  - exact Hdistinct.
  - intros normalize id1 id2 m c sp ns conf maps md syn e1 e2 Hne.
    unfold Entity_init.
    destruct (calc_starts_and_ends sp) as [[st en]|]; [|done]. cbn.
    intros [= <-] [= <-]. split; [done|].
    by apply Hdistinct.
Qed.

(** Two entities made from the same arguments, one after the other. *)
Definition twin_1 : Entity :=
  mkEntity 1 "BRCA1" "gene" {[ mkCharSpan 0 5 ]} "ns" HIGHLY_LIKELY [] []
           0 5 "BRCA1" [].
Definition twin_2 : Entity :=
  mkEntity 2 "BRCA1" "gene" {[ mkCharSpan 0 5 ]} "ns" HIGHLY_LIKELY [] []
           0 5 "BRCA1" [].

Lemma entity_equality_is_identity_witness :
  (e_match twin_1 = e_match twin_2 ∧ spans twin_1 = spans twin_2
   ∧ entity_class twin_1 = entity_class twin_2
   ∧ namespace twin_1 = namespace twin_2)
  ∧ Entity_eq twin_1 twin_2 = false
  ∧ Entity_hash twin_1 ≠ Entity_hash twin_2
  ∧ size (Entity_set [twin_1; twin_2]) = 2%nat.
Proof.
  apply (proj2 (proj2 entity_equality_is_identity) (λ s _, s) 1%positive
           2%positive "BRCA1" "gene" {[ mkCharSpan 0 5 ]} "ns" HIGHLY_LIKELY
           [] [] []).
  - lia.
  - reflexivity.
  - reflexivity.
Defined.

(** ** The cleanup action *)

Import cleanup.

(** Entities that share an identity are one object. *)
Definition alias_consistent (ents : list Entity) : Prop :=
  ∀ e1 e2, e1 ∈ ents → e2 ∈ ents → obj_id e1 = obj_id e2 → e1 = e2.

Lemma Entity_set_lookup_Some (ents : list Entity) (k : positive) (e : Entity) :
  Entity_set ents !! k = Some e → e ∈ ents ∧ obj_id e = k.
Proof.
  induction ents as [|x l IH]; [done|].
  rewrite Entity_set_cons. intros H.
  apply lookup_insert_Some in H as [[<- <-]|[Hne H]].
  - split; [left|done].
  - destruct (IH H). split; [by right|done].
Qed.

Lemma Entity_set_lookup_elem (ents : list Entity) (e : Entity) :
  alias_consistent ents → e ∈ ents → Entity_set ents !! obj_id e = Some e.
Proof.
  intros Hc He.
  destruct (Entity_set ents !! obj_id e) as [e'|] eqn:Hl.
  - apply Entity_set_lookup_Some in Hl as [He' Hid].
    f_equal. by apply Hc.
  - exfalso. revert Hl. clear Hc.
    induction ents as [|x l IH]; [inversion He|].
    rewrite Entity_set_cons. intros Hl.
    apply lookup_insert_None in Hl as [Hl Hne].
    apply elem_of_cons in He as [->|He]; [done|by apply IH].
Qed.

(** What [reduce(filter_combiner, fns, ents)] yields: the members of
    [ents] that every function accepts. *)
Lemma reduce_filter_combiner_lookup (fns : list EntityFilterFn) :
  ∀ (m : gmap positive Entity) (k : positive) (e : Entity),
    foldl filter_combiner m fns !! k = Some e ↔
    m !! k = Some e ∧ ∀ f, f ∈ fns → f e = true.
Proof.
  induction fns as [|f fns IH]; intros m k e; cbn.
  - split; [intros H; split; [done|intros f Hf; inversion Hf]|by intros [H _]].
  - rewrite IH. unfold filter_combiner at 1.
    rewrite map_lookup_filter_Some. cbn. split.
    + intros [[Hm Hf] Hall]. split; [done|].
      intros g Hg. apply elem_of_cons in Hg as [->|Hg]; [done|by apply Hall].
    + intros [Hm Hall]. split; [split; [done|apply Hall; left]|].
      intros g Hg. apply Hall. by right.
Qed.

Lemma cleanup_section_entities (self : EntityFilterCleanupAction)
    (s : Section_) (e : Entity) :
  alias_consistent (entities s) →
  e ∈ entities (cleanup_section self s) ↔
  e ∈ entities s ∧ ∃ f, f ∈ filter_fns self ∧ f e = false.
Proof.
  intros Hc. unfold cleanup_section; cbn.
  rewrite list_elem_of_fmap. split.
  - intros ([k e'] & -> & Hin). cbn.
    apply elem_of_map_to_list in Hin.
    apply lookup_difference_Some in Hin as [Hin Hnot].
    pose proof (Entity_set_lookup_Some _ _ _ Hin) as [He Hid].
    split; [done|].
    assert (Hex : Exists (λ f, f e' ≠ true) (filter_fns self)).
    { apply not_Forall_Exists; [intros f; apply _|].
      intros Hall. rewrite Forall_forall in Hall.
      assert (foldl filter_combiner (Entity_set (entities s)) (filter_fns self)
                !! k = Some e') as Hsome
        by (apply reduce_filter_combiner_lookup; split; [done|exact Hall]).
      congruence. }
    apply Exists_exists in Hex as (f & Hf & Hne).
    exists f. split; [done|]. by destruct (f e').
  - intros [He (f & Hf & Hfalse)].
    exists (obj_id e, e). split; [done|].
    apply elem_of_map_to_list, lookup_difference_Some.
    split; [by apply Entity_set_lookup_elem|].
    destruct (foldl filter_combiner (Entity_set (entities s)) (filter_fns self)
                !! obj_id e) as [e'|] eqn:Hl; [|done].
    apply reduce_filter_combiner_lookup in Hl as [Hin Hall].
    apply Entity_set_lookup_Some in Hin as [He' Hid].
    assert (e' = e) as -> by (by apply Hc).
    specialize (Hall f Hf). congruence.
Qed.

Lemma cleanup_section_NoDup (self : EntityFilterCleanupAction) (s : Section_) :
  NoDup (entities (cleanup_section self s)).
Proof.
  unfold cleanup_section; cbn.
  apply NoDup_fmap_2_strong; [|apply NoDup_map_to_list].
  intros [k1 e1] [k2 e2] H1 H2 Heq. cbn in Heq. subst e2.
  apply elem_of_map_to_list, lookup_difference_Some in H1 as [H1 _].
  apply elem_of_map_to_list, lookup_difference_Some in H2 as [H2 _].
  apply Entity_set_lookup_Some in H1 as [_ <-].
  apply Entity_set_lookup_Some in H2 as [_ <-]. done.
Qed.

(** A document of one section holding one entity, and an action whose only
    function accepts every entity. *)
Definition accept_all : EntityFilterCleanupAction :=
  mkEntityFilterCleanupAction [λ _, true].
Definition one_entity_doc : Document :=
  mkDocument "doc" [mkSection "BRCA1" "na" [] [twin_1] None] [].

(** C2, as stated, fails: the one entity of [one_entity_doc] is accepted by
    every function of [accept_all], and [cleanup] removes it. *)
Lemma cleanup_not_keep_semantics :
  ¬ (∀ s s' e,
       sections one_entity_doc !! 0%nat = Some s →
       sections (cleanup accept_all one_entity_doc) !! 0%nat = Some s' →
       (e ∈ entities s' ↔
        e ∈ entities s ∧ ∀ f, f ∈ filter_fns accept_all → f e = true)).
Proof.
  intros H.
  specialize (H (mkSection "BRCA1" "na" [] [twin_1] None)
                (mkSection "BRCA1" "na" [] [] None) twin_1 eq_refl eq_refl).
  destruct H as [_ H].
  assert (Hin : twin_1 ∈ entities (mkSection "BRCA1" "na" [] [] None)).
  { apply H. split; [cbn; left|].
    intros f Hf. cbn in Hf. apply list_elem_of_singleton in Hf. by subst f. }
  cbn in Hin. inversion Hin.
Qed.

(** C2, amended: the functions say which entities to drop.  After
    [cleanup], each section holds, once each and in no promised order,
    exactly those of its previous entities that some function rejected; an
    entity that every function accepted is removed; the rest of the section
    is as before. *)
Theorem cleanup_keeps_rejected_entities
    (self : EntityFilterCleanupAction) (doc : Document) (i : nat) (s : Section_) :
  sections doc !! i = Some s →
  alias_consistent (entities s) →
  ∃ s', sections (cleanup self doc) !! i = Some s'
        ∧ text s' = text s ∧ name s' = name s
        ∧ s_metadata s' = s_metadata s
        ∧ sentence_spans s' = sentence_spans s
        ∧ NoDup (entities s')
        ∧ ∀ e, e ∈ entities s' ↔
               e ∈ entities s ∧ ∃ f, f ∈ filter_fns self ∧ f e = false.
Proof.
  intros Hs Hc. exists (cleanup_section self s).
  split.
  { unfold cleanup; cbn. by rewrite list_lookup_fmap, Hs. }
  do 4 (split; [reflexivity|]).
  split; [apply cleanup_section_NoDup|].
  intros e. by apply cleanup_section_entities.
Qed.

(** A section with a mapped and an unmapped entity, and the action that
    drops the unmapped entities of namespace [ns]. *)
Definition a_mapping : Mapping :=
  mkMapping "BRCA1" "ENSEMBL" "parser" "ENSG00000012048" "exact"
            SMC_HIGHLY_LIKELY None None None [].
Definition mapped_entity : Entity :=
  mkEntity 3 "BRCA1" "gene" {[ mkCharSpan 0 5 ]} "ns" HIGHLY_LIKELY
           [a_mapping] [] 0 5 "BRCA1" [].
Definition two_entity_section : Section_ :=
  mkSection "BRCA1 gene" "na" [] [mapped_entity; twin_1] None.
Definition two_entity_doc : Document :=
  mkDocument "doc" [two_entity_section] [].
Definition drop_unmapped : EntityFilterCleanupAction :=
  from_filter_fn_providers
    [DropUnmappedEntsEntityFilters_filter_fns
       (mkDropUnmappedEntsEntityFilters {[ "ns" ]})].

Lemma cleanup_keeps_rejected_entities_witness :
  ∃ s', sections (cleanup drop_unmapped two_entity_doc) !! 0%nat = Some s'
        ∧ text s' = text two_entity_section
        ∧ name s' = name two_entity_section
        ∧ s_metadata s' = s_metadata two_entity_section
        ∧ sentence_spans s' = sentence_spans two_entity_section
        ∧ NoDup (entities s')
        ∧ ∀ e, e ∈ entities s' ↔
               e ∈ entities two_entity_section
               ∧ ∃ f, f ∈ filter_fns drop_unmapped ∧ f e = false.
Proof.
  apply (cleanup_keeps_rejected_entities drop_unmapped two_entity_doc 0
           two_entity_section); [reflexivity|].
  intros e1 e2 H1 H2 Hid. cbn in H1, H2.
  apply elem_of_cons in H1 as [->|H1]; apply elem_of_cons in H2 as [->|H2];
    try apply list_elem_of_singleton in H1; try apply list_elem_of_singleton in H2;
    subst; try reflexivity; discriminate.
Defined.

(** The shipped functions are drop predicates: the unmapped entity goes,
    the mapped one stays. *)
Lemma cleanup_drop_unmapped_example :
  entities <$> sections (cleanup drop_unmapped two_entity_doc)
  = [[mapped_entity]].
Proof. vm_compute. reflexivity. Qed.

(** C10: with no filter functions, [cleanup] leaves every section without
    entities (and changes nothing else of the document). *)
Theorem cleanup_without_filters_removes_all (doc : Document) :
  let doc' := cleanup (mkEntityFilterCleanupAction []) doc in
  Forall (λ s, entities s = []) (sections doc')
  ∧ text <$> sections doc' = text <$> sections doc
  ∧ name <$> sections doc' = name <$> sections doc
  ∧ idx doc' = idx doc.
Proof.
  cbn. split; [|split; [|split]].
  - apply Forall_fmap, Forall_forall. intros s _.
    unfold cleanup_section, compose; cbn.
    rewrite map_difference_diag, map_to_list_empty. reflexivity.
  - rewrite <- list_fmap_compose. reflexivity.
  - rewrite <- list_fmap_compose. reflexivity.
  - reflexivity.
Qed.

(** ** Dictionaries *)

Section pydict_facts.
Context {K V : Type} (keq : K → K → bool).
Hypothesis keq_refl : ∀ k, keq k k = true.
Hypothesis keq_sym : ∀ k1 k2, keq k1 k2 = keq k2 k1.
Hypothesis keq_trans :
  ∀ k1 k2 k3, keq k1 k2 = true → keq k2 k3 = true → keq k1 k3 = true.

Lemma keq_congr (k1 k2 k : K) : keq k1 k2 = true → keq k k1 = keq k k2.
Proof.
  intros H. destruct (keq k k2) eqn:H2.
  - apply keq_trans with k2; [done|]. by rewrite keq_sym.
  - destruct (keq k k1) eqn:H1; [|done].
    rewrite <- H2. symmetry. by apply keq_trans with k1.
Qed.

Lemma dict_get_congr (d : list (K * V)) (k1 k2 : K) :
  keq k1 k2 = true → dict_get keq d k1 = dict_get keq d k2.
Proof.
  intros H. induction d as [|[k v] d IH]; [done|]. cbn.
  by rewrite (keq_congr k1 k2 k H), IH.
Qed.

Lemma dict_get_set_eq (d : list (K * V)) (k k' : K) (v : V) :
  keq k k' = true → dict_get keq (dict_set keq d k v) k' = Some v.
Proof.
  intros H. induction d as [|[k0 v0] d IH]; cbn.
  - by rewrite H.
  - destruct (keq k0 k) eqn:H0; cbn.
    + by rewrite (keq_trans k0 k k' H0 H).
    + rewrite <- (keq_congr k k' k0 H), H0. done.
Qed.

Lemma dict_get_set_ne (d : list (K * V)) (k k' : K) (v : V) :
  keq k k' = false → dict_get keq (dict_set keq d k v) k' = dict_get keq d k'.
Proof.
  intros H. induction d as [|[k0 v0] d IH]; cbn.
  - by rewrite H.
  - destruct (keq k0 k) eqn:H0; cbn.
    + rewrite (keq_sym k0 k'), (keq_congr k0 k k' H0), (keq_sym k' k), H.
      done.
    + destruct (keq k0 k'); [done|apply IH].
Qed.

(** Assigning to a key the dictionary lacks appends an item. *)
Lemma dict_set_new (d : list (K * V)) (k : K) (v : V) :
  dict_get keq d k = None → dict_set keq d k v = d ++ [(k, v)].
Proof.
  induction d as [|[k0 v0] d IH]; cbn; [done|].
  destruct (keq k0 k); [done|]. intros H. by rewrite IH.
Qed.

(** Assigning to a key the dictionary has leaves the number of items. *)
Lemma dict_set_length_present (d : list (K * V)) (k : K) (v : V) :
  dict_get keq d k ≠ None → length (dict_set keq d k v) = length d.
Proof.
  induction d as [|[k0 v0] d IH]; cbn; [done|].
  destruct (keq k0 k); cbn; [done|]. intros H. by rewrite IH.
Qed.

Lemma dict_wf_set (d : list (K * V)) (k : K) (v : V) :
  dict_wf keq d → dict_wf keq (dict_set keq d k v).
Proof.
  induction d as [|[k0 v0] d IH]; cbn.
  - done.
  - intros [Hnone Hwf]. destruct (keq k0 k) eqn:H0; cbn.
    + done.
    + split; [|by apply IH].
      rewrite dict_get_set_ne; [done|]. by rewrite keq_sym.
Qed.

Lemma dict_get_del_ne (d : list (K * V)) (k0 k : K) :
  keq k0 k = false → dict_get keq (dict_del keq d k0) k = dict_get keq d k.
Proof.
  intros H. induction d as [|[k1 v1] d IH]; cbn; [done|].
  destruct (keq k1 k0) eqn:H0; cbn.
  - rewrite (keq_sym k1 k), (keq_congr k1 k0 k H0), (keq_sym k k0), H. done.
  - by rewrite IH.
Qed.

Lemma dict_get_del_eq (d : list (K * V)) (k0 k : K) :
  dict_wf keq d → keq k0 k = true → dict_get keq (dict_del keq d k0) k = None.
Proof.
  intros Hwf H. induction d as [|[k1 v1] d IH]; cbn; [done|].
  destruct Hwf as [Hnone Hwf].
  destruct (keq k1 k0) eqn:H0; cbn.
  - rewrite <- Hnone. apply dict_get_congr.
    rewrite keq_sym. by apply keq_trans with k0.
  - rewrite <- (keq_congr k0 k k1 H), H0. by apply IH.
Qed.

Lemma dict_wf_del (d : list (K * V)) (k0 : K) :
  dict_wf keq d → dict_wf keq (dict_del keq d k0).
Proof.
  induction d as [|[k1 v1] d IH]; cbn; [done|].
  intros [Hnone Hwf]. destruct (keq k1 k0) eqn:H0; cbn; [done|].
  split; [|by apply IH].
  rewrite dict_get_del_ne; [done|]. by rewrite keq_sym.
Qed.

(** The items whose key compares equal to [k]. *)
Definition items_for (d : list (K * V)) (k : K) : list (K * V) :=
  List.filter (λ kv, keq kv.1 k) d.

Lemma items_for_absent (d : list (K * V)) (k : K) :
  dict_get keq d k = None → items_for d k = [].
Proof.
  induction d as [|[k0 v0] d IH]; cbn; [done|].
  destruct (keq k0 k); [done|apply IH].
Qed.

(** A dictionary holds one item for a key it was assigned. *)
Lemma items_for_set (d : list (K * V)) (k : K) (v : V) :
  dict_wf keq d → ∃ k0, items_for (dict_set keq d k v) k = [(k0, v)].
Proof.
  induction d as [|[k0 v0] d IH]; cbn.
  - intros _. rewrite keq_refl. by exists k.
  - intros [Hnone Hwf]. destruct (keq k0 k) eqn:H0; cbn; rewrite H0.
    + exists k0. f_equal. apply items_for_absent.
      by rewrite <- (dict_get_congr d k0 k H0).
    + by apply IH.
Qed.

End pydict_facts.

(** ** The synonym term store *)

Lemma SynonymTermWithMetrics_eq_true (a b : SynonymTermWithMetrics) :
  SynonymTermWithMetrics_eq a b = true ↔
  terms a = terms b ∧ term_norm a = term_norm b
  ∧ parser_name a = parser_name b ∧ is_symbolic a = is_symbolic b
  ∧ associated_id_sets a = associated_id_sets b
  ∧ mapping_types a = mapping_types b.
Proof.
  unfold SynonymTermWithMetrics_eq, compare_fields.
  rewrite bool_decide_eq_true. split.
  - intros [= -> -> -> -> -> ->]. done.
  - intros (-> & -> & -> & -> & -> & ->). done.
Qed.

(** Equal terms have equal hashes. *)
Lemma SynonymTermWithMetrics_eq_hash (a b : SynonymTermWithMetrics) :
  SynonymTermWithMetrics_eq a b = true → hash_fields a = hash_fields b.
Proof.
  rewrite SynonymTermWithMetrics_eq_true. unfold hash_fields.
  intros (-> & -> & -> & -> & -> & _). done.
Qed.

Lemma SynonymTermWithMetrics_eq_refl (a : SynonymTermWithMetrics) :
  SynonymTermWithMetrics_eq a a = true.
Proof. by apply bool_decide_eq_true. Qed.

Lemma SynonymTermWithMetrics_eq_sym (a b : SynonymTermWithMetrics) :
  SynonymTermWithMetrics_eq a b = SynonymTermWithMetrics_eq b a.
Proof. unfold SynonymTermWithMetrics_eq. apply bool_decide_ext. split; congruence. Qed.

Lemma SynonymTermWithMetrics_eq_trans (a b c : SynonymTermWithMetrics) :
  SynonymTermWithMetrics_eq a b = true → SynonymTermWithMetrics_eq b c = true →
  SynonymTermWithMetrics_eq a c = true.
Proof.
  unfold SynonymTermWithMetrics_eq. rewrite !bool_decide_eq_true. congruence.
Qed.

Lemma merge_metrics_eq (existing term : SynonymTermWithMetrics) :
  SynonymTermWithMetrics_eq (merge_metrics existing term) existing = true.
Proof. by apply bool_decide_eq_true. Qed.

(** The store of an entity: no two keys compare equal, and every key is
    mapped to a term that compares equal to it. *)
Definition store_wf
    (store : list (SynonymTermWithMetrics * SynonymTermWithMetrics)) : Prop :=
  dict_wf SynonymTermWithMetrics_eq store
  ∧ Forall (λ kv, SynonymTermWithMetrics_eq kv.1 kv.2 = true) store.

Lemma dict_get_self_keyed
    (store : list (SynonymTermWithMetrics * SynonymTermWithMetrics))
    (k v : SynonymTermWithMetrics) :
  Forall (λ kv, SynonymTermWithMetrics_eq kv.1 kv.2 = true) store →
  dict_get SynonymTermWithMetrics_eq store k = Some v →
  SynonymTermWithMetrics_eq v k = true.
Proof.
  induction 1 as [|[k0 v0] d H0 _ IH]; cbn; [done|].
  destruct (SynonymTermWithMetrics_eq k0 k) eqn:Hk.
  - intros [= <-]. cbn in H0.
    apply SynonymTermWithMetrics_eq_trans with k0; [|done].
    by rewrite SynonymTermWithMetrics_eq_sym.
  - apply IH.
Qed.

Lemma dict_set_self_keyed
    (store : list (SynonymTermWithMetrics * SynonymTermWithMetrics))
    (v : SynonymTermWithMetrics) :
  Forall (λ kv, SynonymTermWithMetrics_eq kv.1 kv.2 = true) store →
  Forall (λ kv, SynonymTermWithMetrics_eq kv.1 kv.2 = true)
         (dict_set SynonymTermWithMetrics_eq store v v).
Proof.
  induction 1 as [|[k0 v0] d H0 Hd IH]; cbn.
  - constructor; [apply SynonymTermWithMetrics_eq_refl|constructor].
  - destruct (SynonymTermWithMetrics_eq k0 v) eqn:Hk.
    + constructor; done.
    + constructor; done.
Qed.

Lemma update_term_wf
    (store : list (SynonymTermWithMetrics * SynonymTermWithMetrics))
    (term : SynonymTermWithMetrics) :
  store_wf store → store_wf (update_term store term).
Proof.
  intros [Hwf Hself]. unfold update_term.
  destruct (dict_get SynonymTermWithMetrics_eq store term); split;
    first [ apply dict_wf_set;
            [apply SynonymTermWithMetrics_eq_sym
            |apply SynonymTermWithMetrics_eq_trans|done]
          | by apply dict_set_self_keyed ].
Qed.

Lemma update_terms_wf (self : Entity) (new_terms : list SynonymTermWithMetrics) :
  store_wf (syn_term_to_synonym_terms self) →
  store_wf (syn_term_to_synonym_terms (update_terms self new_terms)).
Proof.
  cbn. generalize (syn_term_to_synonym_terms self).
  induction new_terms as [|t ts IH]; intros store Hwf; cbn; [done|].
  apply IH. by apply update_term_wf.
Qed.

Lemma update_terms_app (self : Entity) (pre : list SynonymTermWithMetrics)
    (term : SynonymTermWithMetrics) :
  syn_term_to_synonym_terms (update_terms self (pre ++ [term]))
  = update_term (syn_term_to_synonym_terms (update_terms self pre)) term.
Proof. cbn. by rewrite foldl_app. Qed.

(** Two terms that differ in [mapping_types] (and in a score) only, and an
    entity with an empty store. *)
Definition term_a : SynonymTermWithMetrics :=
  mkSynonymTermWithMetrics {[ "BRCA1" ]} "BRCA1" "parser" true ∅ UNAMBIGUOUS
    ∅ None None None None.
Definition term_b : SynonymTermWithMetrics :=
  mkSynonymTermWithMetrics {[ "BRCA1" ]} "BRCA1" "parser" true ∅ UNAMBIGUOUS
    {[ "exact" ]} (Some (S754_zero false)) None None None.

(** C3, as stated, fails: [term_a] and [term_b] agree on [terms],
    [term_norm], [parser_name], [is_symbolic] and [associated_id_sets], yet
    merging [term_b] after [term_a] stores both and not their merge, because
    [__eq__] also compares [mapping_types]. *)
Lemma update_terms_not_keyed_by_five_fields :
  hash_fields term_a = hash_fields term_b
  ∧ dict_values (syn_term_to_synonym_terms (update_terms twin_1 [term_a]))
    = [term_a]
  ∧ dict_values (syn_term_to_synonym_terms (update_terms twin_1 [term_a; term_b]))
    = [term_a; term_b]
  ∧ merge_metrics term_a term_b
    ∉ dict_values (syn_term_to_synonym_terms
                     (update_terms twin_1 [term_a; term_b])).
Proof.
  split; [reflexivity|]. split; [reflexivity|].
  assert (Hvals :
    dict_values (syn_term_to_synonym_terms (update_terms twin_1 [term_a; term_b]))
    = [term_a; term_b]) by (vm_compute; reflexivity).
  split; [exact Hvals|].
  rewrite Hvals. intros Hin.
  apply elem_of_cons in Hin as [Heq|Hin].
  - discriminate Heq.
  - apply list_elem_of_singleton in Hin.
    apply (f_equal mapping_types) in Hin. cbn in Hin.
    assert (Hex : "exact" ∈ (∅ : gset string)) by (rewrite Hin; set_solver).
    set_solver.
Qed.

(** C3, amended: the key of the store is the term's [__eq__], which
    compares [terms], [term_norm], [parser_name], [is_symbolic],
    [associated_id_sets] and [mapping_types].  For each incoming term, if
    the store holds an entry for that key, its value becomes the existing
    term with each of the four metrics replaced by the incoming one when
    that is not [None]; otherwise the incoming term is added unchanged.
    Either way the store then holds exactly one entry for the key, the
    entries of other keys are as before, and the store stays well formed. *)
Theorem update_terms_merges_on_dataclass_equality
    (self : Entity) (pre : list SynonymTermWithMetrics)
    (term : SynonymTermWithMetrics) :
  store_wf (syn_term_to_synonym_terms self) →
  let store := syn_term_to_synonym_terms (update_terms self pre) in
  let store' := syn_term_to_synonym_terms (update_terms self (pre ++ [term])) in
  match dict_get SynonymTermWithMetrics_eq store term with
  | Some existing =>
      ∃ merged,
        dict_get SynonymTermWithMetrics_eq store' term = Some merged
        ∧ search_score merged
          = (if search_score term is Some x then Some x else search_score existing)
        ∧ embed_score merged
          = (if embed_score term is Some x then Some x else embed_score existing)
        ∧ bool_score merged
          = (if bool_score term is Some x then Some x else bool_score existing)
        ∧ exact_match merged
          = (if exact_match term is Some x then Some x else exact_match existing)
        ∧ compare_fields merged = compare_fields existing
        ∧ aggregated_by merged = aggregated_by existing
        ∧ length store' = length store
  | None => store' = store ++ [(term, term)]
  end
  ∧ (∃ k v, items_for SynonymTermWithMetrics_eq store' term = [(k, v)])
  ∧ (∀ other, SynonymTermWithMetrics_eq term other = false →
              dict_get SynonymTermWithMetrics_eq store' other
              = dict_get SynonymTermWithMetrics_eq store other)
  ∧ store_wf store'.
Proof.
  intros Hwf0 store store'.
  assert (Hwf : store_wf store) by (by apply update_terms_wf).
  assert (Hstep : store' = update_term store term) by apply update_terms_app.
  clearbody store store'. subst store'. clear Hwf0 self pre.
  destruct Hwf as [Hwf Hself].
  pose proof SynonymTermWithMetrics_eq_refl as Hr.
  pose proof SynonymTermWithMetrics_eq_sym as Hs.
  pose proof SynonymTermWithMetrics_eq_trans as Ht.
  unfold update_term.
  destruct (dict_get SynonymTermWithMetrics_eq store term) as [existing|] eqn:Hget.
  - assert (Hek : SynonymTermWithMetrics_eq existing term = true)
      by (by apply dict_get_self_keyed with store).
    assert (Hmt : SynonymTermWithMetrics_eq (merge_metrics existing term) term = true).
    { apply Ht with existing; [apply merge_metrics_eq|done]. }
    split; [|split; [|split]].
    + exists (merge_metrics existing term).
      split; [by apply dict_get_set_eq|].
      do 6 (split; [reflexivity|]).
      apply dict_set_length_present. intros Hnone.
      rewrite (dict_get_congr _ Hs Ht store _ _ Hmt) in Hnone. congruence.
    + destruct (items_for_set _ Hr Hs Ht store (merge_metrics existing term)
                  (merge_metrics existing term) Hwf) as [k Hk].
      exists k, (merge_metrics existing term). rewrite <- Hk.
      unfold items_for. apply List.filter_ext. intros [k1 v1]; cbn.
      symmetry. by apply keq_congr.
    + intros other Hne. apply dict_get_set_ne; [done|done|].
      destruct (SynonymTermWithMetrics_eq (merge_metrics existing term) other)
        eqn:Hmo; [|done].
      rewrite <- Hne. symmetry. apply Ht with (merge_metrics existing term); [|done].
      by rewrite Hs.
    + split; [by apply dict_wf_set|by apply dict_set_self_keyed].
  - split; [|split; [|split]].
    + by apply dict_set_new.
    + destruct (items_for_set _ Hr Hs Ht store term term Hwf) as [k Hk].
      by exists k, term.
    + intros other Hne. by apply dict_get_set_ne.
    + split; [by apply dict_wf_set|by apply dict_set_self_keyed].
Qed.

(** Merging a second score for [term_a] into a store that holds it. *)
Definition term_a_scored : SynonymTermWithMetrics :=
  mkSynonymTermWithMetrics {[ "BRCA1" ]} "BRCA1" "parser" true ∅ UNAMBIGUOUS
    ∅ None (Some (S754_infinity false)) None (Some true).

Lemma update_terms_merges_on_dataclass_equality_witness :
  let store := syn_term_to_synonym_terms (update_terms twin_1 [term_a]) in
  let store' :=
    syn_term_to_synonym_terms (update_terms twin_1 ([term_a] ++ [term_a_scored])) in
  match dict_get SynonymTermWithMetrics_eq store term_a_scored with
  | Some existing =>
      ∃ merged,
        dict_get SynonymTermWithMetrics_eq store' term_a_scored = Some merged
        ∧ search_score merged
          = (if search_score term_a_scored is Some x then Some x
             else search_score existing)
        ∧ embed_score merged
          = (if embed_score term_a_scored is Some x then Some x
             else embed_score existing)
        ∧ bool_score merged
          = (if bool_score term_a_scored is Some x then Some x
             else bool_score existing)
        ∧ exact_match merged
          = (if exact_match term_a_scored is Some x then Some x
             else exact_match existing)
        ∧ compare_fields merged = compare_fields existing
        ∧ aggregated_by merged = aggregated_by existing
        ∧ length store' = length store
  | None => store' = store ++ [(term_a_scored, term_a_scored)]
  end
  ∧ (∃ k v, items_for SynonymTermWithMetrics_eq store' term_a_scored = [(k, v)])
  ∧ (∀ other, SynonymTermWithMetrics_eq term_a_scored other = false →
              dict_get SynonymTermWithMetrics_eq store' other
              = dict_get SynonymTermWithMetrics_eq store other)
  ∧ store_wf store'.
Proof.
  apply (update_terms_merges_on_dataclass_equality twin_1 [term_a] term_a_scored).
  split; [exact I|constructor].
Defined.

(** The store after the two merges holds [term_a] with both scores. *)
Lemma update_terms_merge_example :
  dict_values (syn_term_to_synonym_terms
                 (update_terms twin_1 [term_a; term_a_scored]))
  = [term_a_scored].
Proof. vm_compute. reflexivity. Qed.

(** ** The mapping lookup cache *)

Section lookup_cache_facts.
Import sapbert.
Context {Entity Mapping : Type}.
Variable get_match_entity_class_hash : Entity → Z.
Variable update_mappings : Entity → Mapping → Entity.

Local Abbreviation LFUCache := (LFUCache Mapping).
Local Abbreviation update_lookup_cache :=
  (update_lookup_cache get_match_entity_class_hash).
Local Abbreviation check_lookup_cache :=
  (check_lookup_cache get_match_entity_class_hash update_mappings).
Local Abbreviation run_op :=
  (run_op get_match_entity_class_hash update_mappings).
Local Abbreviation run_ops :=
  (run_ops get_match_entity_class_hash update_mappings).
Local Abbreviation present_throughout :=
  (present_throughout get_match_entity_class_hash update_mappings).

Lemma Zeqb_trans (a b c : Z) : (a =? b) = true → (b =? c) = true → (a =? c) = true.
Proof. rewrite !Z.eqb_eq. congruence. Qed.

(** A resolution for a key the cache holds leaves the cache as it is. *)
Lemma update_lookup_cache_present (cache : LFUCache) (entity : Entity)
    (mapping : Mapping) :
  is_Some (stored cache (get_match_entity_class_hash entity)) →
  update_lookup_cache cache entity mapping = Ok cache.
Proof.
  intros [v Hv]. unfold sapbert.update_lookup_cache, cache_contains, dict_contains.
  unfold stored in Hv. by rewrite Hv.
Qed.

(** [popitem] takes one item away and changes no other. *)
Lemma popitem_stored (cache cache' : LFUCache) (key : Z) :
  dict_wf Z.eqb (cache_data cache) →
  popitem cache = Ok cache' →
  dict_wf Z.eqb (cache_data cache')
  ∧ maxsize cache' = maxsize cache
  ∧ (stored cache' key = stored cache key
     ∨ stored cache' key = None).
Proof.
  intros Hwf. unfold popitem.
  destruct (most_common (cache_counter cache)) as [[k n]|]; [|done].
  destruct (cache_contains cache k); [|done].
  intros [= <-]. unfold stored; cbn.
  split; [apply dict_wf_del; [apply Z.eqb_sym|apply Zeqb_trans|done]|].
  split; [done|].
  destruct (k =? key) eqn:Hk.
  - right. apply dict_get_del_eq; [apply Z.eqb_sym|apply Zeqb_trans|done|done].
  - left. apply dict_get_del_ne; [apply Z.eqb_sym|apply Zeqb_trans|done].
Qed.

Lemma popitems_stored (n : nat) :
  ∀ (cache cache' : LFUCache) (key : Z),
    dict_wf Z.eqb (cache_data cache) →
    popitems n cache = Ok cache' →
    dict_wf Z.eqb (cache_data cache')
    ∧ maxsize cache' = maxsize cache
    ∧ (stored cache' key = stored cache key
       ∨ stored cache' key = None).
Proof.
  induction n as [|n IH]; intros cache cache' key Hwf; cbn.
  - intros [= <-]. auto.
  - destruct (popitem cache) as [c1|] eqn:Hpop; [|done]. cbn.
    intros Hrest.
    destruct (popitem_stored _ _ key Hwf Hpop) as (Hwf1 & Hm1 & H1).
    destruct (IH _ _ key Hwf1 Hrest) as (Hwf2 & Hm2 & H2).
    split; [done|]. split; [congruence|].
    destruct H2 as [H2|H2]; [|by right].
    destruct H1 as [H1|H1]; [left|right]; congruence.
Qed.

(** A resolution never replaces what the cache holds for another entry:
    the entry is as before, or gone. *)
Lemma update_lookup_cache_stored (cache cache' : LFUCache) (entity : Entity)
    (mapping : Mapping) (key : Z) :
  dict_wf Z.eqb (cache_data cache) →
  is_Some (stored cache key) →
  update_lookup_cache cache entity mapping = Ok cache' →
  dict_wf Z.eqb (cache_data cache')
  ∧ (stored cache' key = stored cache key
     ∨ stored cache' key = None).
Proof.
  intros Hwf [v Hv]. unfold sapbert.update_lookup_cache.
  destruct (cache_contains cache (get_match_entity_class_hash entity))
    eqn:Hc; cbn.
  { intros [= <-]. auto. }
  assert (Hne : (get_match_entity_class_hash entity =? key) = false).
  { destruct (Z.eqb_spec (get_match_entity_class_hash entity) key) as [Heq|]; [|done].
    unfold cache_contains, dict_contains in Hc. unfold stored in Hv.
    rewrite Heq, Hv in Hc. done. }
  unfold cache_setitem. destruct (maxsize cache <? 1); [done|].
  rewrite Hc. unfold make_room.
  destruct (popitems _ cache) as [c1|] eqn:Hpop; [|done]. cbn.
  intros [= <-].
  destruct (popitems_stored _ _ _ key Hwf Hpop) as (Hwf1 & _ & H1).
  unfold stored in *; cbn.
  split; [apply dict_wf_set; [apply Z.eqb_sym|apply Zeqb_trans|done]|].
  rewrite dict_get_set_ne; [done|apply Z.eqb_sym|apply Zeqb_trans|done].
Qed.

(** [check_lookup_cache] counts the hits and leaves the stored items. *)
Lemma check_lookup_cache_data (entities : list Entity) :
  ∀ (cache : LFUCache) (seen misses : list Entity),
    cache_data
      (foldl (check_entity get_match_entity_class_hash update_mappings) (cache, seen, misses) entities).1.1
    = cache_data cache.
Proof.
  induction entities as [|ent ents IH]; intros cache seen misses; cbn; [done|].
  unfold cache_get.
  destruct (dict_get Z.eqb (cache_data cache)
              (get_match_entity_class_hash ent)); by rewrite IH.
Qed.

Lemma run_op_stored (cache cache' : LFUCache) (op : cache_op Entity Mapping)
    (key : Z) :
  dict_wf Z.eqb (cache_data cache) →
  is_Some (stored cache key) →
  run_op cache op = Ok cache' →
  dict_wf Z.eqb (cache_data cache')
  ∧ (stored cache' key = stored cache key
     ∨ stored cache' key = None).
Proof.
  intros Hwf Hin. destruct op as [entity mapping|entities]; cbn.
  - by apply update_lookup_cache_stored.
  - intros [= <-]. unfold stored, sapbert.check_lookup_cache.
    rewrite check_lookup_cache_data. auto.
Qed.

(** C4: as long as the cache holds an entry for a key, what it holds is
    the mapping first stored: over any run of cache checks and cache
    updates throughout which the key stays present, the stored mapping is
    the same at the end, and a further resolution for that key leaves the
    cache as it is. *)
Theorem lookup_cache_first_writer_wins
    (cache cache' : LFUCache) (key : Z) (ops : list (cache_op Entity Mapping)) :
  dict_wf Z.eqb (cache_data cache) →
  present_throughout key cache ops →
  run_ops cache ops = Ok cache' →
  stored cache' key = stored cache key
  ∧ ∀ entity mapping,
      get_match_entity_class_hash entity = key →
      update_lookup_cache cache' entity mapping = Ok cache'.
Proof.
  intros Hwf Hpres Hrun.
  assert (Hsame : stored cache' key = stored cache key).
  { revert cache Hwf Hpres Hrun.
    induction ops as [|op ops IH]; intros cache Hwf Hpres; cbn.
    - by intros [= <-].
    - destruct Hpres as [Hin Hrest].
      destruct (run_op cache op) as [c1|] eqn:Hop; [|done]. cbn.
      intros Hrun.
      destruct (run_op_stored _ _ _ key Hwf Hin Hop) as [Hwf1 H1].
      rewrite (IH c1 Hwf1 Hrest Hrun).
      destruct H1 as [H1|H1]; [done|].
      destruct ops; destruct Hrest as [[v Hv] _]; congruence. }
  split; [done|].
  intros entity mapping <-. apply update_lookup_cache_present.
  rewrite Hsame. destruct ops; by destruct Hpres as [Hin _].
Qed.

End lookup_cache_facts.

(** Two mentions of one surface string and class, resolved one after the
    other to different mappings; the key is the length of the string. *)
Definition kb_cache : sapbert.LFUCache string :=
  sapbert.mkLFUCache 2 [(5, "first")] [(5, -1)].

Lemma lookup_cache_first_writer_wins_witness :
  sapbert.stored kb_cache 5 = Some "first"
  ∧ sapbert.run_ops (λ s, Z.of_nat (String.length s)) (λ e _, e)
      kb_cache [sapbert.Check ["BRCA1"];
                sapbert.Update "BRCA1" "second"]
    = Ok (sapbert.mkLFUCache 2 [(5, "first")] [(5, -2)])
  ∧ sapbert.stored (sapbert.mkLFUCache 2 [(5, "first")] [(5, -2)]) 5
    = sapbert.stored kb_cache 5
  ∧ ∀ entity mapping,
      Z.of_nat (String.length entity) = 5 →
      sapbert.update_lookup_cache (λ s, Z.of_nat (String.length s))
        (sapbert.mkLFUCache 2 [(5, "first")] [(5, -2)]) entity mapping
      = Ok (sapbert.mkLFUCache 2 [(5, "first")] [(5, -2)]).
Proof.
  split; [reflexivity|]. split; [reflexivity|].
  apply (lookup_cache_first_writer_wins (λ s, Z.of_nat (String.length s))
           (λ e _, e) kb_cache _ 5
           [sapbert.Check ["BRCA1"];
            sapbert.Update "BRCA1" "second"]).
  - cbn. split; [reflexivity|exact I].
  - cbn. repeat split; eauto.
  - reflexivity.
Defined.

(** ** Curated terms: the case-sensitivity check *)

Lemma ascii_lower_idemp (c : ascii) : ascii_lower (ascii_lower c) = ascii_lower c.
Proof. destruct c as [[] [] [] [] [] [] [] []]; reflexivity. Qed.

Lemma lower_idemp (s : string) : lower (lower s) = lower s.
Proof.
  induction s as [|c s IH]; cbn; [done|].
  by rewrite ascii_lower_idemp, IH.
Qed.

Lemma rmap_Ok {A B : Type} (f : A → result B) (xs : list A) :
  (∀ x, x ∈ xs → ∃ y, f x = Ok y) → ∃ ys, rmap f xs = Ok ys.
Proof.
  induction xs as [|x xs IH]; intros H; cbn; [by eexists|].
  destruct (H x) as [y ->]; [left|]. cbn.
  destruct IH as [ys ->]; [|by eexists].
  intros x' Hx'. apply H. by right.
Qed.

(** The keys of [ci_forms] are lowercased, and no set of confidences in it
    is empty. *)
Definition ci_forms_inv (ci_forms : gmap string (gset MentionConfidence)) : Prop :=
  map_Forall (λ key confidences, lower key = key ∧ confidences ≠ ∅) ci_forms.

Lemma collect_form_inv (forms : list MentionForm) :
  ∀ cs_forms ci_forms,
    ci_forms_inv ci_forms →
    ci_forms_inv (foldl collect_form (cs_forms, ci_forms) forms).2.
Proof.
  induction forms as [|form forms IH]; intros cs ci Hinv; cbn; [done|].
  destruct (case_sensitive form); [by apply IH|].
  apply IH. unfold add_confidence.
  apply map_Forall_insert_2; [|done].
  split; [apply lower_idemp|set_solver].
Qed.

Lemma min_confidence_nonempty (confidences : gset MentionConfidence) :
  confidences ≠ ∅ → ∃ v, min_confidence confidences = Ok v.
Proof.
  intros Hne. unfold min_confidence.
  destruct (elements confidences) as [|c cs] eqn:He.
  - apply elements_empty_inv, leibniz_equiv in He. done.
  - cbn. by eexists.
Qed.

(** Each group of [ci_forms] is compared with itself, so the comparison of
    the second loop is never true. *)
Lemma check_form_Ok (ci_forms : gmap string (gset MentionConfidence))
    (key : string) (confidences : gset MentionConfidence) :
  ci_forms_inv ci_forms →
  ci_forms !! key = Some confidences →
  check_form ci_forms (key, confidences) = Ok ().
Proof.
  intros Hinv Hget. destruct (Hinv _ _ Hget) as [Hlow Hne].
  unfold check_form. rewrite Hlow, Hget. cbn.
  destruct (min_confidence_nonempty _ Hne) as [v ->]. cbn.
  by rewrite Z.ltb_irrefl.
Qed.

(** [__post_init__] raises for a term without original forms and for no
    other term: the case-sensitivity comparison never raises. *)
Lemma CuratedTerm_post_init_never_conflicts (self : CuratedTerm) :
  CuratedTerm_post_init self
  = if bool_decide (size (original_forms self) = 0%nat)
    then Raise (ValueError "no forms") else Ok ().
Proof.
  unfold CuratedTerm_post_init. case_bool_decide; [done|].
  pose proof (collect_form_inv (active_ner_forms self) ∅ ∅) as Hinv.
  destruct (foldl collect_form (∅, ∅) (active_ner_forms self)) as [cs ci].
  cbn in Hinv.
  destruct (rmap_Ok (check_form ci) (map_to_list ci)) as [ys ->]; [|done].
  intros [k v] Hin. exists (). apply check_form_Ok.
  - apply Hinv. apply map_Forall_empty.
  - by apply elem_of_map_to_list.
Qed.

(** The check, in the words of the specification: some group of
    case-insensitive active forms (by lowercased string) has a minimum
    confidence below that of the case-sensitive active forms with the same
    lowercased string, the laxest level standing in when there are none. *)
Definition spec_min_confidence (default : Z) (forms : list MentionForm) : Z :=
  match (λ f, MentionConfidence_value (mf_mention_confidence f)) <$> forms with
  | [] => default
  | v :: vs => foldl Z.min v vs
  end.

Definition spec_case_conflict (self : CuratedTerm) : bool :=
  let active := active_ner_forms self in
  existsb
    (λ ci_form,
       let key := lower (mf_string ci_form) in
       let ci_group :=
         filter (λ f, case_sensitive f = false ∧ lower (mf_string f) = key) active in
       let cs_group :=
         filter (λ f, case_sensitive f = true ∧ lower (mf_string f) = key) active in
       spec_min_confidence (MentionConfidence_value POSSIBLE) ci_group
       <? spec_min_confidence (MentionConfidence_value POSSIBLE) cs_group)
    (filter (λ f, case_sensitive f = false) active).

(** [ALL], case-sensitive and highly likely, beside [all], case-insensitive
    and only possible. *)
Definition conflicting_term : CuratedTerm :=
  mkCuratedTerm {[ mkMentionForm "ALL" true HIGHLY_LIKELY;
                   mkMentionForm "all" false POSSIBLE ]}
                ADD_FOR_NER_AND_LINKING ∅ None 0 None None.

(** C1 on [conflicting_term]: the specification's condition holds, and
    [__post_init__] returns without raising. *)
Theorem post_init_misses_case_conflict :
  spec_case_conflict conflicting_term = true
  ∧ CuratedTerm_post_init conflicting_term = Ok ().
Proof.
  split.
  - vm_compute. reflexivity.
  - rewrite CuratedTerm_post_init_never_conflicts.
    vm_compute. reflexivity.
Qed.

(** ** The round trip through the JSON converter *)

Lemma rmap_fmap_inv {A B : Type} (f : B → result A) (g : A → B) (l : list A) :
  (∀ x, f (g x) = Ok x) → rmap f (g <$> l) = Ok l.
Proof.
  intros H. induction l as [|x l IH]; cbn; [done|].
  by rewrite H, IH.
Qed.

Lemma is_nil_true {A : Type} (l : list A) : is_nil l = true → l = [].
Proof. by destruct l. Qed.

Lemma is_nil_elements `{Countable A} (X : gset A) :
  is_nil (elements X) = true → X = ∅.
Proof.
  intros Hn. apply is_nil_true in Hn.
  by apply leibniz_equiv, elements_empty_inv.
Qed.

Lemma structure_CharSpan_unstructure (c : CharSpan) :
  structure_CharSpan (unstructure_CharSpan c) = Ok c.
Proof. by destruct c. Qed.

Lemma structure_CharSpan_set_unstructure (X : gset CharSpan) :
  structure_CharSpan_set (JList (unstructure_CharSpan <$> elements X)) = Ok X.
Proof.
  unfold structure_CharSpan_set. cbn [as_list mbind result_bind].
  rewrite (rmap_fmap_inv _ _ _ structure_CharSpan_unstructure).
  cbn. f_equal. apply list_to_set_elements_L.
Qed.

Lemma structure_str_set_unstructure (X : gset string) :
  structure_str_set (unstructure_str_set X) = Ok X.
Proof.
  unfold structure_str_set, unstructure_str_set. cbn [as_list mbind result_bind].
  rewrite (rmap_fmap_inv as_str JStr) by done.
  cbn. f_equal. apply list_to_set_elements_L.
Qed.

Lemma structure_EquivalentIdSet_unstructure (s : EquivalentIdSet) :
  structure_EquivalentIdSet (unstructure_EquivalentIdSet s) = Ok s.
Proof.
  destruct s as [ids].
  unfold structure_EquivalentIdSet, unstructure_EquivalentIdSet. cbn [ids_and_source].
  destruct (is_nil (elements ids)) eqn:Hn; cbn.
  - by rewrite (is_nil_elements _ Hn).
  - rewrite (rmap_fmap_inv structure_str_pair) by (by intros []).
    cbn. do 2 f_equal. apply list_to_set_elements_L.
Qed.

Lemma structure_AssociatedIdSets_unstructure (X : AssociatedIdSets) :
  structure_AssociatedIdSets (JList (unstructure_EquivalentIdSet <$> elements X))
  = Ok X.
Proof.
  unfold structure_AssociatedIdSets. cbn [as_list mbind result_bind].
  rewrite (rmap_fmap_inv _ _ _ structure_EquivalentIdSet_unstructure).
  cbn. f_equal. apply list_to_set_elements_L.
Qed.

Lemma structure_Mapping_unstructure (m : Mapping) :
  structure_Mapping (unstructure_Mapping m) = Ok m.
Proof.
  destruct m as [dl src pn ix sms smc dc ds xr md].
  unfold structure_Mapping, unstructure_Mapping.
  destruct smc, dc as [[]|], ds, xr, md as [|[k v] md]; reflexivity.
Qed.

#[local] Arguments structure_str_set : simpl never.
#[local] Arguments unstructure_str_set : simpl never.
#[local] Arguments structure_AssociatedIdSets : simpl never.

Lemma structure_SynonymTermWithMetrics_unstructure (t : SynonymTermWithMetrics) :
  structure_SynonymTermWithMetrics (unstructure_SynonymTermWithMetrics t) = Ok t.
Proof.
  destruct t as [ts tn pn sym ids agg mt ss es bs em].
  unfold structure_SynonymTermWithMetrics, unstructure_SynonymTermWithMetrics.
  cbn [terms term_norm parser_name is_symbolic associated_id_sets aggregated_by
       mapping_types search_score embed_score bool_score exact_match].
  destruct (is_nil (elements mt)) eqn:Hmt;
    [apply is_nil_elements in Hmt; subst mt|];
    destruct agg, ss, es, bs, em; cbn;
    rewrite ?structure_str_set_unstructure, ?structure_AssociatedIdSets_unstructure;
    cbn; rewrite ?structure_str_set_unstructure; reflexivity.
Qed.

Lemma remove_dups_NoDup {A : Type} `{EqDecision A} (l : list A) :
  NoDup l → remove_dups l = l.
Proof.
  induction 1 as [|x l Hx _ IH]; cbn; [done|].
  destruct (decide_rel elem_of x l); [done|by rewrite IH].
Qed.

Lemma structure_Mapping_set_unstructure (l : list Mapping) :
  NoDup l → structure_Mapping_set (JList (unstructure_Mapping <$> l)) = Ok l.
Proof.
  intros Hl. unfold structure_Mapping_set. cbn [as_list mbind result_bind].
  rewrite (rmap_fmap_inv _ _ _ structure_Mapping_unstructure).
  cbn. by rewrite remove_dups_NoDup.
Qed.

Lemma structure_MentionConfidence_name (c : MentionConfidence) :
  structure_MentionConfidence (JStr (MentionConfidence_name c)) = Ok c.
Proof. by destruct c. Qed.

(** The dictionary [{st: st for st in terms}]. *)
Definition self_keyed (ts : list SynonymTermWithMetrics) :
    list (SynonymTermWithMetrics * SynonymTermWithMetrics) :=
  (λ st, (st, st)) <$> ts.

Lemma dict_get_self_keyed_None
    (store : list (SynonymTermWithMetrics * SynonymTermWithMetrics))
    (k st : SynonymTermWithMetrics) :
  Forall (λ kv, SynonymTermWithMetrics_eq kv.1 kv.2 = true) store →
  SynonymTermWithMetrics_eq k st = true →
  dict_get SynonymTermWithMetrics_eq store k = None →
  dict_get SynonymTermWithMetrics_eq (self_keyed (dict_values store)) st = None.
Proof.
  intros Hself Hk. induction Hself as [|[k0 v0] d H0 _ IH]; cbn; [done|].
  cbn in H0.
  destruct (SynonymTermWithMetrics_eq k0 k) eqn:H0k; [done|].
  intros Hnone.
  destruct (SynonymTermWithMetrics_eq v0 st) eqn:Hv; [|by apply IH].
  assert (SynonymTermWithMetrics_eq k0 k = true); [|congruence].
  apply SynonymTermWithMetrics_eq_trans with v0; [done|].
  apply SynonymTermWithMetrics_eq_trans with st; [done|].
  by rewrite SynonymTermWithMetrics_eq_sym.
Qed.

Lemma store_wf_values
    (store : list (SynonymTermWithMetrics * SynonymTermWithMetrics)) :
  store_wf store →
  dict_wf SynonymTermWithMetrics_eq (self_keyed (dict_values store)).
Proof.
  intros [Hwf Hself]. induction store as [|[k v] d IH]; cbn; [done|].
  destruct Hwf as [Hnone Hwf]. inversion Hself as [|? ? Hkv Hd]; subst.
  split; [by apply dict_get_self_keyed_None with k|by apply IH].
Qed.

Lemma dict_wf_snoc {K V : Type} (keq : K → K → bool) (d : list (K * V))
    (k : K) (v : V) :
  (∀ k1 k2, keq k1 k2 = keq k2 k1) →
  dict_wf keq (d ++ [(k, v)]) → dict_wf keq d ∧ dict_get keq d k = None.
Proof.
  intros Hsym. induction d as [|[k0 v0] d IH]; cbn; [done|].
  intros [Hnone Hwf]. destruct (IH Hwf) as [Hwf' Hk].
  assert (Hsplit : dict_get keq d k0 = None ∧ keq k k0 = false).
  { clear -Hnone. induction d as [|[k1 v1] d IH]; cbn in *.
    - by destruct (keq k k0).
    - destruct (keq k1 k0); [done|by apply IH]. }
  destruct Hsplit as [Hd Hkk]. rewrite Hsym, Hkk. done.
Qed.

(** Reading back the values of a store gives the store of those values,
    each under itself, in order. *)
Lemma rebuild_self_keyed (ts : list SynonymTermWithMetrics) :
  dict_wf SynonymTermWithMetrics_eq (self_keyed ts) →
  foldl (λ d st, dict_set SynonymTermWithMetrics_eq d st st) [] ts
  = self_keyed ts.
Proof.
  induction ts as [|t ts IH] using rev_ind; [done|].
  unfold self_keyed. rewrite fmap_app, foldl_app. cbn.
  intros Hwf.
  apply dict_wf_snoc in Hwf as [Hwf Hnone];
    [|apply SynonymTermWithMetrics_eq_sym].
  rewrite (IH Hwf). by apply dict_set_new.
Qed.

Lemma struct_hook_unstructure
    (store : list (SynonymTermWithMetrics * SynonymTermWithMetrics)) :
  store_wf store →
  _syn_term_to_synonym_terms_struct_hook
    (JList (unstructure_SynonymTermWithMetrics <$> dict_values store))
  = Ok (self_keyed (dict_values store)).
Proof.
  intros Hwf. unfold _syn_term_to_synonym_terms_struct_hook.
  cbn [as_list mbind result_bind].
  rewrite (rmap_fmap_inv _ _ _ structure_SynonymTermWithMetrics_unstructure).
  cbn. f_equal. by apply rebuild_self_keyed, store_wf_values.
Qed.

Lemma dict_values_self_keyed (ts : list SynonymTermWithMetrics) :
  dict_values (self_keyed ts) = ts.
Proof.
  unfold dict_values, self_keyed. rewrite <- list_fmap_compose.
  by rewrite list_fmap_id.
Qed.

(** The entities a round trip must bring back: built on at least one span,
    holding each mapping once, with a well-formed store. *)
Definition Entity_wf (e : Entity) : Prop :=
  spans e ≠ ∅
  ∧ NoDup (mappings e)
  ∧ store_wf (syn_term_to_synonym_terms e).

Definition Document_wf (doc : Document) : Prop :=
  Forall (λ s, Forall Entity_wf (entities s)) (sections doc).

(** Structural identity, field by field. *)
Definition Entity_same (e e' : Entity) : Prop :=
  e_match e' = e_match e
  ∧ entity_class e' = entity_class e
  ∧ spans e' = spans e
  ∧ namespace e' = namespace e
  ∧ mention_confidence e' = mention_confidence e
  ∧ mappings e' = mappings e
  ∧ e_metadata e' = e_metadata e
  ∧ dict_values (syn_term_to_synonym_terms e')
    = dict_values (syn_term_to_synonym_terms e).

Definition Section_same (s s' : Section_) : Prop :=
  text s' = text s
  ∧ name s' = name s
  ∧ s_metadata s' = s_metadata s
  ∧ sentence_spans s' = sentence_spans s
  ∧ Forall2 Entity_same (entities s) (entities s').

Definition Document_same (doc doc' : Document) : Prop :=
  idx doc' = idx doc
  ∧ d_metadata doc' = d_metadata doc
  ∧ Forall2 Section_same (sections doc) (sections doc').

Section round_trip.
Variable normalize : string → string → string.
Variable uuid4_hex : positive → string.

#[local] Arguments structure_CharSpan_set : simpl never.
#[local] Arguments structure_Mapping_set : simpl never.
#[local] Arguments structure_MentionConfidence : simpl never.
#[local] Arguments _syn_term_to_synonym_terms_struct_hook : simpl never.
#[local] Arguments calc_starts_and_ends : simpl never.
#[local] Arguments dict_values : simpl never.

Lemma structure_Entity_unstructure (e : Entity) (next : positive) :
  Entity_wf e →
  ∃ e', structure_Entity normalize (unstructure_Entity e) next
        = Ok (e', Pos.succ next)
        ∧ obj_id e' = next
        ∧ Entity_same e e'.
Proof.
  intros (Hsp & Hmaps & Hstore).
  destruct (calc_starts_and_ends_nonempty _ Hsp) as [[st en] Hcalc].
  destruct e as [id m c sp ns conf maps md s0 e0 mn syn]. cbn in *.
  exists (mkEntity next m c sp ns conf maps md st en (normalize m c)
            (self_keyed (dict_values syn))).
  split; [|split; [done|]].
  - unfold structure_Entity, unstructure_Entity, Entity_init.
    cbn [e_match entity_class spans namespace mention_confidence mappings
         e_metadata e_start e_end match_norm syn_term_to_synonym_terms].
    unfold mbind, alloc_bind, result_bind, pure_step, new_id.
    destruct (is_nil syn) eqn:Hsyn; [apply is_nil_true in Hsyn; subst syn|];
      (destruct (is_nil maps) eqn:Hm; [apply is_nil_true in Hm; subst maps|]);
      destruct conf, md as [|[k v] md];
      rewrite ?bool_decide_eq_true_2 by done;
      rewrite ?bool_decide_eq_false_2 by done; cbn;
      rewrite ?structure_CharSpan_set_unstructure; cbn;
      rewrite ?structure_MentionConfidence_name; cbn;
      rewrite ?structure_Mapping_set_unstructure by done; cbn;
      rewrite ?struct_hook_unstructure by done; cbn;
      rewrite ?Hcalc; reflexivity.
  - unfold Entity_same. cbn -[self_keyed dict_values].
    by rewrite dict_values_self_keyed.
Qed.

Lemma amap_structure_Entity (es : list Entity) :
  Forall Entity_wf es →
  ∀ next, ∃ es' next',
    amap (structure_Entity normalize) (unstructure_Entity <$> es) next
    = Ok (es', next')
    ∧ Forall2 Entity_same es es'.
Proof.
  induction 1 as [|e es He _ IH]; intros next; cbn.
  - by exists [], next.
  - destruct (structure_Entity_unstructure e next He) as (e' & He' & _ & Hsame).
    destruct (IH (Pos.succ next)) as (es' & next' & Hes' & Hall).
    exists (e' :: es'), next'.
    unfold mbind, alloc_bind at 1. rewrite He'.
    unfold alloc_bind at 1. rewrite Hes'. cbn.
    split; [done|by constructor].
Qed.

#[local] Arguments structure_Entity : simpl never.
#[local] Arguments unstructure_Entity : simpl never.
#[local] Arguments amap : simpl never.

Lemma structure_sentence_spans_unstructure (s : Section_) (cs : list CharSpan) :
  _sentence_spans s = Some cs →
  ∃ o, structure_sentence_spans (JList (unstructure_CharSpan <$> sentence_spans s))
       = Ok o
       ∧ from_option id [] o = cs.
Proof.
  unfold sentence_spans. intros ->. unfold structure_sentence_spans.
  cbn [as_list mbind result_bind].
  destruct cs as [|c cs]; [by exists None|].
  exists (Some (c :: cs)).
  change (is_nil (unstructure_CharSpan <$> c :: cs)) with false.
  cbv iota.
  by rewrite (rmap_fmap_inv _ _ _ structure_CharSpan_unstructure).
Qed.

#[local] Arguments structure_sentence_spans : simpl never.

Lemma structure_Section_unstructure (s : Section_) (next : positive) :
  Forall Entity_wf (entities s) →
  ∃ s' next', structure_Section normalize (unstructure_Section s) next
              = Ok (s', next')
              ∧ Section_same s s'.
Proof.
  intros Hwf.
  destruct (amap_structure_Entity _ Hwf next) as (es' & next' & Hes & Hall).
  destruct s as [t n md es ss]. cbn [entities] in *.
  assert (Hss : ∃ o,
    defaulted ([("text", JStr t); ("name", JStr n)]
               ++ omit_if_default (is_nil md) "metadata" (JDict md)
               ++ omit_if_default (is_nil es) "entities"
                    (JList (unstructure_Entity <$> es))
               ++ omit_if_default (is_None ss) "sentence_spans"
                    (JList (unstructure_CharSpan
                              <$> sentence_spans (mkSection t n md es ss))))
              "sentence_spans" structure_sentence_spans None = Ok o
    ∧ from_option id [] o = from_option id [] ss).
  { destruct ss as [cs|].
    - destruct (structure_sentence_spans_unstructure
                  (mkSection t n md es (Some cs)) cs eq_refl) as (o & Ho & Hcs).
      exists o. split; [|done].
      destruct md as [|[k v] md], es as [|e es]; cbn; exact Ho.
    - exists None. split; [|done].
      destruct md as [|[k v] md], es as [|e es]; reflexivity. }
  destruct Hss as (o & Ho & Hcs).
  exists (mkSection t n md es' o), (if is_nil es then next else next').
  split.
  - unfold structure_Section, unstructure_Section.
    unfold mbind, alloc_bind, result_bind, pure_step, mret, alloc_ret.
    cbn [as_obj text name s_metadata entities _sentence_spans].
    rewrite Ho. clear Ho.
    destruct (is_nil es) eqn:Hn.
    + apply is_nil_true in Hn. subst es. inversion Hall; subst.
      destruct ss, md as [|[k v] md]; reflexivity.
    + destruct ss, md as [|[k v] md]; cbn; rewrite Hes; reflexivity.
  - unfold Section_same, sentence_spans. cbn. done.
Qed.

Lemma amap_structure_Section (ss : list Section_) :
  Forall (λ s, Forall Entity_wf (entities s)) ss →
  ∀ next, ∃ ss' next',
    amap (structure_Section normalize) (unstructure_Section <$> ss) next
    = Ok (ss', next')
    ∧ Forall2 Section_same ss ss'.
Proof.
  induction 1 as [|s ss Hs _ IH]; intros next.
  - by exists [], next.
  - destruct (structure_Section_unstructure s next Hs) as (s' & n1 & Hs' & Hsame).
    destruct (IH n1) as (ss' & next' & Hss' & Hall).
    exists (s' :: ss'), next'.
    cbn [fmap list_fmap]. unfold amap; fold @amap.
    unfold mbind, alloc_bind at 1. rewrite Hs'.
    unfold alloc_bind at 1. rewrite Hss'.
    split; [done|by constructor].
Qed.

#[local] Arguments structure_Section : simpl never.
#[local] Arguments unstructure_Section : simpl never.

(** C9: writing a document with no minification option and reading the
    record back succeeds, and gives a document that is structurally
    identical to the original: the same [idx] and [metadata], and the same
    sections in order, each with the same [text], [name], [metadata],
    sentence spans and entities in order, each entity with the same
    [match], [entity_class], [spans], [namespace], [mention_confidence],
    [mappings], [metadata] and synonym terms. *)
Theorem document_round_trip (doc : Document) (next : positive) :
  Document_wf doc →
  ∃ record doc' next',
    as_minified_dict doc false false = Ok record
    ∧ from_dict normalize uuid4_hex record next = Ok (doc', next')
    ∧ to_json doc false false = Ok (json_dumps record)
    ∧ from_json normalize uuid4_hex (json_dumps record) next = Ok (doc', next')
    ∧ Document_same doc doc'.
Proof.
  intros Hwf.
  destruct (amap_structure_Section _ Hwf next) as (ss' & next' & Hss & Hall).
  destruct doc as [ix ss md]. cbn [sections] in *.
  exists (unstructure_Document (mkDocument ix ss md)),
         (mkDocument ix ss' md), (if is_nil ss then next else next').
  assert (Hread :
    from_dict normalize uuid4_hex (unstructure_Document (mkDocument ix ss md)) next
    = Ok (mkDocument ix ss' md, if is_nil ss then next else next')).
  { unfold from_dict, structure_Document, unstructure_Document.
    unfold mbind, alloc_bind, result_bind, pure_step, mret, alloc_ret.
    cbn [as_obj idx sections d_metadata].
    destruct (is_nil ss) eqn:Hn.
    - apply is_nil_true in Hn. subst ss. inversion Hall; subst.
      destruct md as [|[k v] md]; reflexivity.
    - destruct md as [|[k v] md]; cbn; rewrite Hss; reflexivity. }
  split; [reflexivity|]. split; [exact Hread|].
  split; [reflexivity|]. split; [exact Hread|].
  unfold Document_same. cbn. done.
Qed.

End round_trip.

(** A document whose second entity carries a mapping, metadata and two
    synonym terms, in a section with sentence spans. *)
Definition scored_entity : Entity :=
  update_terms
    (mkEntity 4 "BRCA1" "gene" {[ mkCharSpan 0 5 ]} "ns" PROBABLE
              [a_mapping] [("seen", JBool true)] 0 5 "BRCA1" [])
    [term_a; term_b; term_a_scored].
Definition scored_doc : Document :=
  mkDocument "doc-1"
    [mkSection "BRCA1 gene" "abstract" [("lang", JStr "en")]
               [twin_1; scored_entity] (Some [mkCharSpan 0 10]);
     mkSection "" "empty" [] [] None]
    [("source", JStr "test")].

Lemma scored_doc_wf : Document_wf scored_doc.
Proof.
  unfold Document_wf, scored_doc; cbn [sections].
  constructor; [|constructor; [constructor|constructor]].
  cbn [entities]. constructor; [|constructor; [|constructor]].
  - split; [apply (non_empty_singleton_L (C:=gset CharSpan) (mkCharSpan 0 5))|].
    split; [constructor|]. split; [exact I|constructor].
  - split; [apply (non_empty_singleton_L (C:=gset CharSpan) (mkCharSpan 0 5))|].
    split; [apply NoDup_singleton|].
    apply (update_terms_wf _ [term_a; term_b; term_a_scored]).
    split; [exact I|constructor].
Qed.

Lemma document_round_trip_witness :
  ∃ record doc' next',
    as_minified_dict scored_doc false false = Ok record
    ∧ from_dict (λ s _, lower s) (λ _, "uuid") record 10%positive
      = Ok (doc', next')
    ∧ to_json scored_doc false false = Ok (json_dumps record)
    ∧ from_json (λ s _, lower s) (λ _, "uuid") (json_dumps record) 10%positive
      = Ok (doc', next')
    ∧ Document_same scored_doc doc'.
Proof.
  apply (document_round_trip (λ s _, lower s) (λ _, "uuid") scored_doc 10).
  exact scored_doc_wf.
Defined.

(** ** Minification *)

Lemma dict_set_same {K V : Type} (keq : K → K → bool) (d : list (K * V))
    (k : K) (v : V) :
  dict_get keq d k = Some v → dict_set keq d k v = d.
Proof.
  induction d as [|[k0 v0] d IH]; cbn; [done|].
  destruct (keq k0 k); [by intros [= ->]|]. intros H. by rewrite IH.
Qed.

Lemma set_item_same (kvs : list (string * json)) (key : string) (value : json) :
  subscript (JDict kvs) key = Ok value →
  set_item (JDict kvs) key value = Ok (JDict kvs).
Proof.
  unfold subscript, set_item.
  destruct (dict_get String.eqb kvs key) as [v|] eqn:Hget; [|done].
  intros [= ->]. by rewrite dict_set_same.
Qed.

(** An entity record has a [mappings] key exactly when the entity has a
    mapping, and the value is then a non-empty list. *)
Lemma unstructure_Entity_mappings (e : Entity) :
  subscript (unstructure_Entity e) "mappings"
  = if is_nil (mappings e) then Raise (KeyError "mappings")
    else Ok (JList (unstructure_Mapping <$> mappings e)).
Proof.
  unfold unstructure_Entity, subscript.
  destruct (mappings e) as [|m ms], (e_metadata e) as [|[k v] md],
    (syn_term_to_synonym_terms e) as [|kv syn];
    (destruct (decide (mention_confidence e = HIGHLY_LIKELY));
     [rewrite bool_decide_eq_true_2 by done
     |rewrite bool_decide_eq_false_2 by done]); reflexivity.
Qed.

Lemma rfilter_mappings (es : list Entity) (kept : list json) :
  rfilter (λ _ent, m ← subscript _ent "mappings"; Ok (truthy m))
          (unstructure_Entity <$> es) = Ok kept →
  kept = unstructure_Entity <$> es ∧ Forall (λ e, mappings e ≠ []) es.
Proof.
  revert kept. induction es as [|e es IH]; intros kept; cbn [fmap list_fmap rfilter].
  - intros [= <-]. by split.
  - rewrite unstructure_Entity_mappings.
    destruct (mappings e) as [|m ms] eqn:Hm; [done|].
    cbn [is_nil mbind result_bind truthy fmap list_fmap negb].
    destruct (rfilter _ (unstructure_Entity <$> es)) as [ys|] eqn:Hys; [|done].
    cbn. intros [= <-]. destruct (IH ys eq_refl) as [-> Hall].
    split; [done|]. constructor; [by rewrite Hm|done].
Qed.

#[local] Arguments unstructure_Entity : simpl never.

Lemma minify_section_drop_unmapped (s : Section_) (j : json) :
  minify_section true false (unstructure_Section s) = Ok j →
  j = unstructure_Section s
  ∧ entities s ≠ []
  ∧ Forall (λ e, mappings e ≠ []) (entities s).
Proof.
  unfold minify_section, unstructure_Section.
  destruct s as [t n md es ss]. cbn [text name s_metadata entities _sentence_spans].
  destruct es as [|e es]; [by destruct md as [|[k v] md], ss|].
  set (ents := unstructure_Entity <$> e :: es).
  assert (Hsub : ∀ L : list (string * json),
    subscript (JDict ([("text", JStr t); ("name", JStr n)]
                      ++ omit_if_default (is_nil md) "metadata" (JDict md)
                      ++ [("entities", JList ents)] ++ L)) "entities"
    = Ok (JList ents)) by (intros L; by destruct md as [|[k v] md]).
  cbn [is_nil omit_if_default]. rewrite Hsub.
  cbn [mbind result_bind iterate].
  destruct (rfilter _ ents) as [kept|] eqn:Hkept; [|done].
  apply rfilter_mappings in Hkept as [-> Hall].
  cbn [mbind result_bind].
  rewrite set_item_same by apply Hsub.
  intros [= <-]. done.
Qed.

(** With [drop_unmapped_ents], minifying the record of a document either
    raises or returns the record as it is: it succeeds only when every
    section has entities and every entity has a mapping. *)
Lemma as_minified_dict_drop_unmapped (doc : Document) (j : json) :
  as_minified_dict doc true false = Ok j →
  j = unstructure_Document doc
  ∧ Forall (λ s, Forall (λ e, mappings e ≠ []) (entities s)) (sections doc).
Proof.
  unfold as_minified_dict, minify_json_dict, unstructure_Document.
  destruct doc as [ix ss md]. cbn [idx sections d_metadata orb].
  destruct ss as [|s ss]; [by destruct md as [|[k v] md]|].
  set (secs := unstructure_Section <$> s :: ss).
  cbn [is_nil omit_if_default app subscript dict_get].
  change (String.eqb "idx" "sections") with false. cbv iota.
  change (String.eqb "sections" "sections") with true. cbv iota.
  cbn [mbind result_bind].
  assert (Hmap : ∀ secs' out, rmap (minify_section true false)
                                   (unstructure_Section <$> secs') = Ok out →
            out = unstructure_Section <$> secs'
            ∧ Forall (λ s, Forall (λ e, mappings e ≠ []) (entities s)) secs').
  { induction secs' as [|x xs IH]; intros out; cbn [fmap list_fmap rmap].
    - intros [= <-]. by split.
    - destruct (minify_section true false (unstructure_Section x)) as [y|] eqn:Hy;
        [|done].
      apply minify_section_drop_unmapped in Hy as (-> & _ & Hx).
      cbn [mbind result_bind].
      destruct (rmap _ (unstructure_Section <$> xs)) as [ys|] eqn:Hys; [|done].
      cbn. intros [= <-]. destruct (IH ys eq_refl) as [-> Hxs].
      split; [done|by constructor]. }
  destruct (rmap _ secs) as [out|] eqn:Hout; [|done].
  apply Hmap in Hout as [-> Hall].
  cbn [mbind result_bind].
  rewrite set_item_same by reflexivity.
  intros [= <-]. by split.
Qed.

(** C8 on the specification's own example, a section with one mapped and
    one unmapped entity: the unmapped entity's record has no [mappings]
    key and the mapped entity's no [synonym_terms] key, so either option
    raises [KeyError], where the specification expects the minified record. *)
Theorem minify_raises_on_omitted_fields :
  mappings <$> entities two_entity_section = [[a_mapping]; []]
  ∧ as_minified_dict two_entity_doc true false = Raise (KeyError "mappings")
  ∧ as_minified_dict two_entity_doc false true
    = Raise (KeyError "synonym_terms").
Proof.
  split; [reflexivity|].
  split; vm_compute; reflexivity.
Qed.

(** * Further properties *)

(** ** Spans and entities: containment and overlap *)

(** X1: [CharSpan.is_completely_overlapped] is a partial order on spans
    (reflexive, transitive, antisymmetric), and a span with
    [start <= end] that is completely overlapped by another is also
    partially overlapped by it. *)
Theorem CharSpan_containment_order :
  (∀ a, CharSpan_is_completely_overlapped a a = true)
  ∧ (∀ a b c,
       CharSpan_is_completely_overlapped a b = true →
       CharSpan_is_completely_overlapped b c = true →
       CharSpan_is_completely_overlapped a c = true)
  ∧ (∀ a b,
       CharSpan_is_completely_overlapped a b = true →
       CharSpan_is_completely_overlapped b a = true → a = b)
  ∧ (∀ a b,
       cs_start a <= cs_end a →
       CharSpan_is_completely_overlapped a b = true →
       CharSpan_is_partially_overlapped a b = true).
Proof.
  unfold CharSpan_is_completely_overlapped, CharSpan_is_partially_overlapped.
  repeat split.
  - intros a. rewrite andb_true_iff, !Z.leb_le. lia.
  - intros a b c. rewrite !andb_true_iff, !Z.leb_le. lia.
  - intros [sa ea] [sb eb]; cbn. rewrite !andb_true_iff, !Z.leb_le.
    intros [] []. f_equal; lia.
  - intros a b Hab. rewrite orb_true_iff, !andb_true_iff, !Z.leb_le. lia.
Qed.

Lemma elements_singleton_inv `{Countable A} (X : gset A) (x : A) :
  elements X = [x] ↔ X = {[ x ]}.
Proof.
  split.
  - intros He. apply set_eq. intros y.
    by rewrite <- elem_of_elements, He, list_elem_of_singleton, elem_of_singleton.
  - intros ->. apply elements_singleton.
Qed.

(** X2: [Entity.is_partially_overlapped] holds exactly when each of the two
    entities has one span and the span of [self] is partially overlapped
    by that of [other]; it is false as soon as either entity has more (or
    fewer) than one span. *)
Theorem Entity_partial_overlap_single_span (self other : Entity) :
  (Entity_is_partially_overlapped self other = true ↔
   ∃ a b, spans self = {[ a ]} ∧ spans other = {[ b ]}
          ∧ CharSpan_is_partially_overlapped a b = true)
  ∧ (size (spans self) ≠ 1%nat ∨ size (spans other) ≠ 1%nat →
     Entity_is_partially_overlapped self other = false).
Proof.
  assert (Hiff : Entity_is_partially_overlapped self other = true ↔
    ∃ a b, spans self = {[ a ]} ∧ spans other = {[ b ]}
           ∧ CharSpan_is_partially_overlapped a b = true).
  { unfold Entity_is_partially_overlapped. split.
    - destruct (elements (spans self)) as [|a [|]] eqn:Hs; try done.
      destruct (elements (spans other)) as [|b [|]] eqn:Ho; try done.
      intros Hp. exists a, b.
      by rewrite <- !elements_singleton_inv.
    - intros (a & b & Hs & Ho & Hp).
      apply elements_singleton_inv in Hs, Ho. by rewrite Hs, Ho. }
  split; [exact Hiff|].
  intros Hsize.
  apply not_true_iff_false. intros Hp.
  apply Hiff in Hp as (a & b & Hs & Ho & _).
  rewrite Hs, Ho, !size_singleton in Hsize. by destruct Hsize.
Qed.

(** X3: [Entity.is_completely_overlapped] holds exactly when every span of
    [self] is completely overlapped by some span of [other]; it is
    reflexive and transitive. *)
Theorem Entity_complete_overlap_spanwise :
  (∀ self other,
     Entity_is_completely_overlapped self other = true ↔
     ∀ a, a ∈ spans self →
          ∃ b, b ∈ spans other ∧ CharSpan_is_completely_overlapped a b = true)
  ∧ (∀ self, Entity_is_completely_overlapped self self = true)
  ∧ (∀ e1 e2 e3,
       Entity_is_completely_overlapped e1 e2 = true →
       Entity_is_completely_overlapped e2 e3 = true →
       Entity_is_completely_overlapped e1 e3 = true).
Proof.
  assert (Hiff : ∀ self other,
    Entity_is_completely_overlapped self other = true ↔
    ∀ a, a ∈ spans self →
         ∃ b, b ∈ spans other ∧ CharSpan_is_completely_overlapped a b = true).
  { intros self other. unfold Entity_is_completely_overlapped.
    rewrite forallb_forall. split.
    - intros H a Ha.
      specialize (H a (proj1 (list_elem_of_In _ _) (proj2 (elem_of_elements _ _) Ha))).
      apply existsb_exists in H as (b & Hb & Hab).
      exists b. split; [|done].
      by apply elem_of_elements, list_elem_of_In.
    - intros H a Ha.
      apply list_elem_of_In, elem_of_elements in Ha.
      destruct (H a Ha) as (b & Hb & Hab).
      apply existsb_exists. exists b. split; [|done].
      by apply list_elem_of_In, elem_of_elements. }
  split; [exact Hiff|]. split.
  - intros self. apply Hiff. intros a Ha. exists a. split; [done|].
    unfold CharSpan_is_completely_overlapped.
    rewrite andb_true_iff, !Z.leb_le. lia.
  - intros e1 e2 e3 H12 H23. apply Hiff. intros a Ha.
    destruct (proj1 (Hiff e1 e2) H12 a Ha) as (b & Hb & Hab).
    destruct (proj1 (Hiff e2 e3) H23 b Hb) as (c & Hc & Hbc).
    exists c. split; [done|].
    revert Hab Hbc. unfold CharSpan_is_completely_overlapped.
    rewrite !andb_true_iff, !Z.leb_le. lia.
Qed.

(** ** Section: sentence spans are written once *)

(** X4: the [sentence_spans] setter succeeds exactly on a section whose
    spans were never set and a list without duplicates; the getter then
    returns that list, the other fields are as before, and every further
    write raises [AttributeError] (also after writing an empty list). *)
Theorem sentence_spans_write_once (s : Section_) (sent_spans : list CharSpan) :
  ((∃ s', set_sentence_spans s sent_spans = Ok s') ↔
   _sentence_spans s = None ∧ NoDup sent_spans)
  ∧ (∀ s', set_sentence_spans s sent_spans = Ok s' →
           sentence_spans s' = sent_spans
           ∧ text s' = text s ∧ name s' = name s
           ∧ s_metadata s' = s_metadata s ∧ entities s' = entities s
           ∧ ∀ again, set_sentence_spans s' again
                      = Raise (AttributeError "Immutable sentence_spans is already set")).
Proof.
  unfold set_sentence_spans. split.
  - destruct (_sentence_spans s) as [old|].
    + split; [by intros [s' ?]|by intros [? _]].
    + case_bool_decide as Hnd.
      * split; [done|]. intros _. by eexists.
      * split; [by intros [s' ?]|]. by intros [_ ?].
  - intros s'. destruct (_sentence_spans s) as [old|]; [done|].
    case_bool_decide; [|done]. intros [= <-]. by repeat split.
Qed.

(** ** Strings *)

Lemma append_cons (c : ascii) (a b : string) :
  String c a +:+ b = String c (a +:+ b).
Proof. reflexivity. Qed.

Lemma chars_app (a b : string) :
  list_ascii_of_string (a +:+ b)
  = list_ascii_of_string a ++ list_ascii_of_string b.
Proof.
  induction a as [|c a IH]; [done|].
  rewrite append_cons. cbn. by rewrite IH.
Qed.

Lemma chars_length (s : string) :
  length (list_ascii_of_string s) = String.length s.
Proof. induction s as [|c s IH]; simpl; [done|by f_equal]. Qed.

Lemma py_len_app (a b : string) : py_len (a +:+ b) = py_len a + py_len b.
Proof.
  unfold py_len. rewrite <- !chars_length, chars_app, length_app. lia.
Qed.

Lemma py_len_nonneg (s : string) : 0 <= py_len s.
Proof. unfold py_len. lia. Qed.

Lemma append_empty_r (s : string) : s +:+ "" = s.
Proof. induction s as [|c s IH]; [done|]. by rewrite append_cons, IH. Qed.

Lemma append_assoc (a b c : string) : (a +:+ b) +:+ c = a +:+ (b +:+ c).
Proof. induction a as [|x a IH]; [done|]. by rewrite !append_cons, IH. Qed.

(** Slicing a string at the bounds of one of its pieces gives the piece. *)
Lemma py_slice_piece (before piece after : string) :
  py_slice (before +:+ piece +:+ after) (py_len before)
           (py_len before + py_len piece) = piece.
Proof.
  unfold py_slice, slice_bound. rewrite !py_len_app.
  pose proof (py_len_nonneg before). pose proof (py_len_nonneg piece).
  pose proof (py_len_nonneg after).
  destruct (Z.ltb_spec (py_len before) 0); [lia|].
  destruct (Z.ltb_spec (py_len before + py_len piece) 0); [lia|].
  rewrite !Z.min_l by lia.
  replace (py_len before + py_len piece - py_len before) with (py_len piece) by lia.
  unfold py_len. rewrite !Nat2Z.id, !chars_app, <- !chars_length.
  rewrite drop_app_length, take_app_length.
  apply string_of_list_ascii_of_string.
Qed.

Lemma str_join_cons (sep piece : string) (rest : list string) :
  str_join sep (piece :: rest)
  = piece +:+ (if rest is [] then "" else sep +:+ str_join sep rest).
Proof. destruct rest; cbn; [by rewrite append_empty_r|done]. Qed.

(** ** Documents made from sentences *)

(** The spans that [simple_document_from_sents] gives to [sents], when the
    first sentence starts at [curr_start]. *)
Fixpoint spans_from (curr_start : Z) (sents : list string) : list CharSpan :=
  match sents with
  | [] => []
  | sent :: rest =>
      mkCharSpan curr_start (curr_start + py_len sent)
      :: spans_from (curr_start + py_len sent + 1) rest
  end.

Lemma sent_spans_fold (sents : list string) :
  ∀ acc curr_start,
    (foldl sent_spans_step (acc, curr_start) sents).1
    = acc ++ spans_from curr_start sents.
Proof.
  induction sents as [|sent rest IH]; intros acc c; cbn.
  - by rewrite app_nil_r.
  - rewrite IH, <- app_assoc. done.
Qed.

Lemma spans_from_start (sents : list string) :
  ∀ curr_start span, span ∈ spans_from curr_start sents → curr_start <= cs_start span.
Proof.
  induction sents as [|sent rest IH]; intros c span; cbn; [by intros ?%elem_of_nil|].
  intros [->|Hin]%elem_of_cons; cbn; [lia|].
  apply IH in Hin. pose proof (py_len_nonneg sent). lia.
Qed.

Lemma spans_from_NoDup (sents : list string) :
  ∀ curr_start, NoDup (spans_from curr_start sents).
Proof.
  induction sents as [|sent rest IH]; intros c; cbn; constructor; [|apply IH].
  intros Hin%spans_from_start. cbn in Hin.
  pose proof (py_len_nonneg sent). lia.
Qed.

Lemma spans_from_slices (sents : list string) :
  ∀ (before : string) (i : nat) (sent : string),
    sents !! i = Some sent →
    ∃ span, spans_from (py_len before) sents !! i = Some span
            ∧ 0 <= cs_start span
            ∧ cs_end span = cs_start span + py_len sent
            ∧ cs_end span <= py_len (before +:+ str_join " " sents)
            ∧ py_slice (before +:+ str_join " " sents)
                       (cs_start span) (cs_end span) = sent.
Proof.
  induction sents as [|x rest IH]; intros before i sent; [done|].
  rewrite str_join_cons. destruct i as [|i]; cbn [lookup list_lookup spans_from].
  - intros [= ->]. eexists. split; [done|]. cbn.
    pose proof (py_len_nonneg before).
    split; [lia|]. split; [done|]. split.
    + rewrite !py_len_app.
      pose proof (py_len_nonneg (if rest is [] then "" else " " +:+ str_join " " rest)).
      lia.
    + apply py_slice_piece.
  - intros Hi. destruct rest as [|y rest]; [done|].
    specialize (IH (before +:+ x +:+ " ") i sent Hi).
    assert (Hlen : py_len (before +:+ x +:+ " ") = py_len before + py_len x + 1).
    { rewrite !py_len_app. change (py_len " ") with 1. lia. }
    rewrite Hlen, !append_assoc in IH. exact IH.
Qed.

Section sentences.
Variable uuid4_hex : positive → string.

(** X5: [Document.simple_document_from_sents] never fails; the document
    has one section, named [na], whose text is the sentences joined by
    single spaces, and whose sentence spans are, in order, one span per
    sentence that slices exactly that sentence out of the text.  The
    length of the document is the length of that text. *)
Theorem simple_document_from_sents_spans (sents : list string) (next : positive) :
  ∃ s, simple_document_from_sents uuid4_hex sents next
       = Ok (mkDocument (uuid4_hex next) [s] [], Pos.succ next)
       ∧ text s = str_join " " sents
       ∧ name s = "na"
       ∧ entities s = []
       ∧ length (sentence_spans s) = length sents
       ∧ (∀ i sent,
            sents !! i = Some sent →
            ∃ span, sentence_spans s !! i = Some span
                    ∧ 0 <= cs_start span
                    ∧ cs_end span = cs_start span + py_len sent
                    ∧ cs_end span <= py_len (text s)
                    ∧ py_slice (text s) (cs_start span) (cs_end span) = sent)
       ∧ Document_len (mkDocument (uuid4_hex next) [s] [])
         = py_len (str_join " " sents).
Proof.
  exists (mkSection (str_join " " sents) "na" [] [] (Some (spans_from 0 sents))).
  split.
  { unfold simple_document_from_sents, set_sentence_spans.
    rewrite sent_spans_fold. cbn [app _sentence_spans].
    rewrite bool_decide_eq_true_2 by apply spans_from_NoDup.
    reflexivity. }
  do 3 (split; [reflexivity|]).
  split.
  { cbn. generalize 0. induction sents as [|x xs IH]; intros c; cbn; [done|].
    by rewrite IH. }
  split.
  - intros i sent Hi.
    destruct (spans_from_slices sents "" i sent Hi) as (span & H1 & H2 & H3 & H4 & H5).
    exists span. by repeat split.
  - cbn. lia.
Qed.

End sentences.

(** ** Entity constructors *)

Section entity_constructors.
Variable normalize : string → string → string.

(** X6: an entity that was constructed has [end >= 0], every one of its
    spans lies within [start, end] (is completely overlapped by the span
    from [start] to [end]), and its length is at least that of each of its
    spans with [start <= end]. *)
Theorem entity_bounds_cover_spans
    (id : positive) (match_ entity_class_ : string) (sp : gset CharSpan)
    (ns : string) (conf : MentionConfidence) (maps : list Mapping)
    (md : list (string * json))
    (syn : list (SynonymTermWithMetrics * SynonymTermWithMetrics)) (e : Entity) :
  Entity_init normalize id match_ entity_class_ sp ns conf maps md syn = Ok e →
  0 <= e_end e
  ∧ (∀ s, s ∈ spans e →
          CharSpan_is_completely_overlapped
            s (mkCharSpan (e_start e) (e_end e)) = true)
  ∧ (∀ s, s ∈ spans e → cs_start s <= cs_end s →
          cs_end s - cs_start s <= Entity_len e).
Proof.
  unfold Entity_init, calc_starts_and_ends.
  pose proof (calc_fold_spec (elements sp) inf 0) as (H0 & Hub & _ & Hst).
  destruct (foldl calc_step (inf, 0) (elements sp)) as [[|m] en]; cbn in *;
    [discriminate|].
  intros [= <-]; cbn. destruct Hst as (Hlb & _ & _).
  split; [done|].
  assert (Hin : ∀ s, s ∈ sp → m <= cs_start s ∧ cs_end s <= en).
  { intros s Hs%elem_of_elements. split; [by apply Hlb|by apply Hub]. }
  split.
  - intros s Hs. destruct (Hin s Hs).
    unfold CharSpan_is_completely_overlapped. cbn.
    rewrite andb_true_iff, !Z.leb_le. lia.
  - intros s Hs Hle. destruct (Hin s Hs). unfold Entity_len. cbn. lia.
Qed.

(** X7: [Entity.load_contiguous_entity] never fails: the entity has the
    one span given, [start] as given and [end] the greater of the given
    end and 0.  [Entity.from_spans] raises [ValueError] on an empty list of
    spans and succeeds on any other; the entity's [match] is the slices of
    the text joined by the separator, and its spans are those listed. *)
Theorem entity_constructors_total :
  (∀ id start end_ match_ entity_class_ ns,
     ∃ e, load_contiguous_entity normalize id start end_ match_ entity_class_ ns
          = Ok e
          ∧ obj_id e = id ∧ e_match e = match_
          ∧ spans e = {[ mkCharSpan start end_ ]}
          ∧ e_start e = start ∧ e_end e = Z.max end_ 0
          ∧ mappings e = [])
  ∧ (∀ id text_ join_str entity_class_ ns,
       from_spans normalize id [] text_ join_str entity_class_ ns
       = Raise (ValueError "spans are not valid"))
  ∧ (∀ id span span_list text_ join_str entity_class_ ns,
       ∃ e, from_spans normalize id (span :: span_list) text_ join_str
                       entity_class_ ns = Ok e
            ∧ e_match e
              = str_join join_str
                  ((λ p, py_slice text_ p.1 p.2) <$> span :: span_list)
            ∧ ∀ s, s ∈ spans e ↔ (cs_start s, cs_end s) ∈ span :: span_list).
Proof.
  split; [|split].
  - intros id start end_ m c ns.
    unfold load_contiguous_entity, Entity_init, calc_starts_and_ends.
    rewrite elements_singleton. cbn.
    eexists. split; [reflexivity|]. cbn. repeat split.
    destruct (Z.ltb_spec 0 end_); lia.
  - intros. reflexivity.
  - intros id span span_list text_ j c ns. unfold from_spans, Entity_init.
    destruct (calc_starts_and_ends_nonempty
                (list_to_set ((λ p, mkCharSpan p.1 p.2) <$> span :: span_list)))
      as [[st en] ->].
    { cbn. set_solver. }
    cbn. eexists. split; [reflexivity|]. cbn. split; [done|].
    intros [s e]. cbn. rewrite elem_of_union, elem_of_singleton.
    rewrite elem_of_list_to_set, elem_of_cons, list_elem_of_fmap.
    destruct span as [a b]; cbn. split.
    + intros [[= -> ->]|([a' b'] & [= -> ->] & Hin)]; [by left|by right].
    + intros [[= -> ->]|Hin]; [by left|]. right. by exists (s, e).
Qed.

End entity_constructors.

Lemma entity_bounds_cover_spans_witness :
  0 <= e_end lung_cancer
  ∧ (∀ s, s ∈ spans lung_cancer →
          CharSpan_is_completely_overlapped
            s (mkCharSpan (e_start lung_cancer) (e_end lung_cancer)) = true)
  ∧ (∀ s, s ∈ spans lung_cancer → cs_start s <= cs_end s →
          cs_end s - cs_start s <= Entity_len lung_cancer).
Proof.
  apply (entity_bounds_cover_spans (λ s _, s) 7%positive "lung cancer"
           "disease" {[ mkCharSpan 0 4; mkCharSpan 15 21 ]} "ns"
           HIGHLY_LIKELY [] [] [] lung_cancer).
  reflexivity.
Defined.

(** ** ParserAction and GlobalParserActions *)

Lemma rmap_Ok_inv {A B : Type} (f : A → result B) (xs : list A) (ys : list B) :
  rmap f xs = Ok ys → ∀ x, x ∈ xs → ∃ y, f x = Ok y.
Proof.
  revert ys. induction xs as [|x xs IH]; intros ys Hr x' Hx'.
  - by apply elem_of_nil in Hx'.
  - cbn in Hr. destruct (f x) as [y|e] eqn:Hx; [|discriminate]. cbn in Hr.
    destruct (rmap f xs) as [ys'|e] eqn:Hxs; [|discriminate].
    apply elem_of_cons in Hx' as [->|Hx']; [by eexists|]. by eapply IH.
Qed.

Lemma ParserAction_post_init_nonempty (self : ParserAction) :
  ParserAction_post_init self = Ok () → parser_to_target_id_mappings self ≠ ∅.
Proof.
  unfold ParserAction_post_init. case_bool_decide as Hsize; [done|].
  intros _. by rewrite <- map_size_empty_iff.
Qed.

(** X8: [ParserAction.__post_init__] accepts an action exactly when it
    names at least one parser and gives every parser it names at least one
    id; any other action is refused with a [ValueError]. *)
Theorem ParserAction_post_init_valid (self : ParserAction) :
  (ParserAction_post_init self = Ok ()
   ↔ parser_to_target_id_mappings self ≠ ∅
     ∧ ∀ parser_name ids,
         parser_to_target_id_mappings self !! parser_name = Some ids → ids ≠ ∅)
  ∧ (∀ e, ParserAction_post_init self = Raise e → ∃ msg, e = ValueError msg).
Proof.
  unfold ParserAction_post_init.
  set (check := λ item : string * gset string,
         if bool_decide (size item.2 = 0%nat)
         then Raise (ValueError "at least one ID must be specified for key")
         else Ok ()).
  assert (Hcheck : ∀ item e, check item = Raise e → ∃ msg, e = ValueError msg).
  { intros item e. unfold check. case_bool_decide; [|done].
    intros [= <-]. by eexists. }
  assert (Hraise : ∀ items e, rmap check items = Raise e →
                              ∃ msg, e = ValueError msg).
  { induction items as [|item items IH]; intros e; cbn; [done|].
    destruct (check item) as [[]|e'] eqn:Hi; cbn.
    - destruct (rmap check items) as [ys|e'']; cbn; [done|].
      intros [= <-]. by apply IH.
    - intros [= <-]. by eapply Hcheck. }
  case_bool_decide as Hsize.
  - apply map_size_empty_iff in Hsize. split.
    + split; [done|]. by intros [? _].
    + intros e [= <-]. by eexists.
  - assert (Hne : parser_to_target_id_mappings self ≠ ∅).
    { by rewrite <- map_size_empty_iff. }
    split.
    + split.
      * intros Hok. split; [done|]. intros p ids Hp.
        destruct (rmap check (map_to_list (parser_to_target_id_mappings self)))
          as [ys|e] eqn:Hr; [|discriminate].
        destruct (rmap_Ok_inv _ _ _ Hr (p, ids)) as [[] Hc].
        { by apply elem_of_map_to_list. }
        unfold check in Hc. cbn in Hc. case_bool_decide as Hs; [done|].
        intros ->. by rewrite size_empty in Hs.
      * intros [_ Hids].
        destruct (rmap_Ok check
                    (map_to_list (parser_to_target_id_mappings self)))
          as [ys ->]; [|done].
        intros [p ids] Hin%elem_of_map_to_list. exists ().
        unfold check. cbn. case_bool_decide as Hs; [|done].
        apply size_empty_iff in Hs. apply leibniz_equiv in Hs.
        by apply Hids in Hin.
    + intros e.
      destruct (rmap check (map_to_list (parser_to_target_id_mappings self)))
        as [ys|e'] eqn:Hr; cbn; [done|].
      intros [= <-]. by eapply Hraise.
Qed.

Lemma append_actions_lookup (action : ParserAction) (keys : list string)
    (index : gmap string (list ParserAction)) (parser_name : string) :
  NoDup keys →
  default [] (foldl (λ index parser_name, append_action index action parser_name)
                    index keys !! parser_name)
  = default [] (index !! parser_name)
    ++ (if decide (parser_name ∈ keys) then [action] else []).
Proof.
  revert index. induction keys as [|k keys IH]; intros index Hnd; cbn.
  - rewrite decide_False by apply not_elem_of_nil. by rewrite app_nil_r.
  - apply NoDup_cons in Hnd as [Hk Hnd]. rewrite IH by done.
    unfold append_action. destruct (decide (k = parser_name)) as [->|Hne].
    + rewrite lookup_insert_eq. cbn.
      rewrite decide_False by done. rewrite decide_True by left.
      by rewrite app_nil_r.
    + rewrite lookup_insert_ne by done. f_equal.
      destruct (decide (parser_name ∈ keys)) as [Hin|Hin].
      * rewrite decide_True; [done|by right].
      * rewrite decide_False; [done|].
        intros [->|?]%elem_of_cons; done.
Qed.

Lemma index_actions_lookup (actions : list ParserAction)
    (index : gmap string (list ParserAction)) (parser_name : string) :
  default []
    (foldl (λ index action,
              foldl (λ index parser_name, append_action index action parser_name)
                    index (map_to_list (parser_to_target_id_mappings action)).*1)
           index actions !! parser_name)
  = default [] (index !! parser_name)
    ++ filter (λ action,
                 is_Some (parser_to_target_id_mappings action !! parser_name))
              actions.
Proof.
  revert index. induction actions as [|a actions IH]; intros index; cbn [foldl].
  - by rewrite filter_nil, app_nil_r.
  - rewrite IH, append_actions_lookup by apply NoDup_fst_map_to_list.
    rewrite <- app_assoc. f_equal.
    rewrite filter_cons.
    destruct (decide (parser_name ∈ (map_to_list (parser_to_target_id_mappings a)).*1))
      as [Hin|Hin].
    + rewrite decide_True; [done|].
      apply list_elem_of_fmap in Hin as ([k v] & -> & Hin).
      apply elem_of_map_to_list in Hin. by eexists.
    + rewrite decide_False; [done|]. intros [v Hv]. apply Hin.
      apply list_elem_of_fmap. exists (parser_name, v). split; [done|].
      by apply elem_of_map_to_list.
Qed.

(** X9: the actions [GlobalParserActions.parser_behaviour] yields for a
    parser are exactly the actions that name the parser, in the order they
    were given; a parser no action names yields nothing, and every action
    that [ParserAction.__post_init__] accepted is yielded for some
    parser. *)
Theorem parser_behaviour_selects_actions (actions : list ParserAction) :
  (∀ parser_name,
     parser_behaviour (GlobalParserActions_init actions) parser_name
     = filter (λ action,
                 is_Some (parser_to_target_id_mappings action !! parser_name))
              actions)
  ∧ (∀ parser_name,
       (∀ action, action ∈ actions →
                  parser_to_target_id_mappings action !! parser_name = None) →
       parser_behaviour (GlobalParserActions_init actions) parser_name = [])
  ∧ (∀ action, action ∈ actions → ParserAction_post_init action = Ok () →
       ∃ parser_name,
         action ∈ parser_behaviour (GlobalParserActions_init actions)
                                   parser_name).
Proof.
  assert (Hsel : ∀ parser_name,
     parser_behaviour (GlobalParserActions_init actions) parser_name
     = filter (λ action,
                 is_Some (parser_to_target_id_mappings action !! parser_name))
              actions).
  { intros p. unfold parser_behaviour, GlobalParserActions_init. cbn.
    rewrite index_actions_lookup. by rewrite lookup_empty. }
  split; [done|]. split.
  - intros p Hnone. rewrite Hsel. clear Hsel.
    induction actions as [|a actions IH]; [by rewrite filter_nil|].
    rewrite filter_cons, decide_False.
    + apply IH. intros a' Ha'. apply Hnone. by right.
    + rewrite Hnone by left. by intros [? ?].
  - intros a Ha Hok.
    apply ParserAction_post_init_nonempty in Hok as Hne.
    apply map_choose in Hne as (p & ids & Hp). exists p.
    rewrite Hsel. apply list_elem_of_filter. split; [by eexists|done].
Qed.

(** ** CuratedTerm *)

Section curated_term.
Variable normalize : string → string → string.

(** X10: [CuratedTerm.term_norm_for_linking] returns a norm exactly when
    the term has an original form and all its original forms normalise to
    that one string; in every other case it raises [RuntimeError]: for no
    original form at all, and for two that normalise differently. *)
Theorem term_norm_for_linking_unique_norm (self : CuratedTerm)
    (entity_class_ : string) :
  (∀ term_norm,
     term_norm_for_linking normalize self entity_class_ = Ok term_norm
     ↔ original_forms self ≠ ∅
       ∧ ∀ form, form ∈ original_forms self →
                 normalize (mf_string form) entity_class_ = term_norm)
  ∧ (∀ e, term_norm_for_linking normalize self entity_class_ = Raise e →
          ∃ msg, e = RuntimeError msg)
  ∧ (∀ form1 form2,
       form1 ∈ original_forms self → form2 ∈ original_forms self →
       normalize (mf_string form1) entity_class_
       ≠ normalize (mf_string form2) entity_class_ →
       ∃ msg, term_norm_for_linking normalize self entity_class_
              = Raise (RuntimeError msg)).
Proof.
  unfold term_norm_for_linking.
  set (norms := set_map (λ form, normalize (mf_string form) entity_class_)
                        (original_forms self) : gset string).
  assert (Hiff : ∀ term_norm,
            elements norms = [term_norm]
            ↔ original_forms self ≠ ∅
              ∧ ∀ form, form ∈ original_forms self →
                        normalize (mf_string form) entity_class_ = term_norm).
  { intros n. rewrite elements_singleton_inv. unfold norms. split.
    - intros Heq. split.
      + intros Hempty. rewrite Hempty, set_map_empty in Heq.
        assert (n ∈ (∅ : gset string)) as Hn by (rewrite Heq; set_solver).
        set_solver.
      + intros form Hform.
        assert (normalize (mf_string form) entity_class_
                ∈ ({[ n ]} : gset string)) as Hn.
        { rewrite <- Heq. apply elem_of_map. by exists form. }
        by apply elem_of_singleton in Hn.
    - intros [Hne Hall]. apply set_eq. intros x.
      rewrite elem_of_map, elem_of_singleton. split.
      + intros (form & -> & Hform). by apply Hall.
      + intros ->. apply set_choose_L in Hne as [form Hform].
        exists form. split; [by rewrite Hall|done]. }
  split; [|split].
  - intros n. rewrite <- Hiff.
    destruct (elements norms) as [|n' [|n'' rest]]; split; try done.
    + by intros [= ->].
    + by intros [= ->].
  - intros e. destruct (elements norms) as [|n' [|n'' rest]]; try done.
    all: intros [= <-]; by eexists.
  - intros form1 form2 H1 H2 Hne.
    destruct (elements norms) as [|n' [|n'' rest]]; try by eexists.
    destruct (Hiff n') as [Hall _]. destruct (Hall eq_refl) as [_ Hn'].
    by rewrite (Hn' form1), (Hn' form2) in Hne.
Qed.

End curated_term.

(** X11: [CuratedTerm.__post_init__] refuses a term exactly when it has no
    original form, with a [ValueError]; whatever the forms, their case
    sensitivity and their confidences, it never raises the [RuntimeError]
    of a case sensitive conflict. *)
Theorem CuratedTerm_post_init_only_checks_forms (self : CuratedTerm) :
  (CuratedTerm_post_init self = Ok () ↔ original_forms self ≠ ∅)
  ∧ (∀ e, CuratedTerm_post_init self = Raise e →
          original_forms self = ∅ ∧ ∃ msg, e = ValueError msg).
Proof.
  rewrite CuratedTerm_post_init_never_conflicts.
  case_bool_decide as Hsize.
  - apply size_empty_iff in Hsize. apply leibniz_equiv in Hsize. split.
    + split; [done|]. intros Hne. by destruct Hne.
    + intros e [= <-]. split; [done|by eexists].
  - split; [|done]. split; [|done]. intros _ Hempty.
    apply Hsize. by rewrite Hempty, size_empty.
Qed.

(** ** Merging the metrics of synonym terms *)

Lemma replace_metric_assoc {A : Type} (a b c : option A) :
  replace_metric c (replace_metric b a) = replace_metric (replace_metric c b) a.
Proof. by destruct c. Qed.

Lemma merge_metrics_assoc (a b c : SynonymTermWithMetrics) :
  merge_metrics (merge_metrics a b) c = merge_metrics a (merge_metrics b c).
Proof. unfold merge_metrics. cbn. by rewrite !replace_metric_assoc. Qed.

(** X12: [SynonymTermWithMetrics.merge_metrics] keeps every field of
    [self] but the four metrics; a metric the incoming term leaves at
    [None] never erases the one [self] has, and a term with no metric at
    all changes nothing.  Merging is associative, so merging two terms one
    after the other is merging their merge, and merging the same term twice
    is merging it once. *)
Theorem merge_metrics_laws (self t1 t2 : SynonymTermWithMetrics) :
  compare_fields (merge_metrics self t1) = compare_fields self
  ∧ aggregated_by (merge_metrics self t1) = aggregated_by self
  ∧ (is_Some (search_score self) → is_Some (search_score (merge_metrics self t1)))
  ∧ (is_Some (embed_score self) → is_Some (embed_score (merge_metrics self t1)))
  ∧ (is_Some (bool_score self) → is_Some (bool_score (merge_metrics self t1)))
  ∧ (is_Some (exact_match self) → is_Some (exact_match (merge_metrics self t1)))
  ∧ (search_score t1 = None → embed_score t1 = None → bool_score t1 = None →
     exact_match t1 = None → merge_metrics self t1 = self)
  ∧ merge_metrics (merge_metrics self t1) t2
    = merge_metrics self (merge_metrics t1 t2)
  ∧ merge_metrics (merge_metrics self t1) t1 = merge_metrics self t1.
Proof.
  split; [done|]. split; [done|].
  do 4 (split; [cbn; destruct 1; unfold replace_metric; by case_match|]).
  split.
  - intros H1 H2 H3 H4. destruct self. unfold merge_metrics. cbn.
    by rewrite H1, H2, H3, H4.
  - split; [apply merge_metrics_assoc|].
    unfold merge_metrics. cbn.
    by destruct (search_score t1), (embed_score t1), (bool_score t1),
                (exact_match t1).
Qed.

Section pydict_set_facts.
Context {K V : Type} (keq : K → K → bool).
Hypothesis keq_refl : ∀ k, keq k k = true.
Hypothesis keq_sym : ∀ k1 k2, keq k1 k2 = keq k2 k1.
Hypothesis keq_trans : ∀ k1 k2 k3,
  keq k1 k2 = true → keq k2 k3 = true → keq k1 k3 = true.

(** Assigning twice to a key is assigning the second value. *)
Lemma dict_set_set (d : list (K * V)) (k k' : K) (v v' : V) :
  keq k k' = true → dict_set keq (dict_set keq d k v) k' v' = dict_set keq d k v'.
Proof.
  intros H. induction d as [|[k0 v0] d IH]; cbn.
  - by rewrite H.
  - destruct (keq k0 k) eqn:H0; cbn.
    + by rewrite (keq_trans k0 k k' H0 H).
    + rewrite <- (keq_congr keq keq_sym keq_trans k k' k0 H), H0. by rewrite IH.
Qed.

(** Assigning to a key the dictionary has keeps the key it has. *)
Lemma dict_set_key_congr (d : list (K * V)) (k k' : K) (v : V) :
  keq k k' = true → dict_get keq d k ≠ None →
  dict_set keq d k v = dict_set keq d k' v.
Proof.
  intros H. induction d as [|[k0 v0] d IH]; cbn; [done|].
  rewrite (keq_congr keq keq_sym keq_trans k k' k0 H).
  destruct (keq k0 k'); [done|]. intros Hd. by rewrite IH.
Qed.

Lemma dict_get_set_is_Some (d : list (K * V)) (k k' : K) (v : V) :
  is_Some (dict_get keq d k') → is_Some (dict_get keq (dict_set keq d k v) k').
Proof.
  induction d as [|[k0 v0] d IH]; cbn; [by intros [? ?]|].
  destruct (keq k0 k) eqn:H0; cbn.
  - destruct (keq k0 k'); [by eexists|done].
  - destruct (keq k0 k'); [by eexists|apply IH].
Qed.

Lemma dict_set_length_le (d : list (K * V)) (k : K) (v : V) :
  (length d ≤ length (dict_set keq d k v) ≤ S (length d))%nat.
Proof.
  induction d as [|[k0 v0] d IH]; cbn; [lia|].
  destruct (keq k0 k); cbn; lia.
Qed.

End pydict_set_facts.

Lemma update_term_is_Some
    (store : list (SynonymTermWithMetrics * SynonymTermWithMetrics))
    (term key : SynonymTermWithMetrics) :
  is_Some (dict_get SynonymTermWithMetrics_eq store key) →
  is_Some (dict_get SynonymTermWithMetrics_eq (update_term store term) key).
Proof.
  unfold update_term.
  destruct (dict_get SynonymTermWithMetrics_eq store term);
    apply dict_get_set_is_Some.
Qed.

Lemma update_term_length
    (store : list (SynonymTermWithMetrics * SynonymTermWithMetrics))
    (term : SynonymTermWithMetrics) :
  (length store ≤ length (update_term store term) ≤ S (length store))%nat.
Proof.
  unfold update_term.
  destruct (dict_get SynonymTermWithMetrics_eq store term);
    apply dict_set_length_le.
Qed.

(** X13: [Entity.update_terms] never drops a term: every key the store
    held is still held, the term of each incoming key is held, and the
    store grows by at most one entry for each incoming term. *)
Theorem update_terms_keeps_terms (self : Entity)
    (new_terms : list SynonymTermWithMetrics) :
  let store := syn_term_to_synonym_terms self in
  let store' := syn_term_to_synonym_terms (update_terms self new_terms) in
  (∀ key, is_Some (dict_get SynonymTermWithMetrics_eq store key) →
          is_Some (dict_get SynonymTermWithMetrics_eq store' key))
  ∧ (∀ term, term ∈ new_terms →
             is_Some (dict_get SynonymTermWithMetrics_eq store' term))
  ∧ (length store ≤ length store' ≤ length store + length new_terms)%nat.
Proof.
  cbn. generalize (syn_term_to_synonym_terms self).
  induction new_terms as [|t ts IH]; intros store; cbn [foldl].
  - split; [done|]. split; [by intros ? ?%elem_of_nil|cbn; lia].
  - destruct (IH (update_term store t)) as (Hold & Hnew & Hlen).
    split; [|split].
    + intros key Hkey. by apply Hold, update_term_is_Some.
    + intros term [->|Hin]%elem_of_cons; [|by apply Hnew].
      apply Hold.
      destruct (dict_get SynonymTermWithMetrics_eq store t) as [ex|] eqn:Hget.
      * apply update_term_is_Some. by rewrite Hget.
      * unfold update_term. rewrite Hget.
        erewrite dict_get_set_eq; [by eexists| | |].
        -- apply SynonymTermWithMetrics_eq_sym.
        -- apply SynonymTermWithMetrics_eq_trans.
        -- apply SynonymTermWithMetrics_eq_refl.
    + pose proof (update_term_length store t). cbn [length]. lia.
Qed.

(** X14: two incoming terms of one key compose: on a well-formed store,
    [update_terms] with a term and then with a second term that compares
    equal to it leaves the same terms as [update_terms] with the merge of
    the two; so an incoming term that is repeated changes nothing the
    second time. *)
Theorem update_terms_composes (self : Entity) (t1 t2 : SynonymTermWithMetrics) :
  store_wf (syn_term_to_synonym_terms self) →
  SynonymTermWithMetrics_eq t1 t2 = true →
  dict_values (syn_term_to_synonym_terms (update_terms self [t1; t2]))
  = dict_values (syn_term_to_synonym_terms
                   (update_terms self [merge_metrics t1 t2]))
  ∧ syn_term_to_synonym_terms (update_terms self [t1; t1])
    = syn_term_to_synonym_terms (update_terms self [t1]).
Proof.
  intros [Hwf Hself] H12. cbn.
  set (store := syn_term_to_synonym_terms self) in *.
  pose proof SynonymTermWithMetrics_eq_refl as Hr.
  pose proof SynonymTermWithMetrics_eq_sym as Hs.
  pose proof SynonymTermWithMetrics_eq_trans as Ht.
  assert (Hstep : ∀ t t',
    SynonymTermWithMetrics_eq t t' = true →
    update_term (update_term store t) t'
    = match dict_get SynonymTermWithMetrics_eq store t with
      | Some ex =>
          dict_set SynonymTermWithMetrics_eq store
                   (merge_metrics ex (merge_metrics t t'))
                   (merge_metrics ex (merge_metrics t t'))
      | None => store ++ [(t, merge_metrics t t')]
      end).
  { intros t t' Htt'. unfold update_term at 2.
    destruct (dict_get SynonymTermWithMetrics_eq store t) as [ex|] eqn:Hget.
    - assert (Hex : SynonymTermWithMetrics_eq ex t = true)
        by (by apply dict_get_self_keyed with store).
      assert (Hm1 : SynonymTermWithMetrics_eq (merge_metrics ex t) t' = true).
      { apply Ht with ex; [apply merge_metrics_eq|]. by apply Ht with t. }
      unfold update_term. rewrite (dict_get_set_eq _ Hs Ht) by done.
      rewrite (dict_set_set _ Hs Ht).
      2:{ rewrite Hs. apply merge_metrics_eq. }
      rewrite merge_metrics_assoc.
      apply (dict_set_key_congr _ Hs Ht).
      + by apply bool_decide_eq_true.
      + rewrite (dict_get_congr _ Hs Ht store _ t), Hget; [done|].
        apply Ht with ex; [apply merge_metrics_eq|done].
    - unfold update_term. rewrite (dict_get_set_eq _ Hs Ht) by done.
      rewrite (dict_set_set _ Hs Ht).
      2:{ rewrite Hs. apply merge_metrics_eq. }
      rewrite (dict_set_new _ store t) by done. done. }
  split.
  - rewrite Hstep by done. unfold update_term.
    rewrite (dict_get_congr _ Hs Ht store (merge_metrics t1 t2) t1)
      by apply merge_metrics_eq.
    destruct (dict_get SynonymTermWithMetrics_eq store t1) as [ex|] eqn:Hget.
    + done.
    + rewrite (dict_set_new _ store (merge_metrics t1 t2)).
      * unfold dict_values. by rewrite !fmap_app.
      * rewrite (dict_get_congr _ Hs Ht store (merge_metrics t1 t2) t1)
          by apply merge_metrics_eq. done.
  - rewrite Hstep by done. unfold update_term.
    assert (Hidem : merge_metrics t1 t1 = t1).
    { destruct t1 as [? ? ? ? ? ? ? [] [] [] []]; reflexivity. }
    rewrite Hidem.
    destruct (dict_get SynonymTermWithMetrics_eq store t1) as [ex|] eqn:Hget.
    + done.
    + by rewrite (dict_set_new _ store t1).
Qed.

Lemma update_terms_composes_witness :
  dict_values (syn_term_to_synonym_terms
                 (update_terms twin_1 [term_a; term_a_scored]))
  = dict_values (syn_term_to_synonym_terms
                   (update_terms twin_1 [merge_metrics term_a term_a_scored]))
  ∧ syn_term_to_synonym_terms (update_terms twin_1 [term_a; term_a])
    = syn_term_to_synonym_terms (update_terms twin_1 [term_a]).
Proof.
  apply (update_terms_composes twin_1 term_a term_a_scored).
  - split; [exact I|constructor].
  - reflexivity.
Defined.

(** ** Reading records back *)

(** X15: [Mapping.from_dict] and [SynonymTermWithMetrics.from_dict] read
    back what the converter wrote: the record of a mapping or of a term
    gives that mapping or term again, whatever its optional fields hold, so
    two values with the same record are equal. *)
Theorem value_records_round_trip :
  (∀ m, Mapping_from_dict (unstructure_Mapping m) = Ok m)
  ∧ (∀ t, SynonymTermWithMetrics_from_dict (unstructure_SynonymTermWithMetrics t)
          = Ok t)
  ∧ (∀ m1 m2, unstructure_Mapping m1 = unstructure_Mapping m2 → m1 = m2)
  ∧ (∀ t1 t2, unstructure_SynonymTermWithMetrics t1
              = unstructure_SynonymTermWithMetrics t2 → t1 = t2).
Proof.
  split; [apply structure_Mapping_unstructure|].
  split; [apply structure_SynonymTermWithMetrics_unstructure|].
  split.
  - intros m1 m2 Heq.
    pose proof (structure_Mapping_unstructure m1) as H1.
    rewrite Heq, structure_Mapping_unstructure in H1. congruence.
  - intros t1 t2 Heq.
    pose proof (structure_SynonymTermWithMetrics_unstructure t1) as H1.
    rewrite Heq, structure_SynonymTermWithMetrics_unstructure in H1. congruence.
Qed.

Section from_dict.
Variable normalize : string → string → string.

(** X16: [Entity.from_dict] and [Section.from_dict] read back the record
    of a well-formed entity or section: the entity read is a new object
    (its identity is the next fresh one) with the fields of the original,
    and the section read has the original's text, name, metadata, sentence
    spans and entities. *)
Theorem entity_and_section_from_dict (e : Entity) (s : Section_)
    (next : positive) :
  Entity_wf e → Forall Entity_wf (entities s) →
  (∃ e', Entity_from_dict normalize (unstructure_Entity e) next
         = Ok (e', Pos.succ next)
         ∧ obj_id e' = next ∧ Entity_same e e')
  ∧ (∃ s' next', Section_from_dict normalize (unstructure_Section s) next
                 = Ok (s', next')
                 ∧ Section_same s s').
Proof.
  intros He Hs. split.
  - by apply structure_Entity_unstructure.
  - by apply structure_Section_unstructure.
Qed.

End from_dict.

Lemma entity_and_section_from_dict_witness :
  (∃ e', Entity_from_dict (λ s _, lower s) (unstructure_Entity scored_entity)
           10%positive
         = Ok (e', 11%positive)
         ∧ obj_id e' = 10%positive ∧ Entity_same scored_entity e')
  ∧ (∃ s' next',
       Section_from_dict (λ s _, lower s)
         (unstructure_Section
            (mkSection "BRCA1 gene" "abstract" [] [scored_entity] None))
         10%positive
       = Ok (s', next')
       ∧ Section_same
           (mkSection "BRCA1 gene" "abstract" [] [scored_entity] None) s').
Proof.
  assert (Hwf : Entity_wf scored_entity).
  { split; [apply (non_empty_singleton_L (C:=gset CharSpan) (mkCharSpan 0 5))|].
    split; [apply NoDup_singleton|].
    apply (update_terms_wf _ [term_a; term_b; term_a_scored]).
    split; [exact I|constructor]. }
  apply (entity_and_section_from_dict (λ s _, lower s) scored_entity
           (mkSection "BRCA1 gene" "abstract" [] [scored_entity] None)
           10%positive).
  - exact Hwf.
  - constructor; [exact Hwf|constructor].
Defined.

(** ** Minification with [drop_unmapped_ents] *)

#[local] Arguments unstructure_Entity : simpl never.

Lemma rfilter_mappings_Ok (es : list Entity) :
  Forall (λ e, mappings e ≠ []) es →
  rfilter (λ _ent, m ← subscript _ent "mappings"; Ok (truthy m))
          (unstructure_Entity <$> es) = Ok (unstructure_Entity <$> es).
Proof.
  induction 1 as [|e es He _ IH]; cbn [fmap list_fmap rfilter]; [done|].
  rewrite unstructure_Entity_mappings.
  destruct (mappings e) as [|m ms] eqn:Hm; [done|].
  cbn [is_nil mbind result_bind truthy fmap list_fmap negb].
  by rewrite IH.
Qed.

Lemma unstructure_Section_entities (s : Section_) :
  subscript (unstructure_Section s) "entities"
  = if is_nil (entities s) then Raise (KeyError "entities")
    else Ok (JList (unstructure_Entity <$> entities s)).
Proof.
  unfold unstructure_Section, subscript.
  by destruct (entities s) as [|e es], (s_metadata s) as [|[k v] md],
    (_sentence_spans s).
Qed.

Lemma minify_section_drop_unmapped_Ok (s : Section_) :
  entities s ≠ [] → Forall (λ e, mappings e ≠ []) (entities s) →
  minify_section true false (unstructure_Section s) = Ok (unstructure_Section s).
Proof.
  intros Hne Hall. unfold minify_section.
  rewrite unstructure_Section_entities.
  destruct (entities s) as [|e es] eqn:Hes; [done|].
  cbn [is_nil mbind result_bind iterate].
  rewrite rfilter_mappings_Ok by done. cbn [mbind result_bind].
  destruct (unstructure_Section s) as [| | | | | |kvs] eqn:Hrec; try done.
  pose proof (unstructure_Section_entities s) as Hsub.
  rewrite Hrec, Hes in Hsub. cbn [is_nil] in Hsub.
  by apply set_item_same.
Qed.

Lemma unstructure_Document_sections (doc : Document) :
  subscript (unstructure_Document doc) "sections"
  = if is_nil (sections doc) then Raise (KeyError "sections")
    else Ok (JList (unstructure_Section <$> sections doc)).
Proof.
  unfold unstructure_Document, subscript.
  by destruct (sections doc) as [|s ss], (d_metadata doc) as [|[k v] md].
Qed.

#[local] Arguments unstructure_Section : simpl never.
#[local] Arguments unstructure_Document : simpl never.
#[local] Arguments minify_section : simpl never.

(** The document has a section, every section has an entity, and every
    entity has a mapping. *)
Definition all_entities_mapped (doc : Document) : Prop :=
  sections doc ≠ []
  ∧ Forall (λ s, entities s ≠ []
                 ∧ Forall (λ e, mappings e ≠ []) (entities s))
           (sections doc).

(** X17: with [drop_unmapped_ents] alone, [Document.as_minified_dict] never
    drops an entity.  It returns a record exactly when the document has a
    section, every section has an entity and every entity has a mapping,
    and the record is then the plain one; for every other document it
    raises. *)
Theorem as_minified_dict_drop_unmapped_never_drops (doc : Document) :
  (∀ j, as_minified_dict doc true false = Ok j
        ↔ j = unstructure_Document doc ∧ all_entities_mapped doc)
  ∧ (¬ all_entities_mapped doc →
     ∃ e, as_minified_dict doc true false = Raise e).
Proof.
  set (complete := all_entities_mapped doc). unfold all_entities_mapped in complete.
  pose proof (unstructure_Document_sections doc) as Hsub.
  assert (Hnil : is_nil (sections doc) = false → sections doc ≠ []).
  { by destruct (sections doc). }
  assert (Hfwd : ∀ j, as_minified_dict doc true false = Ok j →
                      j = unstructure_Document doc ∧ complete).
  { intros j. unfold as_minified_dict, minify_json_dict. cbn [orb].
    rewrite Hsub.
    destruct (is_nil (sections doc)) eqn:Hn; [done|].
    cbn [mbind result_bind].
    assert (Hmap : ∀ secs out,
              rmap (minify_section true false) (unstructure_Section <$> secs)
              = Ok out →
              out = unstructure_Section <$> secs
              ∧ Forall (λ s, entities s ≠ []
                             ∧ Forall (λ e, mappings e ≠ []) (entities s)) secs).
    { induction secs as [|x xs IH]; intros out; cbn [fmap list_fmap rmap].
      - intros [= <-]. by split.
      - destruct (minify_section true false (unstructure_Section x))
          as [y|] eqn:Hy; [|done].
        apply minify_section_drop_unmapped in Hy as (-> & Hne & Hx).
        cbn [mbind result_bind].
        destruct (rmap _ (unstructure_Section <$> xs)) as [ys|] eqn:Hys; [|done].
        cbn. intros [= <-]. destruct (IH ys eq_refl) as [-> Hxs].
        split; [done|by constructor]. }
    destruct (rmap (minify_section true false)
                   (unstructure_Section <$> sections doc)) as [out|] eqn:Hout;
      [|done].
    apply Hmap in Hout as [-> Hall]. cbn [mbind result_bind].
    destruct (unstructure_Document doc) as [| | | | | |kvs] eqn:Hrec; try done.
    rewrite set_item_same by done. intros [= <-].
    split; [done|]. split; [by apply Hnil|done]. }
  assert (Hbwd : complete →
                 as_minified_dict doc true false = Ok (unstructure_Document doc)).
  { intros [Hne Hall]. unfold as_minified_dict, minify_json_dict. cbn [orb].
    rewrite Hsub.
    destruct (is_nil (sections doc)) eqn:Hn; [by destruct (sections doc)|].
    cbn [mbind result_bind].
    assert (Hmap : rmap (minify_section true false)
                        (unstructure_Section <$> sections doc)
                   = Ok (unstructure_Section <$> sections doc)).
    { clear Hn Hne Hsub Hfwd Hnil. induction Hall as [|x xs [Hx1 Hx2] _ IH];
        cbn [fmap list_fmap rmap]; [done|].
      rewrite minify_section_drop_unmapped_Ok by done.
      cbn [mbind result_bind]. by rewrite IH. }
    rewrite Hmap. cbn [mbind result_bind].
    destruct (unstructure_Document doc) as [| | | | | |kvs] eqn:Hrec; try done.
    by apply set_item_same. }
  split.
  - intros j. split; [apply Hfwd|]. intros [-> Hc]. by apply Hbwd.
  - intros Hnot.
    destruct (as_minified_dict doc true false) as [j|e]; [|by eexists].
    by destruct (Hfwd j eq_refl) as [_ Hc].
Qed.

(** ** Cleanup actions *)

Lemma Entity_set_map_to_list (m : gmap positive Entity) :
  (∀ k e, m !! k = Some e → obj_id e = k) →
  Entity_set (map_to_list m).*2 = m.
Proof.
  intros Hid. unfold Entity_set. rewrite <- list_fmap_compose.
  rewrite <- (list_to_map_to_list m) at 2. f_equal.
  rewrite <- (list_fmap_id (map_to_list m)) at 2.
  apply Forall_fmap_ext_1, Forall_forall. intros [k e] Hin. cbn.
  apply elem_of_map_to_list in Hin. by rewrite (Hid k e Hin).
Qed.

Lemma cleanup_section_idempotent (self : EntityFilterCleanupAction)
    (s : Section_) :
  cleanup_section self (cleanup_section self s) = cleanup_section self s.
Proof.
  unfold cleanup_section at 1 3. cbn [text name s_metadata _sentence_spans].
  f_equal. unfold cleanup_section. cbn [entities].
  set (S0 := Entity_set (entities s)).
  set (M := S0 ∖ foldl filter_combiner S0 (filter_fns self)).
  assert (HM : ∀ k e, M !! k = Some e → obj_id e = k).
  { intros k e [Hin _]%lookup_difference_Some.
    by apply Entity_set_lookup_Some in Hin as [_ ?]. }
  rewrite (Entity_set_map_to_list M HM).
  assert (Hempty : foldl filter_combiner M (filter_fns self) = ∅).
  { apply map_empty. intros k.
    destruct (foldl filter_combiner M (filter_fns self) !! k) as [e|] eqn:Hk;
      [|done].
    apply reduce_filter_combiner_lookup in Hk as [Hin Hall].
    apply lookup_difference_Some in Hin as [Hin Hnot].
    assert (foldl filter_combiner S0 (filter_fns self) !! k = Some e) as Hyes
      by (by apply reduce_filter_combiner_lookup).
    congruence. }
  by rewrite Hempty, map_difference_empty.
Qed.


(** X19: the functions of an action only protect entities: an entity is
    removed when all of them accept it, so an action built from more
    providers keeps every entity that the action built from fewer kept,
    and whatever the providers, no entity is added to a section. *)
Theorem cleanup_more_providers_keep_more
    (providers more_providers : list (list EntityFilterFn)) (s : Section_) :
  alias_consistent (entities s) →
  (∀ e, e ∈ entities (cleanup_section (from_filter_fn_providers providers) s) →
        e ∈ entities (cleanup_section
                        (from_filter_fn_providers (providers ++ more_providers))
                        s))
  ∧ (∀ e, e ∈ entities (cleanup_section (from_filter_fn_providers providers) s) →
          e ∈ entities s)
  ∧ (length (entities (cleanup_section (from_filter_fn_providers providers) s))
     ≤ length (entities s))%nat.
Proof.
  intros Hc. split; [|split].
  - intros e. rewrite !cleanup_section_entities by done.
    intros [He (f & Hf & Hrej)]. split; [done|]. exists f. split; [|done].
    cbn in *. rewrite concat_app. apply elem_of_app. by left.
  - intros e. rewrite cleanup_section_entities by done. by intros [He _].
  - unfold cleanup_section. cbn [entities]. rewrite length_fmap, length_map_to_list.
    etransitivity.
    + apply map_subseteq_size, map_subseteq_difference_l. reflexivity.
    + generalize (entities s). intros l.
      induction l as [|x l IH]; [done|].
      rewrite Entity_set_cons. cbn [length].
      destruct (Entity_set l !! obj_id x) eqn:Hl.
      * rewrite map_size_insert_Some by done. lia.
      * rewrite map_size_insert_None by done. lia.
Qed.

Lemma two_entity_section_alias_consistent :
  alias_consistent (entities two_entity_section).
Proof.
  intros e1 e2 H1 H2 Hid. cbn in H1, H2.
  apply elem_of_cons in H1 as [->|H1]; apply elem_of_cons in H2 as [->|H2];
    try apply list_elem_of_singleton in H1; try apply list_elem_of_singleton in H2;
    subst; try reflexivity; discriminate.
Qed.

Lemma cleanup_more_providers_keep_more_witness :
  let providers :=
    [DropUnmappedEntsEntityFilters_filter_fns
       (mkDropUnmappedEntsEntityFilters {[ "ns" ]})] in
  let more_providers :=
    [DropUnmappedEntsEntityFilters_filter_fns
       (mkDropUnmappedEntsEntityFilters {[ "other" ]})] in
  (∀ e, e ∈ entities (cleanup_section (from_filter_fn_providers providers)
                                      two_entity_section) →
        e ∈ entities (cleanup_section
                        (from_filter_fn_providers (providers ++ more_providers))
                        two_entity_section))
  ∧ (∀ e, e ∈ entities (cleanup_section (from_filter_fn_providers providers)
                                        two_entity_section) →
          e ∈ entities two_entity_section)
  ∧ (length (entities (cleanup_section (from_filter_fn_providers providers)
                                       two_entity_section))
     ≤ length (entities two_entity_section))%nat.
Proof.
  apply (cleanup_more_providers_keep_more
           [DropUnmappedEntsEntityFilters_filter_fns
              (mkDropUnmappedEntsEntityFilters {[ "ns" ]})]
           [DropUnmappedEntsEntityFilters_filter_fns
              (mkDropUnmappedEntsEntityFilters {[ "other" ]})]
           two_entity_section).
  exact two_entity_section_alias_consistent.
Defined.

(** The functions a [DropUnmappedEntsEntityFilters] provides all test one
    namespace, a member of its set. *)
Lemma DropUnmappedEntsEntityFilters_filter_fns_spec
    (self : DropUnmappedEntsEntityFilters) :
  from_ent_namespaces self ≠ ∅ →
  ∃ ns n,
    ns ∈ from_ent_namespaces self
    ∧ DropUnmappedEntsEntityFilters_filter_fns self
      = replicate (S n)
          (λ ent, bool_decide (namespace ent = ns) && is_nil (mappings ent)).
Proof.
  intros Hne. unfold DropUnmappedEntsEntityFilters_filter_fns.
  destruct (last (elements (from_ent_namespaces self))) as [ns|] eqn:Hlast.
  - exists ns. destruct (elements (from_ent_namespaces self)) as [|x l] eqn:Hel;
      [done|].
    exists (length l). split.
    + apply elem_of_elements. rewrite Hel. by apply last_Some_elem_of.
    + change (S (length l)) with (length (x :: l)).
      by apply const_fmap.
  - apply last_None in Hlast. apply elements_empty_inv in Hlast.
    by apply leibniz_equiv in Hlast.
Qed.

(** X20: cleanup with the functions of one [DropUnmappedEntsEntityFilters].
    With an empty set of namespaces the provider gives no function, and
    every entity is removed.  Otherwise all its functions test one and the
    same namespace of the set: exactly the entities of that namespace that
    have no mapping are removed, and the unmapped entities of the other
    namespaces of the set stay. *)
Theorem cleanup_drop_unmapped_one_namespace (namespaces : gset string) :
  let action :=
    from_filter_fn_providers
      [DropUnmappedEntsEntityFilters_filter_fns
         (mkDropUnmappedEntsEntityFilters namespaces)] in
  (namespaces = ∅ → ∀ s, entities (cleanup_section action s) = [])
  ∧ (namespaces ≠ ∅ →
     ∃ ns, ns ∈ namespaces
           ∧ ∀ s, alias_consistent (entities s) →
                  ∀ e, e ∈ entities (cleanup_section action s)
                       ↔ e ∈ entities s
                         ∧ (namespace e ≠ ns ∨ mappings e ≠ [])).
Proof.
  cbn zeta. split.
  - intros -> s. unfold cleanup_section, from_filter_fn_providers,
      DropUnmappedEntsEntityFilters_filter_fns.
    cbn [from_ent_namespaces filter_fns entities].
    rewrite elements_empty. cbn.
    by rewrite map_difference_diag, map_to_list_empty.
  - intros Hne.
    destruct (DropUnmappedEntsEntityFilters_filter_fns_spec
                (mkDropUnmappedEntsEntityFilters namespaces) Hne)
      as (ns & n & Hns & Hfns).
    exists ns. split; [done|]. intros s Hc e.
    rewrite cleanup_section_entities by done.
    unfold from_filter_fn_providers. cbn [filter_fns concat].
    rewrite app_nil_r, Hfns. split.
    + intros [He (f & Hf & Hrej)]. split; [done|].
      apply elem_of_replicate in Hf as [-> _].
      apply andb_false_iff in Hrej as [Hrej|Hrej].
      * left. by apply bool_decide_eq_false in Hrej.
      * right. by destruct (mappings e).
    + intros [He Hkeep]. split; [done|].
      eexists. split; [apply elem_of_replicate; split; [reflexivity|lia]|].
      cbn beta. apply andb_false_iff. destruct Hkeep as [Hn|Hm].
      * left. by apply bool_decide_eq_false.
      * right. by destruct (mappings e).
Qed.

(** X21: one [DropUnmappedEntsEntityFilters] for each of two different
    namespaces removes nothing: an entity would have to be of both
    namespaces to be accepted by both functions. *)
Theorem cleanup_drop_unmapped_two_providers (ns1 ns2 : string) (s : Section_) :
  ns1 ≠ ns2 → alias_consistent (entities s) →
  ∀ e, e ∈ entities
             (cleanup_section
                (from_filter_fn_providers
                   [DropUnmappedEntsEntityFilters_filter_fns
                      (mkDropUnmappedEntsEntityFilters {[ ns1 ]});
                    DropUnmappedEntsEntityFilters_filter_fns
                      (mkDropUnmappedEntsEntityFilters {[ ns2 ]})])
                s)
       ↔ e ∈ entities s.
Proof.
  intros Hne Hc e. rewrite cleanup_section_entities by done.
  unfold from_filter_fn_providers, DropUnmappedEntsEntityFilters_filter_fns.
  cbn [filter_fns from_ent_namespaces]. rewrite !elements_singleton. cbn.
  split; [by intros [He _]|]. intros He. split; [done|].
  destruct (decide (namespace e = ns1)) as [H1|H1].
  - eexists. split; [right; left|]. cbn beta.
    rewrite bool_decide_eq_false_2; [done|congruence].
  - eexists. split; [left|]. cbn beta.
    by rewrite bool_decide_eq_false_2.
Qed.

Lemma cleanup_drop_unmapped_two_providers_witness :
  alias_consistent (entities two_entity_section)
  ∧ ∀ e, e ∈ entities
             (cleanup_section
                (from_filter_fn_providers
                   [DropUnmappedEntsEntityFilters_filter_fns
                      (mkDropUnmappedEntsEntityFilters {[ "ns" ]});
                    DropUnmappedEntsEntityFilters_filter_fns
                      (mkDropUnmappedEntsEntityFilters {[ "other" ]})])
                two_entity_section)
       ↔ e ∈ entities two_entity_section.
Proof.
  split; [exact two_entity_section_alias_consistent|].
  apply (cleanup_drop_unmapped_two_providers "ns" "other" two_entity_section).
  - discriminate.
  - exact two_entity_section_alias_consistent.
Defined.

(** ** The cleanup step *)

Section cleanup_step_facts.
Variable format_exc : exn → string.

Lemma run_cleanup_actions_app (pre post : list CleanupAction) (doc : Document) :
  run_cleanup_actions (pre ++ post) doc
  = match run_cleanup_actions pre doc with
    | (doc', None) => run_cleanup_actions post doc'
    | (doc', Some e) => (doc', Some e)
    end.
Proof.
  revert doc. induction pre as [|a pre IH]; intros doc; cbn; [done|].
  destruct (a doc) as [doc' [e|]]; [done|apply IH].
Qed.

Lemma run_cleanup_actions_filters (filters : list EntityFilterCleanupAction)
    (doc : Document) :
  run_cleanup_actions (as_CleanupAction <$> filters) doc
  = (foldl (λ doc action, cleanup action doc) doc filters, None).
Proof.
  revert doc. induction filters as [|a filters IH]; intros doc; cbn; [done|].
  apply IH.
Qed.

Lemma run_document_spec (cleanup_actions : list CleanupAction) (doc : Document) :
  match (run_cleanup_actions cleanup_actions doc).2 with
  | Some e =>
      run_document format_exc cleanup_actions doc
      = (mkDocument (idx (run_cleanup_actions cleanup_actions doc).1)
                    (sections (run_cleanup_actions cleanup_actions doc).1)
                    (dict_set String.eqb
                       (d_metadata (run_cleanup_actions cleanup_actions doc).1)
                       PROCESSING_EXCEPTION (JStr (format_exc e))),
         true)
  | None =>
      run_document format_exc cleanup_actions doc
      = ((run_cleanup_actions cleanup_actions doc).1, false)
  end.
Proof.
  unfold run_document.
  by destruct (run_cleanup_actions cleanup_actions doc) as [doc' [e|]].
Qed.

Lemma elem_of_failed (results : list (Document * bool)) (doc : Document) :
  doc ∈ (List.filter snd results).*1 ↔ (doc, true) ∈ results.
Proof.
  rewrite list_elem_of_fmap. split.
  - intros ([d b] & -> & Hin). apply list_elem_of_In, filter_In in Hin as [Hin Hb].
    cbn in Hb. subst b. by apply list_elem_of_In.
  - intros Hin. exists (doc, true). split; [done|].
    apply list_elem_of_In, filter_In. split; [by apply list_elem_of_In|done].
Qed.


End cleanup_step_facts.

(** ** The lookup cache: capacity, hits and misses *)

Section lookup_cache_capacity.
Import sapbert.
Context {Entity Mapping : Type}.
Variable get_match_entity_class_hash : Entity → Z.
Variable update_mappings : Entity → Mapping → Entity.

Local Abbreviation LFUCache := (LFUCache Mapping).
Local Abbreviation update_lookup_cache :=
  (update_lookup_cache get_match_entity_class_hash).
Local Abbreviation check_lookup_cache :=
  (check_lookup_cache get_match_entity_class_hash update_mappings).
Local Abbreviation check_entity :=
  (check_entity get_match_entity_class_hash update_mappings).
Local Abbreviation run_op :=
  (run_op get_match_entity_class_hash update_mappings).
Local Abbreviation run_ops :=
  (run_ops get_match_entity_class_hash update_mappings).

(** The cache as [cachetools] keeps it: no key is stored twice, the
    counter has an entry for exactly the stored keys, and no more items
    are stored than [maxsize]. *)
Definition cache_wf (cache : LFUCache) : Prop :=
  dict_wf Z.eqb (cache_data cache)
  ∧ dict_wf Z.eqb (cache_counter cache)
  ∧ (∀ key, dict_get Z.eqb (cache_data cache) key = None
            ↔ dict_get Z.eqb (cache_counter cache) key = None)
  ∧ Z.of_nat (length (cache_data cache)) <= maxsize cache.

Lemma most_common_key (items : list (Z * Z)) (key n : Z) :
  most_common items = Some (key, n) → dict_get Z.eqb items key ≠ None.
Proof.
  revert key n. induction items as [|[k0 n0] items IH]; intros key n; cbn; [done|].
  destruct (most_common items) as [[k' n']|] eqn:Hmc.
  - destruct (n0 <? n').
    + intros [= -> ->]. destruct (k0 =? key); [done|]. by eapply IH.
    + intros [= -> ->]. by rewrite Z.eqb_refl.
  - intros [= -> ->]. by rewrite Z.eqb_refl.
Qed.

Lemma most_common_nonempty (items : list (Z * Z)) :
  items ≠ [] → most_common items ≠ None.
Proof.
  destruct items as [|[k0 n0] items]; [done|]. intros _. cbn.
  destruct (most_common items) as [[k' n']|]; [|done].
  by destruct (n0 <? n').
Qed.

Lemma dict_del_length {V : Type} (d : list (Z * V)) (key : Z) :
  dict_get Z.eqb d key ≠ None → S (length (dict_del Z.eqb d key)) = length d.
Proof.
  induction d as [|[k0 v0] d IH]; cbn; [done|].
  destruct (k0 =? key); cbn; [done|]. intros H. by rewrite IH.
Qed.

Lemma dict_get_del {V : Type} (d : list (Z * V)) (k0 key : Z) :
  dict_wf Z.eqb d →
  dict_get Z.eqb (dict_del Z.eqb d k0) key
  = if k0 =? key then None else dict_get Z.eqb d key.
Proof.
  intros Hwf. destruct (k0 =? key) eqn:Hk.
  - apply dict_get_del_eq; [apply Z.eqb_sym|apply Zeqb_trans|done|done].
  - apply dict_get_del_ne; [apply Z.eqb_sym|apply Zeqb_trans|done].
Qed.

Lemma dict_get_set {V : Type} (d : list (Z * V)) (k0 key : Z) (v : V) :
  dict_get Z.eqb (dict_set Z.eqb d k0 v) key
  = if k0 =? key then Some v else dict_get Z.eqb d key.
Proof.
  destruct (k0 =? key) eqn:Hk.
  - apply dict_get_set_eq; [apply Z.eqb_sym|apply Zeqb_trans|done].
  - apply dict_get_set_ne; [apply Z.eqb_sym|apply Zeqb_trans|done].
Qed.

Lemma dict_set_length {V : Type} (d : list (Z * V)) (key : Z) (v : V) :
  length (dict_set Z.eqb d key v)
  = match dict_get Z.eqb d key with
    | Some _ => length d
    | None => S (length d)
    end.
Proof.
  induction d as [|[k0 v0] d IH]; cbn; [done|].
  destruct (k0 =? key); cbn; [done|]. rewrite IH.
  by destruct (dict_get Z.eqb d key).
Qed.

(** [popitem] on a cache that holds an item takes one item away. *)
Lemma popitem_wf (cache : LFUCache) :
  cache_wf cache → cache_data cache ≠ [] →
  ∃ cache', popitem cache = Ok cache'
            ∧ cache_wf cache'
            ∧ maxsize cache' = maxsize cache
            ∧ S (length (cache_data cache')) = length (cache_data cache)
            ∧ ∀ key, dict_get Z.eqb (cache_data cache) key = None →
                     dict_get Z.eqb (cache_data cache') key = None.
Proof.
  intros (Hd & Hc & Hsync & Hsize) Hne. unfold popitem.
  assert (Hcne : cache_counter cache ≠ []).
  { destruct (cache_data cache) as [|[k v] d]; [done|].
    intros Hnil. specialize (Hsync k). rewrite Hnil in Hsync. cbn in Hsync.
    rewrite Z.eqb_refl in Hsync. destruct Hsync as [_ Hs].
    by specialize (Hs eq_refl). }
  destruct (most_common (cache_counter cache)) as [[k n]|] eqn:Hmc;
    [|by apply most_common_nonempty in Hcne].
  apply most_common_key in Hmc.
  assert (Hin : dict_get Z.eqb (cache_data cache) k ≠ None) by (by rewrite Hsync).
  unfold cache_contains, dict_contains.
  destruct (dict_get Z.eqb (cache_data cache) k) as [v|] eqn:Hget; [|done].
  eexists. split; [reflexivity|]. cbn.
  assert (Hlen : S (length (dict_del Z.eqb (cache_data cache) k))
                 = length (cache_data cache)).
  { apply dict_del_length. by rewrite Hget. }
  split; [|split; [done|split; [done|]]].
  - unfold cache_wf. cbn.
    split; [apply dict_wf_del; [apply Z.eqb_sym|apply Zeqb_trans|done]|].
    split; [apply dict_wf_del; [apply Z.eqb_sym|apply Zeqb_trans|done]|].
    split; [|lia].
    intros key. rewrite !dict_get_del by done.
    destruct (k =? key); [done|apply Hsync].
  - intros key Hkey. rewrite dict_get_del by done.
    by destruct (k =? key).
Qed.

Lemma popitems_wf (n : nat) (cache : LFUCache) :
  cache_wf cache → (n ≤ length (cache_data cache))%nat →
  ∃ cache', popitems n cache = Ok cache'
            ∧ cache_wf cache'
            ∧ maxsize cache' = maxsize cache
            ∧ (length (cache_data cache') + n)%nat = length (cache_data cache)
            ∧ ∀ key, dict_get Z.eqb (cache_data cache) key = None →
                     dict_get Z.eqb (cache_data cache') key = None.
Proof.
  revert cache. induction n as [|n IH]; intros cache Hwf Hn; cbn.
  - exists cache. split; [done|]. split; [done|]. split; [done|].
    split; [lia|done].
  - destruct (popitem_wf cache Hwf) as (c1 & -> & Hwf1 & Hm1 & Hl1 & Hk1).
    { destruct (cache_data cache); [cbn in Hn; lia|done]. }
    cbn. destruct (IH c1 Hwf1) as (c2 & -> & Hwf2 & Hm2 & Hl2 & Hk2); [lia|].
    exists c2. split; [done|]. split; [done|]. split; [congruence|].
    split; [lia|]. intros key Hkey. by apply Hk2, Hk1.
Qed.

Lemma update_lookup_cache_wf (cache : LFUCache) (entity : Entity)
    (mapping : Mapping) :
  cache_wf cache → 1 <= maxsize cache →
  ∃ cache', update_lookup_cache cache entity mapping = Ok cache'
            ∧ cache_wf cache' ∧ maxsize cache' = maxsize cache.
Proof.
  intros Hwf Hmax. unfold sapbert.update_lookup_cache.
  set (key := get_match_entity_class_hash entity).
  unfold cache_contains, dict_contains.
  destruct (dict_get Z.eqb (cache_data cache) key) as [v|] eqn:Hget; cbn.
  { by exists cache. }
  unfold cache_setitem, cache_contains, dict_contains.
  destruct (Z.ltb_spec (maxsize cache) 1) as [|_]; [lia|]. rewrite Hget.
  unfold make_room.
  destruct (popitems_wf
              (Z.to_nat (Z.of_nat (length (cache_data cache)) + 1 - maxsize cache))
              cache Hwf) as (c1 & -> & Hwf1 & Hm1 & Hl1 & Hk1); [lia|].
  cbn. eexists. split; [reflexivity|]. cbn. split; [|done].
  destruct Hwf1 as (Hd & Hc & Hsync & Hsize).
  assert (Hnone : dict_get Z.eqb (cache_data c1) key = None) by (by apply Hk1).
  unfold cache_wf. cbn.
  split; [apply dict_wf_set; [apply Z.eqb_sym|apply Zeqb_trans|done]|].
  split; [apply dict_wf_set; [apply Z.eqb_sym|apply Zeqb_trans|done]|].
  split.
  - intros k. unfold counter_decr. rewrite !dict_get_set.
    destruct (key =? k); [done|apply Hsync].
  - rewrite dict_set_length, Hnone. lia.
Qed.

Lemma check_entity_wf (cache : LFUCache) (seen misses : list Entity)
    (ent : Entity) :
  cache_wf cache →
  cache_wf (check_entity (cache, seen, misses) ent).1.1
  ∧ maxsize (check_entity (cache, seen, misses) ent).1.1 = maxsize cache.
Proof.
  intros (Hd & Hc & Hsync & Hsize). cbn. unfold cache_get.
  destruct (dict_get Z.eqb (cache_data cache) (get_match_entity_class_hash ent))
    as [v|] eqn:Hget; cbn; [|done].
  split; [|done]. unfold cache_wf. cbn. split; [done|].
  split; [apply dict_wf_set; [apply Z.eqb_sym|apply Zeqb_trans|done]|].
  split; [|done].
  intros k. unfold counter_decr. rewrite dict_get_set.
  destruct (Z.eqb_spec (get_match_entity_class_hash ent) k) as [<-|]; [|apply Hsync].
  rewrite Hget. done.
Qed.

Lemma check_lookup_cache_wf (entities : list Entity) :
  ∀ (cache : LFUCache) (seen misses : list Entity),
    cache_wf cache →
    cache_wf (foldl check_entity (cache, seen, misses) entities).1.1
    ∧ maxsize (foldl check_entity (cache, seen, misses) entities).1.1
      = maxsize cache.
Proof.
  induction entities as [|ent ents IH]; intros cache seen misses Hwf;
    cbn [foldl]; [done|].
  destruct (check_entity_wf cache seen misses ent Hwf) as [Hwf1 Hm1].
  destruct (check_entity (cache, seen, misses) ent) as [[c1 s1] m1].
  cbn [fst] in *. destruct (IH c1 s1 m1 Hwf1) as [Hwf2 Hm2].
  split; [done|congruence].
Qed.

(** X23: the step's cache never fails and never holds more than [maxsize]
    mappings: from a well-formed cache with [maxsize >= 1], and so from the
    empty cache the step starts with, every sequence of cache updates and
    cache checks runs through and leaves a well-formed cache of the same
    [maxsize]. *)
Theorem lookup_cache_stays_within_maxsize
    (cache : LFUCache) (ops : list (cache_op Entity Mapping)) :
  cache_wf cache → 1 <= maxsize cache →
  ∃ cache', run_ops cache ops = Ok cache'
            ∧ cache_wf cache'
            ∧ maxsize cache' = maxsize cache
            ∧ Z.of_nat (length (cache_data cache')) <= maxsize cache.
Proof.
  revert cache. induction ops as [|op ops IH]; intros cache Hwf Hmax; cbn.
  - exists cache. split; [done|]. split; [done|]. split; [done|]. apply Hwf.
  - assert (Hop : ∃ c1, run_op cache op = Ok c1 ∧ cache_wf c1
                        ∧ maxsize c1 = maxsize cache).
    { destruct op as [entity mapping|entities]; cbn.
      - by apply update_lookup_cache_wf.
      - eexists. split; [reflexivity|]. by apply check_lookup_cache_wf. }
    destruct Hop as (c1 & -> & Hwf1 & Hm1). cbn.
    destruct (IH c1 Hwf1) as (c2 & -> & Hwf2 & Hm2 & Hl2); [lia|].
    exists c2. split; [done|]. split; [done|]. split; [congruence|]. lia.
Qed.

Lemma check_lookup_cache_fold (entities : list Entity) :
  ∀ (cache : LFUCache) (seen misses : list Entity),
    (foldl check_entity (cache, seen, misses) entities).1.2
    = seen ++ ((λ ent, match stored cache (get_match_entity_class_hash ent) with
                       | Some mapping => update_mappings ent mapping
                       | None => ent
                       end) <$> entities)
    ∧ (foldl check_entity (cache, seen, misses) entities).2
      = misses ++ filter (λ ent, ¬ is_Some (stored cache
                                              (get_match_entity_class_hash ent)))
                         entities.
Proof.
  induction entities as [|ent ents IH]; intros cache seen misses; cbn [foldl].
  - cbn [fst snd fmap list_fmap]. by rewrite filter_nil, !app_nil_r.
  - rewrite fmap_cons, filter_cons. cbn [sapbert.check_entity].
    unfold cache_get, stored in *.
    destruct (dict_get Z.eqb (cache_data cache) (get_match_entity_class_hash ent))
      as [v|] eqn:Hget.
    + destruct (IH (mkLFUCache (maxsize cache) (cache_data cache)
                      (counter_decr (cache_counter cache)
                                    (get_match_entity_class_hash ent)))
                   (seen ++ [update_mappings ent v]) misses) as [-> ->].
      cbn [cache_data]. rewrite <- app_assoc.
      rewrite decide_False; [done|]. intros Hn. apply Hn. by eexists.
    + destruct (IH cache (seen ++ [ent]) (misses ++ [ent])) as [-> ->].
      rewrite <- !app_assoc. rewrite decide_True; [done|]. by intros [? ?].
Qed.

(** X24: [check_lookup_cache] splits the entities by the cache as it was
    at the call: the list it returns holds, in order, the entities whose
    key the cache lacks, untouched; every other entity gets the mapping
    stored for its key.  The stored mappings and [maxsize] are as before:
    a check never stores or evicts anything. *)
Theorem check_lookup_cache_hits_and_misses
    (cache : LFUCache) (entities : list Entity) :
  let cache' := (check_lookup_cache cache entities).1.1 in
  let entities' := (check_lookup_cache cache entities).1.2 in
  let cache_misses := (check_lookup_cache cache entities).2 in
  cache_misses
  = filter (λ ent, ¬ is_Some (stored cache (get_match_entity_class_hash ent)))
           entities
  ∧ entities'
    = (λ ent, match stored cache (get_match_entity_class_hash ent) with
              | Some mapping => update_mappings ent mapping
              | None => ent
              end) <$> entities
  ∧ cache_data cache' = cache_data cache
  ∧ maxsize cache' = maxsize cache
  ∧ (∀ key, stored cache' key = stored cache key).
Proof.
  cbn zeta. unfold sapbert.check_lookup_cache.
  destruct (check_lookup_cache_fold entities cache [] []) as [-> ->].
  split; [done|]. split; [done|].
  assert (Hdata : cache_data (foldl check_entity (cache, [], []) entities).1.1
                  = cache_data cache) by apply check_lookup_cache_data.
  split; [done|]. split.
  - generalize (@nil Entity) at 1. generalize (@nil Entity).
    revert cache Hdata. induction entities as [|ent ents IH];
      intros cache _ seen misses; cbn [foldl]; [done|].
    cbn [sapbert.check_entity]. unfold cache_get.
    destruct (dict_get Z.eqb (cache_data cache) (get_match_entity_class_hash ent));
      rewrite IH; try done; apply check_lookup_cache_data.
  - intros key. unfold stored. by rewrite Hdata.
Qed.

(** X25: a resolution that was cached is found by the next check: after
    [update_lookup_cache] for an entity, the cache holds for the entity's
    key the mapping it held before, or else the new one, and
    [check_lookup_cache] on entities of that key reports no miss and gives
    each of them that mapping.  With [maxsize < 1] nothing can be cached:
    an update for a key the cache lacks raises [ValueError]. *)
Theorem update_lookup_cache_then_hit
    (cache cache' : LFUCache) (entity : Entity) (mapping : Mapping) :
  update_lookup_cache cache entity mapping = Ok cache' →
  let key := get_match_entity_class_hash entity in
  let cached := default mapping (stored cache key) in
  stored cache' key = Some cached
  ∧ (∀ entities,
       Forall (λ ent, get_match_entity_class_hash ent = key) entities →
       (check_lookup_cache cache' entities).2 = []
       ∧ (check_lookup_cache cache' entities).1.2
         = (λ ent, update_mappings ent cached) <$> entities)
  ∧ (∀ small,
       maxsize small < 1 → stored small key = None →
       update_lookup_cache small entity mapping
       = Raise (ValueError "value too large")).
Proof.
  intros Hup. cbn zeta.
  assert (Hstored : stored cache' (get_match_entity_class_hash entity)
                    = Some (default mapping
                              (stored cache (get_match_entity_class_hash entity)))).
  { revert Hup. unfold sapbert.update_lookup_cache, cache_contains, dict_contains,
      stored.
    destruct (dict_get Z.eqb (cache_data cache) (get_match_entity_class_hash entity))
      as [v|] eqn:Hget; cbn.
    - intros [= <-]. done.
    - unfold cache_setitem, cache_contains, dict_contains.
      destruct (maxsize cache <? 1); [done|]. rewrite Hget.
      destruct (make_room cache) as [c1|]; [|done]. cbn. intros [= <-]. cbn.
      rewrite dict_get_set. by rewrite Z.eqb_refl. }
  split; [done|]. split.
  - intros entities Hall.
    unfold sapbert.check_lookup_cache.
    destruct (check_lookup_cache_fold entities cache' [] []) as [-> ->].
    cbn [app]. split.
    + induction Hall as [|ent ents Hent _ IH]; [by rewrite filter_nil|].
      rewrite filter_cons, decide_False; [done|].
      intros Hn. apply Hn. rewrite Hent, Hstored. by eexists.
    + apply Forall_fmap_ext_1. eapply Forall_impl; [exact Hall|].
      intros ent Hent. cbn beta. by rewrite Hent, Hstored.
  - intros small Hsmall Hnone.
    unfold sapbert.update_lookup_cache, cache_contains, dict_contains.
    unfold stored in Hnone. rewrite Hnone. cbn.
    unfold cache_setitem. destruct (Z.ltb_spec (maxsize small) 1); [done|lia].
Qed.

End lookup_cache_capacity.

Lemma lookup_cache_stays_within_maxsize_witness :
  ∃ cache',
    sapbert.run_ops (λ s, Z.of_nat (String.length s)) (λ e (_ : string), e)
      kb_cache
      [sapbert.Update "TP53" "a"; sapbert.Check ["BRCA1"];
       sapbert.Update "EGFR" "b"; sapbert.Update "KRAS12" "c"]
    = Ok cache'
    ∧ cache_wf cache'
    ∧ sapbert.maxsize cache' = sapbert.maxsize kb_cache
    ∧ Z.of_nat (length (sapbert.cache_data cache')) <= sapbert.maxsize kb_cache.
Proof.
  apply (lookup_cache_stays_within_maxsize (λ s, Z.of_nat (String.length s))
           (λ e (_ : string), e) kb_cache
           [sapbert.Update "TP53" "a"; sapbert.Check ["BRCA1"];
            sapbert.Update "EGFR" "b"; sapbert.Update "KRAS12" "c"]).
  - unfold cache_wf. cbn.
    split; [split; [reflexivity|exact I]|].
    split; [split; [reflexivity|exact I]|].
    split; [|lia].
    intros key. destruct key as [|q|q]; try done.
    by destruct (5 =? q)%positive.
  - cbn. lia.
Defined.

Lemma update_lookup_cache_then_hit_witness :
  let h := λ s, Z.of_nat (String.length s) in
  let cache' := sapbert.mkLFUCache 2 [(5, "first"); (4, "a")] [(5, -1); (4, -1)] in
  sapbert.stored cache' 4 = Some "a"
  ∧ (∀ entities,
       Forall (λ ent, h ent = 4) entities →
       (sapbert.check_lookup_cache h (λ e m, e +:+ m) cache' entities).2 = []
       ∧ (sapbert.check_lookup_cache h (λ e m, e +:+ m) cache' entities).1.2
         = (λ ent, ent +:+ "a") <$> entities)
  ∧ (∀ small,
       sapbert.maxsize small < 1 → sapbert.stored small 4 = None →
       sapbert.update_lookup_cache h small "TP53" "a"
       = Raise (ValueError "value too large")).
Proof.
  apply (update_lookup_cache_then_hit (λ s, Z.of_nat (String.length s))
           (λ e m, e +:+ m) kb_cache
           (sapbert.mkLFUCache 2 [(5, "first"); (4, "a")] [(5, -1); (4, -1)])
           "TP53" "a").
  reflexivity.
Defined.

Import opsin.

(** ** Extending a match to the surrounding breaks *)

Lemma get_list_ascii (s : string) (n : nat) :
  String.get n s = list_ascii_of_string s !! n.
Proof.
  revert n. induction s as [|c s IH]; intros [|n]; cbn; auto.
Qed.

(** [section[i]] for an index within the string *)
Lemma py_index_within (section : string) (i : Z) :
  0 <= i < py_len section →
  ∃ c, py_index section i = Got c
       ∧ list_ascii_of_string section !! Z.to_nat i = Some c.
Proof.
  intros Hi. unfold py_index.
  destruct (Z.ltb_spec i 0) as [|_]; [lia|].
  destruct (Z.leb_spec 0 i) as [_|]; [|lia].
  destruct (Z.ltb_spec i (py_len section)) as [_|]; [|lia]. cbn.
  rewrite get_list_ascii.
  destruct (list_ascii_of_string section !! Z.to_nat i) as [c|] eqn:Hc;
    [by exists c|].
  apply lookup_ge_None in Hc. rewrite chars_length in Hc.
  unfold py_len in Hi. lia.
Qed.

Lemma py_index_beyond (section : string) (i : Z) :
  py_len section <= i → py_index section i = IndexError.
Proof.
  intros Hi. unfold py_index, py_len in *.
  destruct (Z.ltb_spec i 0) as [|_]; [lia|].
  destruct (Z.ltb_spec i (Z.of_nat (String.length section))) as [|_]; [lia|].
  by rewrite andb_false_r.
Qed.

(** The break characters among [section[lo:hi]]. *)
Definition breaks_between (section : string) (lo hi : Z) : list ascii :=
  List.filter in_BREAKS
    (take (Z.to_nat (hi - lo)) (drop (Z.to_nat lo) (list_ascii_of_string section))).

Lemma breaks_between_diag (section : string) (lo : Z) :
  breaks_between section lo lo = [].
Proof. unfold breaks_between. by rewrite Z.sub_diag. Qed.

Lemma breaks_between_step (section : string) (lo hi : Z) (c : ascii) :
  0 <= lo < hi →
  list_ascii_of_string section !! Z.to_nat lo = Some c →
  breaks_between section lo hi
  = (if in_BREAKS c then [c] else []) ++ breaks_between section (lo + 1) hi.
Proof.
  intros Hlo Hc. unfold breaks_between.
  rewrite (drop_S _ c (Z.to_nat lo)) by done.
  replace (Z.to_nat (hi - lo)) with (S (Z.to_nat (hi - (lo + 1)))) by lia.
  replace (Z.to_nat (lo + 1)) with (S (Z.to_nat lo)) by lia.
  cbn [take firstn List.filter]. by destruct (in_BREAKS c).
Qed.

Lemma breaks_between_snoc (section : string) (lo hi : Z) (c : ascii) :
  0 <= lo <= hi →
  list_ascii_of_string section !! Z.to_nat hi = Some c →
  breaks_between section lo (hi + 1)
  = breaks_between section lo hi ++ (if in_BREAKS c then [c] else []).
Proof.
  intros Hlo Hc. unfold breaks_between.
  replace (Z.to_nat (hi + 1 - lo)) with (S (Z.to_nat (hi - lo))) by lia.
  rewrite (take_S_r _ _ c).
  - rewrite List.filter_app. cbn [List.filter]. by destruct (in_BREAKS c).
  - rewrite lookup_drop. rewrite <- Hc. f_equal. lia.
Qed.

Lemma extend_start_spec (section : string) (start : nat) :
  (start ≤ String.length section)%nat →
  ∃ s, extend_start section start = Got s
       ∧ (s ≤ start)%nat
       ∧ breaks_between section (Z.of_nat s) (Z.of_nat start) = []
       ∧ (s = 0%nat
          ∨ ∃ c, py_index section (Z.of_nat s - 1) = Got c
                 ∧ in_BREAKS c = true).
Proof.
  induction start as [|before IH]; intros Hlen; cbn [extend_start].
  - exists 0%nat. split; [done|]. split; [done|]. split; [done|by left].
  - destruct (py_index_within section (Z.of_nat before)) as (c & Hidx & Hc).
    { unfold py_len. lia. }
    rewrite Hidx. destruct (in_BREAKS c) eqn:Hb.
    + exists (S before). split; [done|]. split; [done|]. split.
      * apply breaks_between_diag.
      * right. exists c. split; [|done]. rewrite <- Hidx. f_equal. lia.
    + destruct IH as (s & -> & Hs & Hno & Hat); [lia|].
      exists s. split; [done|]. split; [lia|]. split; [|done].
      replace (Z.of_nat (S before)) with (Z.of_nat before + 1) by lia.
      rewrite (breaks_between_snoc section _ _ c) by (done || lia).
      by rewrite Hno, Hb.
Qed.

Lemma extend_end_spec (section : string) (remaining : nat) :
  ∀ end_ spaces,
    0 <= end_ → Z.of_nat remaining = py_len section - end_ →
    ∃ e, extend_end section remaining end_ spaces = Got e
         ∧ end_ <= e <= py_len section
         ∧ Z.of_nat (length (breaks_between section end_ e)) <= Z.max spaces 0
         ∧ (e = py_len section
            ∨ (∃ c, list_ascii_of_string section !! Z.to_nat e = Some c
                    ∧ in_BREAKS c = true)
              ∧ Z.max spaces 0
                <= Z.of_nat (length (breaks_between section end_ e))).
Proof.
  induction remaining as [|remaining IH]; intros end_ spaces Hend Hrem;
    cbn [extend_end].
  - exists end_. split; [done|]. split; [lia|].
    rewrite breaks_between_diag. cbn [length]. split; [lia|]. left. lia.
  - destruct (py_index_within section end_) as (c & -> & Hc); [lia|].
    destruct (in_BREAKS c) eqn:Hb; cbn [negb orb].
    + destruct (Z.ltb_spec 0 spaces) as [Hsp|Hsp].
      * destruct (IH (end_ + 1) (spaces - 1)) as (e & -> & He & Hcount & Hstop);
          [lia|lia|].
        exists e. split; [done|]. split; [lia|].
        rewrite (breaks_between_step section end_ e c) by (done || lia).
        rewrite Hb. cbn [app length].
        split; [lia|]. destruct Hstop as [->|[Hc' Hmax]]; [by left|].
        right. split; [done|]. lia.
      * exists end_. split; [done|]. split; [lia|].
        rewrite breaks_between_diag. cbn [length]. split; [lia|].
        right. split; [by exists c|]. lia.
    + destruct (IH (end_ + 1) spaces) as (e & -> & He & Hcount & Hstop);
        [lia|lia|].
      exists e. split; [done|]. split; [lia|].
      rewrite (breaks_between_step section end_ e c) by (done || lia).
      rewrite Hb. cbn [app]. split; [done|]. done.
Qed.

(** X26: [OpsinStep.extendString] on an entity that lies within the text.
    The string returned is the slice of the text between the bounds
    returned; the start moves left from the entity's start over characters
    that are not breaks and stops at the start of the text or after a
    break; the end moves right from the entity's end, crosses at most
    [spaces] breaks, and stops at the end of the text or at a break once
    [spaces] breaks were crossed.  An entity that starts beyond the end of
    the text makes the function raise [IndexError]. *)
Theorem extendString_extends_to_breaks
    (ent : Entity) (section : string) (spaces : Z) :
  0 <= e_start ent <= py_len section →
  0 <= e_end ent <= py_len section →
  (∃ start end_,
     extendString ent section spaces
     = Got (py_slice section start end_, start, end_)
     ∧ 0 <= start <= e_start ent
     ∧ e_end ent <= end_ <= py_len section
     ∧ breaks_between section start (e_start ent) = []
     ∧ (start = 0
        ∨ ∃ c, py_index section (start - 1) = Got c ∧ in_BREAKS c = true)
     ∧ Z.of_nat (length (breaks_between section (e_end ent) end_))
       <= Z.max spaces 0
     ∧ (end_ = py_len section
        ∨ (∃ c, py_index section end_ = Got c ∧ in_BREAKS c = true)
          ∧ Z.of_nat (length (breaks_between section (e_end ent) end_))
            = Z.max spaces 0))
  ∧ (∀ late : Entity,
       py_len section < e_start late →
       extendString late section spaces = IndexError).
Proof.
  intros Hstart Hend. split.
  - unfold extendString.
    assert (Hs : ∃ start,
      (if 0 <? e_start ent
       then match extend_start section (Z.to_nat (e_start ent)) with
            | Got start => Got (Z.of_nat start)
            | IndexError => IndexError
            end
       else Got (e_start ent)) = Got start
      ∧ 0 <= start <= e_start ent
      ∧ breaks_between section start (e_start ent) = []
      ∧ (start = 0
         ∨ ∃ c, py_index section (start - 1) = Got c ∧ in_BREAKS c = true)).
    { destruct (Z.ltb_spec 0 (e_start ent)) as [Hpos|Hnpos].
      - destruct (extend_start_spec section (Z.to_nat (e_start ent)))
          as (s & -> & Hle & Hno & Hat); [unfold py_len in Hstart; lia|].
        rewrite Z2Nat.id in Hno by lia.
        exists (Z.of_nat s). split; [done|]. split; [lia|]. split; [done|].
        destruct Hat as [->|Hat]; [by left|by right].
      - exists (e_start ent). split; [done|]. split; [lia|]. split.
        + apply breaks_between_diag.
        + left. lia. }
    destruct Hs as (start & -> & Hsb & Hno & Hat).
    destruct (extend_end_spec section (Z.to_nat (py_len section - e_end ent))
                (e_end ent) spaces) as (e & -> & He & Hcount & Hstop); [lia|lia|].
    exists start, e. split; [done|]. split; [done|]. split; [done|].
    split; [done|]. split; [done|]. split; [done|].
    destruct Hstop as [->|[(c & Hc & Hb) Hmax]]; [by left|]. right. split.
    + exists c. split; [|done].
      destruct (py_index_within section e) as (c' & -> & Hc'); [|congruence].
      split; [lia|]. apply lookup_lt_Some in Hc.
      rewrite chars_length in Hc. unfold py_len. lia.
    + lia.
  - intros late Hlate. unfold extendString.
    destruct (Z.ltb_spec 0 (e_start late)) as [_|]; [|unfold py_len in *; lia].
    destruct (Z.to_nat (e_start late)) as [|before] eqn:Hn; [lia|].
    cbn [extend_start]. rewrite py_index_beyond; [done|lia].
Qed.

Lemma extendString_extends_to_breaks_witness :
  let ent := mkEntity 1 "amino" "drug" {[ mkCharSpan 4 9 ]} "ns" HIGHLY_LIKELY
                      [] [] 4 9 "amino" [] in
  let section := "of 2-amino-3 acid" in
  (∃ start end_,
     extendString ent section 0
     = Got (py_slice section start end_, start, end_)
     ∧ 0 <= start <= e_start ent
     ∧ e_end ent <= end_ <= py_len section
     ∧ breaks_between section start (e_start ent) = []
     ∧ (start = 0
        ∨ ∃ c, py_index section (start - 1) = Got c ∧ in_BREAKS c = true)
     ∧ Z.of_nat (length (breaks_between section (e_end ent) end_))
       <= Z.max 0 0
     ∧ (end_ = py_len section
        ∨ (∃ c, py_index section end_ = Got c ∧ in_BREAKS c = true)
          ∧ Z.of_nat (length (breaks_between section (e_end ent) end_))
            = Z.max 0 0))
  ∧ (∀ late : Entity,
       py_len section < e_start late →
       extendString late section 0 = IndexError).
Proof.
  apply (extendString_extends_to_breaks
           (mkEntity 1 "amino" "drug" {[ mkCharSpan 4 9 ]} "ns" HIGHLY_LIKELY
                     [] [] 4 9 "amino" [])
           "of 2-amino-3 acid" 0).
  - vm_compute. split; discriminate.
  - vm_compute. split; discriminate.
Defined.

(** ** Minification with [drop_terms] *)

(** [j] is the dictionary [record] after [record[key] = value]. *)
Definition record_with (record : json) (key : string) (value : json) (j : json) :
    Prop :=
  ∃ kvs, record = JDict kvs ∧ j = JDict (dict_set String.eqb kvs key value).

(** The document has a section, every section has an entity, and every
    entity has a synonym term. *)
Definition all_entities_have_terms (doc : Document) : Prop :=
  sections doc ≠ []
  ∧ Forall (λ s, entities s ≠ []
                 ∧ Forall (λ e, syn_term_to_synonym_terms e ≠ []) (entities s))
           (sections doc).

(** [j] is the record of [doc] with the [synonym_terms] of every entity
    record set to the empty list. *)
Definition terms_cleared (doc : Document) (j : json) : Prop :=
  ∃ section_dicts,
    record_with (unstructure_Document doc) "sections" (JList section_dicts) j
    ∧ Forall2
        (λ s section_dict,
           ∃ ents,
             record_with (unstructure_Section s) "entities" (JList ents)
                         section_dict
             ∧ Forall2 (λ e ent,
                          record_with (unstructure_Entity e) "synonym_terms"
                                      (JList []) ent)
                       (entities s) ents)
        (sections doc) section_dicts.

Lemma record_with_subscript (record : json) (key : string) (value j : json) :
  record_with record key value j →
  subscript j key = Ok value
  ∧ ∀ key', key' ≠ key → subscript j key' = subscript record key'.
Proof.
  intros (kvs & -> & ->). unfold subscript. split.
  - rewrite dict_get_set_eq; [done| | |apply String.eqb_refl].
    + apply String.eqb_sym.
    + intros a b c. rewrite !String.eqb_eq. congruence.
  - intros key' Hne. rewrite dict_get_set_ne; [done| | |].
    + apply String.eqb_sym.
    + intros a b c. rewrite !String.eqb_eq. congruence.
    + apply String.eqb_neq. congruence.
Qed.

Lemma unstructure_Entity_synonym_terms (e : Entity) :
  subscript (unstructure_Entity e) "synonym_terms"
  = if is_nil (syn_term_to_synonym_terms e)
    then Raise (KeyError "synonym_terms")
    else Ok (JList (unstructure_SynonymTermWithMetrics
                      <$> dict_values (syn_term_to_synonym_terms e))).
Proof.
  unfold unstructure_Entity, subscript.
  destruct (mappings e) as [|m ms], (e_metadata e) as [|[k v] md],
    (syn_term_to_synonym_terms e) as [|kv syn];
    (destruct (decide (mention_confidence e = HIGHLY_LIKELY));
     [rewrite bool_decide_eq_true_2 by done
     |rewrite bool_decide_eq_false_2 by done]); reflexivity.
Qed.

Lemma unstructure_Entity_JDict (e : Entity) :
  ∃ kvs, unstructure_Entity e = JDict kvs.
Proof. by eexists. Qed.

Lemma unstructure_Section_JDict (s : Section_) :
  ∃ kvs, unstructure_Section s = JDict kvs.
Proof. by eexists. Qed.

Lemma unstructure_Document_JDict (doc : Document) :
  ∃ kvs, unstructure_Document doc = JDict kvs.
Proof. by eexists. Qed.

#[local] Arguments unstructure_Entity : simpl never.
#[local] Arguments unstructure_Section : simpl never.
#[local] Arguments unstructure_Document : simpl never.

Lemma clear_synonym_terms_entity (e : Entity) :
  match clear_synonym_terms (unstructure_Entity e) with
  | Ok ent =>
      syn_term_to_synonym_terms e ≠ []
      ∧ record_with (unstructure_Entity e) "synonym_terms" (JList []) ent
  | Raise _ => syn_term_to_synonym_terms e = []
  end.
Proof.
  unfold clear_synonym_terms. rewrite unstructure_Entity_synonym_terms.
  destruct (syn_term_to_synonym_terms e) as [|kv syn]; [done|].
  cbn [is_nil mbind result_bind clear].
  destruct (unstructure_Entity_JDict e) as [kvs Hkvs]. rewrite Hkvs.
  cbn [set_item]. split; [done|]. by exists kvs.
Qed.

Lemma rmap_clear_synonym_terms (es : list Entity) :
  match rmap clear_synonym_terms (unstructure_Entity <$> es) with
  | Ok ents =>
      Forall (λ e, syn_term_to_synonym_terms e ≠ []) es
      ∧ Forall2 (λ e ent,
                   record_with (unstructure_Entity e) "synonym_terms"
                               (JList []) ent)
                es ents
  | Raise _ => ¬ Forall (λ e, syn_term_to_synonym_terms e ≠ []) es
  end.
Proof.
  induction es as [|e es IH]; cbn [fmap list_fmap rmap]; [by split|].
  pose proof (clear_synonym_terms_entity e) as He.
  destruct (clear_synonym_terms (unstructure_Entity e)) as [ent|err];
    cbn [mbind result_bind].
  - destruct He as [Hne Hrec].
    destruct (rmap clear_synonym_terms (unstructure_Entity <$> es)) as [ents|err];
      cbn [mbind result_bind].
    + destruct IH as [Hall Hrel]. split; by constructor.
    + intros Hall. apply IH. by inversion Hall.
  - intros Hall. inversion Hall; subst. done.
Qed.

#[local] Arguments clear_synonym_terms : simpl never.

Lemma minify_section_drop_terms (s : Section_) :
  match minify_section false true (unstructure_Section s) with
  | Ok section_dict =>
      (entities s ≠ []
       ∧ Forall (λ e, syn_term_to_synonym_terms e ≠ []) (entities s))
      ∧ ∃ ents,
          record_with (unstructure_Section s) "entities" (JList ents)
                      section_dict
          ∧ Forall2 (λ e ent,
                       record_with (unstructure_Entity e) "synonym_terms"
                                   (JList []) ent)
                    (entities s) ents
  | Raise _ =>
      ¬ (entities s ≠ []
         ∧ Forall (λ e, syn_term_to_synonym_terms e ≠ []) (entities s))
  end.
Proof.
  unfold minify_section. rewrite unstructure_Section_entities.
  destruct (is_nil (entities s)) eqn:Hn.
  { apply is_nil_true in Hn. cbn [mbind result_bind]. by intros [? _]. }
  cbn [mbind result_bind iterate].
  pose proof (rmap_clear_synonym_terms (entities s)) as Hents.
  destruct (rmap clear_synonym_terms (unstructure_Entity <$> entities s))
    as [ents|err]; cbn [mbind result_bind].
  - destruct Hents as [Hall Hrel].
    destruct (unstructure_Section_JDict s) as [kvs Hkvs]. rewrite Hkvs.
    cbn [set_item]. split.
    + split; [by destruct (entities s)|done].
    + exists ents. split; [by exists kvs|done].
  - by intros [_ Hall].
Qed.

#[local] Arguments minify_section : simpl never.

Lemma rmap_minify_section_drop_terms (ss : list Section_) :
  let complete :=
    Forall (λ s, entities s ≠ []
                 ∧ Forall (λ e, syn_term_to_synonym_terms e ≠ []) (entities s))
           ss in
  match rmap (minify_section false true) (unstructure_Section <$> ss) with
  | Ok section_dicts =>
      complete
      ∧ Forall2
          (λ s section_dict,
             ∃ ents,
               record_with (unstructure_Section s) "entities" (JList ents)
                           section_dict
               ∧ Forall2 (λ e ent,
                            record_with (unstructure_Entity e) "synonym_terms"
                                        (JList []) ent)
                         (entities s) ents)
          ss section_dicts
  | Raise _ => ¬ complete
  end.
Proof.
  cbn zeta. induction ss as [|s ss IH]; cbn [fmap list_fmap rmap]; [by split|].
  pose proof (minify_section_drop_terms s) as Hs.
  destruct (minify_section false true (unstructure_Section s)) as [sd|err];
    cbn [mbind result_bind].
  - destruct Hs as [Hc Hrel].
    destruct (rmap (minify_section false true) (unstructure_Section <$> ss))
      as [sds|err]; cbn [mbind result_bind].
    + destruct IH as [Hall Hrels]. split; by constructor.
    + intros Hall. apply IH. by inversion Hall.
  - intros Hall. inversion Hall; subst. done.
Qed.

(** X27: with [drop_terms] alone, [Document.as_minified_dict] returns a
    record exactly when the document has a section, every section has an
    entity and every entity has a synonym term; for every other document it
    raises.  The record returned is the plain one with the [synonym_terms]
    of every entity record set to the empty list: every other key of every
    entity, section and of the document reads as in the plain record. *)
Theorem as_minified_dict_drop_terms_clears (doc : Document) :
  (∀ j, as_minified_dict doc false true = Ok j →
        all_entities_have_terms doc ∧ terms_cleared doc j)
  ∧ (all_entities_have_terms doc →
     ∃ j, as_minified_dict doc false true = Ok j)
  ∧ (∀ record key value j,
       record_with record key value j →
       subscript j key = Ok value
       ∧ ∀ key', key' ≠ key → subscript j key' = subscript record key').
Proof.
  assert (Hrun :
    match as_minified_dict doc false true with
    | Ok j => all_entities_have_terms doc ∧ terms_cleared doc j
    | Raise _ => ¬ all_entities_have_terms doc
    end).
  { unfold as_minified_dict, minify_json_dict. cbn [orb].
    rewrite unstructure_Document_sections.
    destruct (is_nil (sections doc)) eqn:Hn.
    { apply is_nil_true in Hn. cbn [mbind result_bind]. by intros [? _]. }
    cbn [mbind result_bind].
    pose proof (rmap_minify_section_drop_terms (sections doc)) as Hss.
    cbn zeta in Hss.
    destruct (rmap (minify_section false true)
                   (unstructure_Section <$> sections doc)) as [sds|err];
      cbn [mbind result_bind].
    - destruct Hss as [Hall Hrel].
      destruct (unstructure_Document_JDict doc) as [kvs Hkvs]. rewrite Hkvs.
      cbn [set_item]. split.
      + split; [by destruct (sections doc)|done].
      + exists sds. split; [|done]. exists kvs. by rewrite Hkvs.
    - by intros [_ Hall]. }
  split; [|split].
  - intros j Hj. by rewrite Hj in Hrun.
  - intros Hc. destruct (as_minified_dict doc false true) as [j|err];
      [by exists j|done].
  - apply record_with_subscript.
Qed.

(** ** The OPSIN step *)

Section opsin_step_facts.
Variable normalize : string → string → string.
Variable nameToStructure : string → option string.
Variable self_namespace : string.
Variable self_entity_class : string.
Variable condition : option (Document → bool).

Local Abbreviation parseString := (parseString nameToStructure self_namespace).
Local Abbreviation try_spaces := (try_spaces nameToStructure self_namespace).
Local Abbreviation call_entity :=
  (call_entity normalize nameToStructure self_namespace self_entity_class).
Local Abbreviation call_entities :=
  (call_entities normalize nameToStructure self_namespace self_entity_class).
Local Abbreviation call_section :=
  (call_section normalize nameToStructure self_namespace self_entity_class).
Local Abbreviation call_sections :=
  (call_sections normalize nameToStructure self_namespace self_entity_class).
Local Abbreviation OpsinStep_call :=
  (OpsinStep_call normalize nameToStructure self_namespace self_entity_class
                  condition).

(** The extended match the step finds for an entity: none for an entity
    of another class or with a mapping. *)
Definition opsin_match (ent : Entity) (section_text : string) :
    option (string * Z * Z * Mapping) :=
  if String.eqb (entity_class ent) self_entity_class && is_nil (mappings ent)
  then match try_spaces ent section_text [2; 1; 0] with
       | Got found => found
       | IndexError => None
       end
  else None.

(** The entity the step builds from a match. *)
Definition opsin_entity (id : positive) (ent : Entity)
    (found : string * Z * Z * Mapping) : Entity :=
  let '(match_, start, end_, maybe_mapping) := found in
  mkEntity id match_ (entity_class ent) {[ mkCharSpan start end_ ]}
           (namespace ent) HIGHLY_LIKELY [maybe_mapping] [] start (Z.max end_ 0)
           (normalize match_ (entity_class ent)) [].

(** The pairs of [updated_mappings], for the entities of a section. *)
Fixpoint replacements (section_text : string) (next : positive)
    (entities : list Entity) : list (Entity * Entity) :=
  match entities with
  | [] => []
  | ent :: rest =>
      match opsin_match ent section_text with
      | Some found =>
          (ent, opsin_entity next ent found)
            :: replacements section_text (Pos.succ next) rest
      | None => replacements section_text next rest
      end
  end.

Lemma Entity_init_contiguous (id : positive) (match_ entity_class_ : string)
    (start end_ : Z) (ns : string) (maps : list Mapping) :
  Entity_init normalize id match_ entity_class_ {[ mkCharSpan start end_ ]} ns
              HIGHLY_LIKELY maps [] []
  = Ok (mkEntity id match_ entity_class_ {[ mkCharSpan start end_ ]} ns
                 HIGHLY_LIKELY maps [] start (Z.max end_ 0)
                 (normalize match_ entity_class_) []).
Proof.
  unfold Entity_init, calc_starts_and_ends. rewrite elements_singleton. cbn.
  do 2 f_equal. destruct (Z.ltb_spec 0 end_); lia.
Qed.

Lemma call_entity_spec (section_text : string)
    (updated_mappings : list (Entity * Entity)) (next : positive) (ent : Entity)
    (acc : list (Entity * Entity) * positive) :
  call_entity section_text (updated_mappings, next) ent = Returned acc →
  acc = match opsin_match ent section_text with
        | Some found =>
            (dict_set Entity_eq updated_mappings ent (opsin_entity next ent found),
             Pos.succ next)
        | None => (updated_mappings, next)
        end.
Proof.
  unfold opsin.call_entity, opsin_match.
  destruct (String.eqb (entity_class ent) self_entity_class); cbn [andb];
    [|by intros [= <-]].
  destruct (is_nil (mappings ent)); [|by intros [= <-]].
  destruct (try_spaces ent section_text [2; 1; 0])
    as [[[[[match_ start] end_] maybe_mapping]|]|]; [| |done].
  - rewrite Entity_init_contiguous. by intros [= <-].
  - by intros [= <-].
Qed.

Lemma Entity_eq_true (a b : Entity) :
  Entity_eq a b = true ↔ obj_id a = obj_id b.
Proof. unfold Entity_eq. apply bool_decide_eq_true. Qed.

Lemma dict_get_Entity_None (d : list (Entity * Entity)) (ent : Entity) :
  obj_id ent ∉ obj_id <$> d.*1 → dict_get Entity_eq d ent = None.
Proof.
  induction d as [|[k v] d IH]; cbn; [done|].
  intros Hnot. apply not_elem_of_cons in Hnot as [Hne Hnot].
  destruct (Entity_eq k ent) eqn:Hk; [|by apply IH].
  apply Entity_eq_true in Hk. congruence.
Qed.

Lemma replacements_keys (section_text : string) (entities : list Entity) :
  ∀ next ent, ent ∈ (replacements section_text next entities).*1 →
              ent ∈ entities ∧ is_Some (opsin_match ent section_text).
Proof.
  induction entities as [|e es IH]; intros next ent; cbn; [by intros ?%elem_of_nil|].
  destruct (opsin_match e section_text) as [found|] eqn:Hf; cbn.
  - intros [->|Hin]%elem_of_cons.
    + split; [left|by rewrite Hf].
    + destruct (IH _ _ Hin). split; [by right|done].
  - intros Hin. destruct (IH _ _ Hin). split; [by right|done].
Qed.

Lemma call_entities_spec (section_text : string) (entities : list Entity) :
  ∀ updated_mappings next acc,
    NoDup (obj_id <$> entities) →
    (∀ ent, ent ∈ entities → obj_id ent ∉ obj_id <$> updated_mappings.*1) →
    call_entities section_text (updated_mappings, next) entities = Returned acc →
    acc.1 = updated_mappings ++ replacements section_text next entities.
Proof.
  induction entities as [|e es IH]; intros upd next acc Hnd Hfresh;
    cbn [opsin.call_entities replacements].
  - intros [= <-]. cbn. by rewrite app_nil_r.
  - rewrite fmap_cons in Hnd. apply NoDup_cons in Hnd as [He Hnd].
    destruct (call_entity section_text (upd, next) e) as [acc1| |] eqn:H1;
      [|done|done].
    apply call_entity_spec in H1. subst acc1.
    destruct (opsin_match e section_text) as [found|].
    + intros Hrest. apply IH in Hrest; [| done |].
      * rewrite Hrest. rewrite dict_set_new.
        -- by rewrite <- app_assoc.
        -- apply dict_get_Entity_None, Hfresh. left.
      * intros ent Hent. rewrite dict_set_new
          by (apply dict_get_Entity_None, Hfresh; left).
        rewrite fmap_app, fmap_app. cbn. rewrite elem_of_app.
        intros [Hin|Hin%list_elem_of_singleton].
        -- revert Hin. apply Hfresh. by right.
        -- apply He. rewrite <- Hin. apply list_elem_of_fmap. by exists ent.
    + intros Hrest. apply IH in Hrest; [done|done|].
      intros ent Hent. apply Hfresh. by right.
Qed.

Lemma call_entities_next (section_text : string) (entities : list Entity) :
  ∀ updated_mappings next acc,
    call_entities section_text (updated_mappings, next) entities = Returned acc →
    Z.pos acc.2
    = Z.pos next + Z.of_nat (length (replacements section_text next entities)).
Proof.
  induction entities as [|e es IH]; intros upd next acc;
    cbn [opsin.call_entities replacements].
  - intros [= <-]. cbn. lia.
  - destruct (call_entity section_text (upd, next) e) as [acc1| |] eqn:H1;
      [|done|done].
    apply call_entity_spec in H1. subst acc1.
    destruct (opsin_match e section_text) as [found|].
    + intros Hrest. apply IH in Hrest. rewrite Hrest. cbn [length]. lia.
    + apply IH.
Qed.

Lemma replacements_fresh (section_text : string) (entities : list Entity) :
  ∀ next,
    Forall (λ pair,
              Z.pos next <= Z.pos (obj_id pair.2)
              < Z.pos next
                + Z.of_nat (length (replacements section_text next entities)))
           (replacements section_text next entities)
    ∧ NoDup (obj_id <$> (replacements section_text next entities).*2).
Proof.
  induction entities as [|e es IH]; intros next; cbn [replacements].
  - split; constructor.
  - destruct (opsin_match e section_text) as [[[[m st] en] mp]|]; [|apply IH].
    destruct (IH (Pos.succ next)) as [Hall Hnd]. cbn [length fmap list_fmap].
    split.
    + constructor; [cbn; lia|].
      eapply Forall_impl; [exact Hall|]. intros [o n]. cbn. lia.
    + cbn. apply NoDup_cons. split; [|done].
      intros Hin. apply list_elem_of_fmap in Hin as (new & Hid & Hin).
      apply list_elem_of_fmap in Hin as ([o n] & -> & Hin).
      rewrite Forall_forall in Hall. specialize (Hall _ Hin). cbn in *. lia.
Qed.

Lemma filter_all {A : Type} (P : A → Prop) `{∀ x, Decision (P x)} (l : list A) :
  Forall P l → filter P l = l.
Proof.
  induction 1 as [|x l Hx _ IH]; [done|].
  by rewrite filter_cons_True, IH.
Qed.

Lemma entities_remove_spec (x : Entity) (l tail : list Entity) :
  NoDup (obj_id <$> l) → x ∈ l →
  entities_remove x (l ++ tail)
  = Some (filter (λ ent, obj_id ent ≠ obj_id x) l ++ tail).
Proof.
  induction l as [|e l IH]; intros Hnd Hx; [by apply elem_of_nil in Hx|].
  rewrite fmap_cons in Hnd. apply NoDup_cons in Hnd as [He Hnd].
  cbn [app entities_remove].
  destruct (Entity_eq e x) eqn:Hex.
  - apply Entity_eq_true in Hex.
    rewrite filter_cons_False by (by intros ?).
    rewrite filter_all; [done|]. apply Forall_forall. intros e' He' Heq.
    apply He. rewrite Hex, <- Heq. apply list_elem_of_fmap. by exists e'.
  - assert (Hne : obj_id e ≠ obj_id x).
    { intros Heq. apply Entity_eq_true in Heq. congruence. }
    rewrite filter_cons_True by done.
    apply elem_of_cons in Hx as [->|Hx]; [done|].
    by rewrite IH.
Qed.

Lemma NoDup_fmap_filter {A B : Type} (f : A → B) (P : A → Prop)
    `{∀ x, Decision (P x)} (l : list A) :
  NoDup (f <$> l) → NoDup (f <$> filter P l).
Proof.
  induction l as [|x l IH]; [done|]. rewrite fmap_cons.
  intros [Hx Hnd]%NoDup_cons. rewrite filter_cons.
  destruct (decide (P x)); [|by apply IH].
  rewrite fmap_cons. apply NoDup_cons. split; [|by apply IH].
  intros (y & Hy & Hin)%list_elem_of_fmap. apply Hx.
  apply list_elem_of_fmap. exists y. split; [done|].
  by apply list_elem_of_filter in Hin as [_ ?].
Qed.

Lemma replace_entities_spec (updated_mappings : list (Entity * Entity)) :
  ∀ l tail,
    NoDup (obj_id <$> l) →
    NoDup (obj_id <$> updated_mappings.*1) →
    (∀ ent, ent ∈ updated_mappings.*1 → ent ∈ l) →
    replace_entities updated_mappings (l ++ tail)
    = Returned (filter (λ ent, obj_id ent ∉ obj_id <$> updated_mappings.*1) l
                ++ tail ++ updated_mappings.*2).
Proof.
  induction updated_mappings as [|[o n] upd IH]; intros l tail Hl Hupd Hin;
    cbn [replace_entities fmap list_fmap fst snd].
  - rewrite app_nil_r. f_equal. f_equal. symmetry. apply filter_all.
    apply Forall_forall. intros e _. apply not_elem_of_nil.
  - cbn in Hupd. apply NoDup_cons in Hupd as [Ho Hupd].
    rewrite entities_remove_spec by (done || apply Hin; left).
    rewrite <- app_assoc. rewrite IH.
    + f_equal. rewrite <- !app_assoc. cbn [app]. f_equal.
      rewrite list_filter_filter. apply list_filter_iff. intros e. cbn.
      rewrite not_elem_of_cons. tauto.
    + by apply NoDup_fmap_filter.
    + done.
    + intros e He. apply list_elem_of_filter. split.
      * intros Heq. apply Ho. rewrite <- Heq. apply list_elem_of_fmap.
        by exists e.
      * apply Hin. by right.
Qed.

Lemma replacements_keys_filter (section_text : string) (entities : list Entity) :
  ∀ next,
    (replacements section_text next entities).*1
    = filter (λ ent, is_Some (opsin_match ent section_text)) entities.
Proof.
  induction entities as [|e es IH]; intros next; cbn [replacements]; [done|].
  rewrite filter_cons.
  destruct (opsin_match e section_text) as [found|] eqn:Hf.
  - rewrite decide_True by (by eexists). cbn. by rewrite IH.
  - rewrite decide_False by (by intros [? ?]). apply IH.
Qed.

(** The widest extension that OPSIN parses is the one taken. *)
Lemma try_spaces_spec (ent : Entity) (section_text : string)
    (spaces_range : list Z) (found : string * Z * Z * Mapping) :
  try_spaces ent section_text spaces_range = Got (Some found) →
  ∃ tried spaces rest smiles,
    spaces_range = tried ++ spaces :: rest
    ∧ extendString ent section_text spaces = Got found.1
    ∧ nameToStructure found.1.1.1 = Some smiles
    ∧ found.2 = mkMapping found.1.1.1 "Opsin" "Opsin" smiles self_namespace
                          SMC_HIGHLY_LIKELY None None None []
    ∧ Forall (λ wider,
                ∃ match_ start end_,
                  extendString ent section_text wider = Got (match_, start, end_)
                  ∧ nameToStructure match_ = None)
             tried.
Proof.
  induction spaces_range as [|spaces rest IH]; cbn [opsin.try_spaces]; [done|].
  destruct (extendString ent section_text spaces) as [[[m st] en]|] eqn:Hext;
    [|done].
  unfold opsin.parseString.
  destruct (nameToStructure m) as [smiles|] eqn:Hparse.
  - intros [= <-]. exists [], spaces, rest, smiles. cbn. by repeat split.
  - intros Hrest. destruct (IH Hrest) as (tried & sp & rest' & smiles & -> & H).
    exists (spaces :: tried), sp, rest', smiles. split; [done|].
    destruct H as (H1 & H2 & H3 & H4). repeat split; try done.
    constructor; [|done]. by exists m, st, en.
Qed.

Lemma filter_ext_in {A : Type} (P Q : A → Prop) `{∀ x, Decision (P x)}
    `{∀ x, Decision (Q x)} (l : list A) :
  (∀ x, x ∈ l → P x ↔ Q x) → filter P l = filter Q l.
Proof.
  induction l as [|x l IH]; intros Hext; [done|].
  rewrite !filter_cons.
  destruct (decide (P x)) as [HP|HP], (decide (Q x)) as [HQ|HQ].
  - f_equal. apply IH. intros y Hy. apply Hext. by right.
  - exfalso. apply HQ, Hext; [left|done].
  - exfalso. apply HP, Hext; [left|done].
  - apply IH. intros y Hy. apply Hext. by right.
Qed.

Lemma filter_length_partition {A : Type} (P : A → Prop) `{∀ x, Decision (P x)}
    (l : list A) :
  (length (filter (λ x, ¬ P x) l) + length (filter P l))%nat = length l.
Proof.
  induction l as [|x l IH]; [done|]. rewrite !filter_cons.
  destruct (decide (P x)) as [HP|HP].
  - rewrite decide_False by (by intros ?). cbn [length]. lia.
  - rewrite decide_True by done. cbn [length]. lia.
Qed.

Lemma NoDup_fmap_elem_inj {A B : Type} (f : A → B) (l : list A) (x y : A) :
  NoDup (f <$> l) → x ∈ l → y ∈ l → f x = f y → x = y.
Proof.
  induction l as [|z l IH]; [by intros _ ?%elem_of_nil|].
  rewrite fmap_cons. intros [Hz Hnd]%NoDup_cons.
  intros [->|Hx]%elem_of_cons [->|Hy]%elem_of_cons Heq.
  - done.
  - exfalso. apply Hz. rewrite Heq. apply list_elem_of_fmap. by exists y.
  - exfalso. apply Hz. rewrite <- Heq. apply list_elem_of_fmap. by exists x.
  - by apply IH.
Qed.

(** What the step's new entity has to do with the entity it replaces. *)
Definition replaces (section_text : string) (next next' : positive)
    (ent opsin_entity : Entity) : Prop :=
  entity_class ent = self_entity_class ∧ mappings ent = []
  ∧ Z.pos next <= Z.pos (obj_id opsin_entity) < Z.pos next'
  ∧ entity_class opsin_entity = entity_class ent
  ∧ namespace opsin_entity = namespace ent
  ∧ ∃ tried spaces rest start end_ smiles,
      [2; 1; 0] = tried ++ spaces :: rest
      ∧ extendString ent section_text spaces
        = Got (e_match opsin_entity, start, end_)
      ∧ spans opsin_entity = {[ mkCharSpan start end_ ]}
      ∧ e_start opsin_entity = start ∧ e_end opsin_entity = Z.max end_ 0
      ∧ nameToStructure (e_match opsin_entity) = Some smiles
      ∧ mappings opsin_entity
        = [mkMapping (e_match opsin_entity) "Opsin" "Opsin" smiles
                     self_namespace SMC_HIGHLY_LIKELY None None None []]
      ∧ Forall (λ wider,
                  ∃ match_ start end_,
                    extendString ent section_text wider
                    = Got (match_, start, end_)
                    ∧ nameToStructure match_ = None)
               tried.

Lemma replacements_replaces (section_text : string) (entities : list Entity) :
  ∀ next next',
    Z.pos next + Z.of_nat (length (replacements section_text next entities))
    <= Z.pos next' →
    Forall2 (replaces section_text next next')
            (replacements section_text next entities).*1
            (replacements section_text next entities).*2.
Proof.
  induction entities as [|e es IH]; intros next next';
    cbn [replacements]; [constructor|].
  destruct (opsin_match e section_text) as [found|] eqn:Hf; [|by apply IH].
  intros Hnext.
  cbn [length] in Hnext. cbn [fmap list_fmap fst snd]. constructor.
  - unfold opsin_match in Hf.
    destruct (String.eqb (entity_class e) self_entity_class) eqn:Hc;
      [|done]. apply String.eqb_eq in Hc.
    destruct (is_nil (mappings e)) eqn:Hm; [|done]. apply is_nil_true in Hm.
    cbn [andb] in Hf.
    destruct (try_spaces e section_text [2; 1; 0]) as [found'|] eqn:Ht; [|done].
    subst found'.
    destruct (try_spaces_spec _ _ _ _ Ht)
      as (tried & spaces & rest & smiles & Hr & Hext & Hparse & Hmap & Hw).
    destruct found as [[[m st] en] mp].
    cbn [fst snd] in Hext, Hparse, Hmap. unfold replaces.
    cbn [opsin_entity obj_id entity_class namespace e_match spans e_start e_end
         mappings].
    split; [done|]. split; [done|]. split; [lia|]. split; [done|].
    split; [done|]. exists tried, spaces, rest, st, en, smiles.
    by rewrite Hmap.
  - eapply Forall2_impl; [apply (IH (Pos.succ next) next'); lia|].
    intros o n (H1 & H2 & H3 & H4). split; [done|]. split; [done|].
    split; [lia|done].
Qed.

(** X28: what [OpsinStep.__call__] does to a section of distinct entity
    objects, when it returns.  The text, name, metadata and sentence spans
    are as before.  The entities of another class or with a mapping, and
    those for which no extension parsed, stay, in their order; after them
    come the new entities, one for each entity that was replaced and in
    their order.  A new entity is a fresh object with the class and
    namespace of the one it replaces, the extended match as its [match],
    the extension as its one span, and one mapping, from OPSIN, labelled
    with the match; the extension taken is the one of the most spaces, of
    2, 1 and 0, that OPSIN parsed. *)
Theorem OpsinStep_call_replaces_unmapped
    (section section' : Section_) (next next' : positive) :
  NoDup (obj_id <$> entities section) →
  call_section section next = Returned (section', next') →
  text section' = text section ∧ name section' = name section
  ∧ s_metadata section' = s_metadata section
  ∧ sentence_spans section' = sentence_spans section
  ∧ length (entities section') = length (entities section)
  ∧ ∃ opsin_entities,
      entities section'
      = filter (λ ent, ¬ is_Some (opsin_match ent (text section)))
               (entities section)
        ++ opsin_entities
      ∧ NoDup (obj_id <$> opsin_entities)
      ∧ Forall2 (replaces (text section) next next')
                (filter (λ ent, is_Some (opsin_match ent (text section)))
                        (entities section))
                opsin_entities.
Proof.
  intros Hnd. unfold opsin.call_section.
  destruct (call_entities (text section) ([], next) (entities section))
    as [[upd n1]| |] eqn:Hcall; [|done|done].
  pose proof (call_entities_next _ _ _ _ _ Hcall) as Hn1.
  apply call_entities_spec in Hcall; [|done|by intros ? _ ?%elem_of_nil].
  cbn [fst snd app] in Hcall, Hn1. subst upd.
  set (reps := replacements (text section) next (entities section)) in *.
  assert (Hkeys : reps.*1 = filter (λ ent, is_Some (opsin_match ent (text section)))
                                   (entities section))
    by apply replacements_keys_filter.
  rewrite <- (app_nil_r (entities section)) at 1.
  rewrite replace_entities_spec; [|done| |].
  - intros [= <- <-]. cbn [text name s_metadata entities _sentence_spans app].
    split; [done|]. split; [done|]. split; [done|]. split; [done|].
    assert (Hfilter :
      filter (λ ent, obj_id ent ∉ obj_id <$> reps.*1) (entities section)
      = filter (λ ent, ¬ is_Some (opsin_match ent (text section)))
               (entities section)).
    { apply filter_ext_in. intros e He. rewrite Hkeys. split.
      - intros Hnot Hsome. apply Hnot. apply list_elem_of_fmap. exists e.
        split; [done|]. by apply list_elem_of_filter.
      - intros Hnone (e' & Hid & Hin)%list_elem_of_fmap.
        apply list_elem_of_filter in Hin as [Hsome Hin].
        by rewrite (NoDup_fmap_elem_inj obj_id _ e e' Hnd He Hin Hid) in Hnone. }
    rewrite Hfilter. split.
    + rewrite length_app, <- (filter_length_partition
                               (λ ent, is_Some (opsin_match ent (text section)))
                               (entities section)).
      f_equal. by rewrite <- Hkeys, !length_fmap.
    + exists reps.*2. split; [done|]. split; [apply replacements_fresh|].
      rewrite <- Hkeys. apply replacements_replaces. unfold reps in *. lia.
  - rewrite Hkeys. by apply NoDup_fmap_filter.
  - intros e He. rewrite Hkeys in He. by apply list_elem_of_filter in He as [_ ?].
Qed.

Lemma call_section_unchanged (section : Section_) (next : positive) :
  Forall (λ ent, opsin_match ent (text section) = None) (entities section) →
  call_section section next = Returned (section, next)
  ∨ call_section section next = RaisedIndexError.
Proof.
  intros Hall. unfold opsin.call_section.
  assert (Hents : ∀ ents, Forall (λ ent, opsin_match ent (text section) = None) ents →
            call_entities (text section) ([], next) ents = Returned ([], next)
            ∨ call_entities (text section) ([], next) ents = RaisedIndexError).
  { clear Hall. induction 1 as [|e es He _ IH]; cbn [opsin.call_entities];
      [by left|].
    destruct (call_entity (text section) ([], next) e) as [acc| |] eqn:H1.
    - apply call_entity_spec in H1. rewrite He in H1. by subst acc.
    - by right.
    - exfalso. revert H1. unfold opsin.call_entity.
      destruct (String.eqb (entity_class e) self_entity_class); [|done].
      destruct (is_nil (mappings e)); [|done].
      destruct (try_spaces e (text section) [2; 1; 0])
        as [[[[[m st] en] mp]|]|]; [|done|done].
      by rewrite Entity_init_contiguous. }
  destruct (Hents _ Hall) as [->| ->]; [|by right]. left.
  cbn [replace_entities]. by destruct section.
Qed.

Lemma call_sections_unchanged (sections : list Section_) (next : positive) :
  Forall (λ section,
            Forall (λ ent, opsin_match ent (text section) = None)
                   (entities section))
         sections →
  call_sections sections next = Returned (sections, next)
  ∨ call_sections sections next = RaisedIndexError.
Proof.
  induction 1 as [|s ss Hs _ IH]; cbn [opsin.call_sections]; [by left|].
  destruct (call_section_unchanged s next Hs) as [->| ->]; [|by right].
  destruct IH as [->| ->]; [by left|by right].
Qed.

Lemma call_sections_texts (sections : list Section_) :
  ∀ next sections' next',
    call_sections sections next = Returned (sections', next') →
    text <$> sections' = text <$> sections
    ∧ name <$> sections' = name <$> sections
    ∧ Z.pos next <= Z.pos next'.
Proof.
  induction sections as [|s ss IH]; intros next sections' next';
    cbn [opsin.call_sections].
  - intros [= <- <-]. split; [done|]. split; [done|lia].
  - unfold opsin.call_section.
    destruct (call_entities (text s) ([], next) (entities s))
      as [[upd n1]| |] eqn:Hcall; [|done|done].
    apply call_entities_next in Hcall. cbn [snd] in Hcall.
    destruct (replace_entities upd (entities s)) as [ents'| |]; [|done|done].
    destruct (call_sections ss n1) as [[ss' n2]| |] eqn:Hrest; [|done|done].
    intros [= <- <-]. destruct (IH _ _ _ Hrest) as (Ht & Hn & Hle).
    cbn [fmap list_fmap text name]. rewrite Ht, Hn.
    split; [done|]. split; [done|lia].
Qed.


End opsin_step_facts.

(** An unmapped drug entity on the middle of a name, in a text where OPSIN
    parses the name up to the next space. *)
Definition amino_entity : Entity :=
  mkEntity 1 "amino" "drug" {[ mkCharSpan 5 10 ]} "ns" HIGHLY_LIKELY [] []
           5 10 "amino" [].
Definition amino_section : Section_ :=
  mkSection "of 2-amino-3 acid" "na" [] [mapped_entity; amino_entity] None.
Definition amino_parser (name : string) : option string :=
  if String.eqb name "2-amino-3" then Some "NCC" else None.

Lemma OpsinStep_call_replaces_unmapped_witness :
  let section' :=
    mkSection "of 2-amino-3 acid" "na" []
      [mapped_entity;
       mkEntity 10 "2-amino-3" "drug" {[ mkCharSpan 3 12 ]} "ns" HIGHLY_LIKELY
                [mkMapping "2-amino-3" "Opsin" "Opsin" "NCC" "opsin"
                           SMC_HIGHLY_LIKELY None None None []]
                [] 3 12 "2-amino-3" []]
      None in
  text section' = text amino_section ∧ name section' = name amino_section
  ∧ s_metadata section' = s_metadata amino_section
  ∧ sentence_spans section' = sentence_spans amino_section
  ∧ length (entities section') = length (entities amino_section)
  ∧ ∃ opsin_entities,
      entities section'
      = filter (λ ent, ¬ is_Some (opsin_match amino_parser "opsin" "drug" ent
                                              (text amino_section)))
               (entities amino_section)
        ++ opsin_entities
      ∧ NoDup (obj_id <$> opsin_entities)
      ∧ Forall2 (replaces amino_parser "opsin" "drug" (text amino_section) 10 11)
                (filter (λ ent, is_Some (opsin_match amino_parser "opsin" "drug"
                                                     ent (text amino_section)))
                        (entities amino_section))
                opsin_entities.
Proof.
  apply (OpsinStep_call_replaces_unmapped (λ s _, s) amino_parser "opsin" "drug"
           amino_section _ 10 11).
  - cbn. apply NoDup_cons. split; [|apply NoDup_singleton].
    intros Hin%list_elem_of_singleton. discriminate.
  - vm_compute. reflexivity.
Defined.
